(** * aws-s3-sns-sync: a shallow embedding of the mirror's core

    The development follows the layout of the TypeScript sources:
    [StringUtils] (src/utils/stringUtils.ts), [KeyAndPathUtils]
    (src/utils/keyAndPathUtils.ts), [Transformers] (src/utils/transformers.ts),
    [S3ObjectOps] (src/s3ObjectOps.ts), [S3Utils] (src/utils/s3Utils.ts),
    [AsyncOpQueue] (src/AsyncOpQueue.ts), [FilesystemOps]
    (src/filesystemOps.ts), [Sync] (src/sync.ts), [SnsServer]
    (src/snsServer.ts) and [Shutdown] (src/shutdown.ts).

    Strings.  A JavaScript string is modelled by the byte string of its UTF-8
    encoding (Rocq's [string], a list of 8-bit characters).  The sources only
    ever inspect strings through comparisons with ASCII characters
    ([charAt(i) === '/']), through [indexOf(p) === 0] / [endsWith] and through
    [Buffer.compare] on the UTF-8 encodings; on well-formed strings all of
    these agree with the same operation on the UTF-8 bytes, because an ASCII
    byte never occurs inside a multi-byte sequence and UTF-8 is prefix-free.

    Platform.  The POSIX branch of every [os.platform()] / [path.sep] test is
    the one embedded ([path.sep = "/"]).

    Numbers.  Sizes, instants (milliseconds), counters and the concurrency
    cap (which the command line parses with [parseInt]) are integers. *)

From Stdlib Require Import ZArith NArith Ascii String List Bool Sorted Lia.
From stdpp Require Import base option list gmap strings.

Import ListNotations.
Local Open Scope string_scope.
Local Open Scope Z_scope.

(** ** Exceptions

    Synchronous JavaScript exceptions: a call either returns a value or throws
    an [Error] with a message. *)

Inductive Result (A : Type) : Type :=
| Ok (a : A)
| Throw (msg : string).
Arguments Ok {A} a.
Arguments Throw {A} msg.

(** ** src/utils/stringUtils.ts *)

Module StringUtils.

(** [Buffer.compare]: unsigned byte-wise lexicographic comparison, a proper
    prefix sorting first; the result is -1, 0 or 1. *)
Fixpoint Buffer_compare (a b : string) : Z :=
  match a, b with
  | EmptyString, EmptyString => 0
  | EmptyString, String _ _ => -1
  | String _ _, EmptyString => 1
  | String x a', String y b' =>
      match N.compare (N_of_ascii x) (N_of_ascii y) with
      | Lt => -1
      | Gt => 1
      | Eq => Buffer_compare a' b'
      end
  end.

(** [compareStringsUtf8BinaryOrder(a, b)]: [Buffer.from(s, 'utf-8')] is the
    identity on the byte model. *)
Definition compareStringsUtf8BinaryOrder (a b : string) : Z :=
  Buffer_compare a b.

End StringUtils.

(** ** JavaScript string primitives used by the sources *)

Module JsString.

(** [s.charAt(i)]: the character at index [i], or the empty string
    ([None]) when [i] is out of range. *)
Definition charAt (s : string) (i : nat) : option ascii := String.get i s.

(** [s.indexOf(p) === 0]. *)
Fixpoint startsWith (p s : string) : bool :=
  match p, s with
  | EmptyString, _ => true
  | String _ _, EmptyString => false
  | String x p', String y s' =>
      if Ascii.eqb x y then startsWith p' s' else false
  end.

(** [s.substr(n)]. *)
Fixpoint substr (s : string) (n : nat) {struct n} : string :=
  match n, s with
  | O, _ => s
  | S _, EmptyString => EmptyString
  | S n', String _ s' => substr s' n'
  end.

(** [s.endsWith(suffix)]. *)
Definition endsWith (s suffix : string) : bool :=
  (String.length suffix <=? String.length s)%nat &&
  String.eqb (substr s (String.length s - String.length suffix)) suffix.

(** Truthiness of a string value: the empty string is falsy. *)
Definition truthy (s : string) : bool :=
  match s with EmptyString => false | _ => true end.

(** [s.indexOf(needle) >= 0]: [needle] occurs somewhere in [s]. *)
Fixpoint indexOfFound (needle s : string) : bool :=
  startsWith needle s ||
  match s with
  | String _ s' => indexOfFound needle s'
  | EmptyString => false
  end.

End JsString.

(** ** JavaScript array primitives used by the sources *)

Module JsArray.

(** [Array.prototype.sort] with a comparator: a stable sort. *)
Fixpoint insertSorted {A : Type} (cmp : A -> A -> Z) (x : A) (l : list A) : list A :=
  match l with
  | [] => [x]
  | y :: l' => if cmp x y <=? 0 then x :: y :: l' else y :: insertSorted cmp x l'
  end.

Definition arraySort {A : Type} (cmp : A -> A -> Z) (l : list A) : list A :=
  fold_right (insertSorted cmp) [] l.

End JsArray.

(** ** src/utils/keyAndPathUtils.ts *)

Module KeyAndPathUtils.
Import JsString.

(** [keyBelongsInCurrentDirectory]: [s3Key.indexOf(curDir) === 0]. *)
Definition keyBelongsInCurrentDirectory (curDir s3Key : string) : bool :=
  startsWith curDir s3Key.

(** [checkKeyOrPathIsDirectory] on a POSIX host: the last character is
    ['/'].  For the empty string [charAt(-1)] is the empty string. *)
Definition checkKeyOrPathIsDirectory (key : string) : bool :=
  match String.length key with
  | O => false
  | S n => match charAt key n with
           | Some c => Ascii.eqb c "/"%char
           | None => false
           end
  end.

(** [getRelativePathToRootDir(rootDir, curDir)]: throws when [rootDir] does
    not occur in [curDir]; otherwise drops [rootDir.length + 1] characters. *)
Definition getRelativePathToRootDir (rootDir curDir : string) : Result string :=
  if negb (indexOfFound rootDir curDir) then
    Throw ("Could not get relative path to root directory, because root "
           ++ "directory path (" ++ rootDir ++ ") was not within the current "
           ++ "directory path (" ++ curDir ++ ").")
  else Ok (substr curDir (String.length rootDir + 1)).

End KeyAndPathUtils.

(** ** src/utils/transformers.ts *)

Module Transformers.
Import JsString.

Definition StringTransformer : Type := string -> string.

Definition isChar (o : option ascii) (c : ascii) : bool :=
  match o with Some d => Ascii.eqb d c | None => false end.

(** [key.charAt(startPos) >= 'A' && key.charAt(startPos) <= 'Z']; the empty
    string compares below ['A']. *)
Definition betweenAandZ (o : option ascii) : bool :=
  match o with
  | Some d => (N_of_ascii "A" <=? N_of_ascii d)%N && (N_of_ascii d <=? N_of_ascii "Z")%N
  | None => false
  end.

(** First two disjuncts of the [while] condition. *)
Definition atSeparator (key : string) (startPos : nat) : bool :=
  isChar (charAt key startPos) "/" || isChar (charAt key startPos) "\".

(** Third disjunct of the [while] condition; when it is reached and holds it
    sets [windowsTestRes]. *)
Definition atWindowsDrive (key : string) (startPos : nat) : bool :=
  (2 <=? String.length key - startPos)%nat &&
  betweenAandZ (charAt key startPos) &&
  isChar (charAt key (startPos + 1)) ":" &&
  (isChar (charAt key (startPos + 2)) "\" || isChar (charAt key (startPos + 2)) "/").

(** The [while] loop of [removeRootDirCharsFromS3Key]; [fuel] bounds the
    number of iterations. *)
Fixpoint skipRootChars (fuel : nat) (key : string) (startPos : nat) : nat :=
  match fuel with
  | O => startPos
  | S fuel' =>
      if atSeparator key startPos then skipRootChars fuel' key (startPos + 1)
      else if atWindowsDrive key startPos then skipRootChars fuel' key (startPos + 1 + 2)
      else startPos
  end.

Definition removeRootDirCharsFromS3Key (key : string) : string :=
  substr key (skipRootChars (S (String.length key)) key 0).

(** [replaceKeyDirCharsWithSystemSep] on a POSIX host: every ['\'] becomes
    ['/']. *)
Fixpoint replaceKeyDirCharsWithSystemSep (str : string) : string :=
  match str with
  | EmptyString => EmptyString
  | String c rest =>
      String (if Ascii.eqb c "\" then "/"%char else c)
             (replaceKeyDirCharsWithSystemSep rest)
  end.

Inductive NormalizationType : Type := NFC | NFD | NFKC | NFKD.

Record S3KeyTransformerOptions : Type := mkTransformerOptions {
  normalizationForm : option NormalizationType;
  ignoreKeyPlatformDirCharReplacement : bool;
  ignoreKeyRootCharReplacement : bool
}.

(** [getDefaultS3KeyTransformers(options)]; [normalize form] stands for
    [key => key.normalize(form)], the transformer made by
    [createNormalizationTransformer(form)]. *)
Definition getDefaultS3KeyTransformers
    (normalize : NormalizationType -> StringTransformer)
    (options : S3KeyTransformerOptions) : option (list StringTransformer) :=
  let transformer :=
    ((if ignoreKeyRootCharReplacement options then []
      else [removeRootDirCharsFromS3Key]) ++
     (if ignoreKeyPlatformDirCharReplacement options then []
      else [replaceKeyDirCharsWithSystemSep]) ++
     (match normalizationForm options with
      | Some form => [normalize form]
      | None => []
      end))%list in
  match transformer with
  | [] => None
  | _ => Some transformer
  end.

End Transformers.

(** ** src/s3ObjectOps.ts *)

Module S3ObjectOps.
Import Transformers.

(** [applyTransformersToKey]: the transformers are applied left to right;
    [None] is an absent array. *)
Definition applyTransformersToKey (key : string)
    (transformers : option (list StringTransformer)) : string :=
  match transformers with
  | Some ts => fold_left (fun transKey t => t transKey) ts key
  | None => key
  end.

(** [keyIsDirectory]: the key ends with [path.sep]. *)
Definition keyIsDirectory (key : string) : bool :=
  KeyAndPathUtils.checkKeyOrPathIsDirectory key.

End S3ObjectOps.

(** ** src/utils/s3Utils.ts *)

Module S3Utils.
Import JsString JsArray StringUtils Transformers S3ObjectOps.

(** An entry of a [ListObjectsV2] page ([_Object] of the SDK); the store
    reports [LastModified] and [Size] for every object. *)
Record S3Object : Type := mkS3Object {
  objKey : option string;
  objLastModified : Z;
  objSize : Z
}.

(** [S3ListObj = MirrorS3Object & _Object], once the key is known to be
    present. *)
Record S3ListObj : Type := mkS3ListObj {
  Key : string;
  transformedKey : string;
  LastModified : Z;
  Size : Z
}.

Record ListObjectsV2Output : Type := mkOutput {
  Contents : option (list S3Object);
  NextContinuationToken : option string
}.

Record S3ListOptions : Type := mkS3ListOptions {
  suffix : option string;
  s3KeyTransformers : option (list StringTransformer)
}.

(** [setTransformedKey(obj, 'Key', transformers)]: throws when the key is
    undefined or empty. *)
Definition setTransformedKey (obj : S3Object)
    (transformers : option (list StringTransformer)) : Result S3ListObj :=
  match objKey obj with
  | Some key =>
      if truthy key then
        Ok (mkS3ListObj key (applyTransformersToKey key transformers)
              (objLastModified obj) (objSize obj))
      else Throw "key was undefined, null, or empty. This is unexpected."
  | None => Throw "key was undefined, null, or empty. This is unexpected."
  end.

(** The object [allBucketKeys] used as a map.  Own string properties are
    enumerated by [for ... in] in insertion order, and assigning to an
    existing property keeps its place.  (Property names that are array
    indices are enumerated first; the list is sorted right after the
    enumeration, and [getS3List_enumeration_order] below shows that its
    result is the same for every enumeration order.) *)
Definition BucketKeys : Type := list (string * S3ListObj).

Fixpoint setProperty (m : BucketKeys) (k : string) (v : S3ListObj) : BucketKeys :=
  match m with
  | [] => [(k, v)]
  | (k', v') :: m' =>
      if String.eqb k k' then (k, v) :: m' else (k', v') :: setProperty m' k v
  end.

(** [options.suffix && !s3ListObj.Key?.endsWith(options.suffix)]. *)
Definition filteredOut (options : S3ListOptions) (obj : S3Object) : bool :=
  match suffix options with
  | Some sfx =>
      truthy sfx &&
      negb (match objKey obj with Some k => endsWith k sfx | None => false end)
  | None => false
  end.

(** Body of the [for] loop over one page. *)
Definition addObject (options : S3ListOptions) (allBucketKeys : BucketKeys)
    (obj : S3Object) : BucketKeys :=
  if filteredOut options obj then allBucketKeys
  else
    match setTransformedKey obj (s3KeyTransformers options) with
    | Ok s3ListObj =>
        let tk := transformedKey s3ListObj in
        if String.eqb tk "" || String.eqb tk "/" then allBucketKeys
        else setProperty allBucketKeys tk s3ListObj
    | Throw _ => allBucketKeys
    end.

(** The [while (req !== null)] loop.  The client is the sequence of pages
    it answers with, one per [send]; the listing ends at the first page
    without a continuation token or without [Contents]. *)
Fixpoint listPages (options : S3ListOptions) (responses : list ListObjectsV2Output)
    (allBucketKeys : BucketKeys) : BucketKeys :=
  match responses with
  | [] => allBucketKeys
  | resp :: rest =>
      match Contents resp with
      | None => allBucketKeys
      | Some contents =>
          let allBucketKeys' := fold_left (addObject options) contents allBucketKeys in
          match NextContinuationToken resp with
          | Some tok => if truthy tok then listPages options rest allBucketKeys'
                        else allBucketKeys'
          | None => allBucketKeys'
          end
      end
  end.

Definition getS3List (options : S3ListOptions)
    (responses : list ListObjectsV2Output) : list S3ListObj :=
  let allBucketKeys := listPages options responses [] in
  let list := map snd allBucketKeys in
  arraySort (fun a b => compareStringsUtf8BinaryOrder (Key a) (Key b)) list.

End S3Utils.

(** ** src/AsyncOpQueue.ts

    The queue is driven by callbacks of the host's event loop: the
    [setImmediate] callback armed by [run()], the [setTimeout] callback armed
    by [reap()], the timer armed by [stop(_, timeout)], the calls of the
    public methods, and the continuations of started tasks that call
    [onComplete].  Each of them runs to completion, so each is one
    transition of the state below.

    The linked list [queueHead .. queueTail] is the list [queue]; the object
    [runningTasks] used as a map is a finite map (partition keys are
    absolute paths, never names of [Object.prototype]).

    A task is a JavaScript function; what the queue can observe of it is
    whether it calls [onComplete] before returning, whether it throws, and
    whether its continuation calls [onComplete] later on.  Task bodies do not
    call back into the queue's public methods. *)

Module AsyncOpQueue.

Record AsyncOpQueueOptions : Type := mkOptions {
  opt_maxConcurrency : option Z;
  opt_defaultTaskRunTimeoutMillis : option Z;
  opt_taskReaperIntervalMillis : option Z;
  opt_catchErrors : option bool
}.

(** What a task does to the outside world; not inspected by the queue. *)
Inductive Effect : Type :=
| UserTask (n : nat)
| Mkdir (path : string)
| WriteObject (Key writeFilePath : string)
| Unlink (path : string) (pruneEmptyParent : bool)
| RmdirRecursive (path : string).

(** [type Task = (onComplete: () => void) => void]. *)
Record Task : Type := mkTask {
  effect : Effect;
  completesSync : bool;   (* calls onComplete before returning *)
  throwsSync : bool;      (* throws (after the call above, if any) *)
  completesLater : bool   (* its continuation calls onComplete *)
}.

(** [type PromiseTask<T> = () => Promise<T>]: the call either throws or
    returns a promise, which resolves, rejects or stays pending. *)
Inductive Settlement : Type := Resolves | Rejects | NeverSettles.

Inductive PromiseOutcome : Type :=
| ThrowsBeforePromise
| ReturnsPromise (s : Settlement).

Record PromiseTask : Type := mkPromiseTask {
  p_effect : Effect;
  p_outcome : PromiseOutcome
}.

Record QueueItem : Type := mkQueueItem {
  key : string;
  task : Task;
  runTimeout : option Z
}.

Record RunningTask : Type := mkRunningTask {
  expiration : option Z;
  id : nat
}.

(** A task function invoked by the dispatch loop, recorded in invocation
    order (history only; the n-th record has run id n). *)
Record Started : Type := mkStarted {
  st_id : nat;
  st_item : QueueItem
}.

Record Queue : Type := mkQueue {
  maxConcurrency : Z;
  defaultTaskRunTimeoutMillis : option Z;
  reaperIntervalMillis : Z;
  runningTasks : gmap string RunningTask;
  runCount : Z;
  catchErrors : bool;
  queue : list QueueItem;
  size : Z;
  runId : nat;
  shutdown : bool;
  shutdownImmediately : bool;
  runArmed : bool;        (* a [setImmediate] callback of [run()] is pending *)
  reapArmed : bool;       (* a [setTimeout] callback of [reap()] is pending *)
  stopTimerArmed : bool;  (* the timer of [stop(false, timeout)] is pending *)
  started : list Started
}.

Definition set_runningTasks (q : Queue) (m : gmap string RunningTask) : Queue :=
  mkQueue (maxConcurrency q) (defaultTaskRunTimeoutMillis q) (reaperIntervalMillis q)
    m (runCount q) (catchErrors q) (queue q) (size q) (runId q) (shutdown q)
    (shutdownImmediately q) (runArmed q) (reapArmed q) (stopTimerArmed q) (started q).

Definition set_runCount (q : Queue) (n : Z) : Queue :=
  mkQueue (maxConcurrency q) (defaultTaskRunTimeoutMillis q) (reaperIntervalMillis q)
    (runningTasks q) n (catchErrors q) (queue q) (size q) (runId q) (shutdown q)
    (shutdownImmediately q) (runArmed q) (reapArmed q) (stopTimerArmed q) (started q).

Definition set_queue (q : Queue) (l : list QueueItem) : Queue :=
  mkQueue (maxConcurrency q) (defaultTaskRunTimeoutMillis q) (reaperIntervalMillis q)
    (runningTasks q) (runCount q) (catchErrors q) l (size q) (runId q) (shutdown q)
    (shutdownImmediately q) (runArmed q) (reapArmed q) (stopTimerArmed q) (started q).

Definition set_size (q : Queue) (n : Z) : Queue :=
  mkQueue (maxConcurrency q) (defaultTaskRunTimeoutMillis q) (reaperIntervalMillis q)
    (runningTasks q) (runCount q) (catchErrors q) (queue q) n (runId q) (shutdown q)
    (shutdownImmediately q) (runArmed q) (reapArmed q) (stopTimerArmed q) (started q).

Definition set_runId (q : Queue) (n : nat) : Queue :=
  mkQueue (maxConcurrency q) (defaultTaskRunTimeoutMillis q) (reaperIntervalMillis q)
    (runningTasks q) (runCount q) (catchErrors q) (queue q) (size q) n (shutdown q)
    (shutdownImmediately q) (runArmed q) (reapArmed q) (stopTimerArmed q) (started q).

Definition set_shutdown (q : Queue) (b bi timer : bool) : Queue :=
  mkQueue (maxConcurrency q) (defaultTaskRunTimeoutMillis q) (reaperIntervalMillis q)
    (runningTasks q) (runCount q) (catchErrors q) (queue q) (size q) (runId q) b
    bi (runArmed q) (reapArmed q) timer (started q).

Definition set_runArmed (q : Queue) (b : bool) : Queue :=
  mkQueue (maxConcurrency q) (defaultTaskRunTimeoutMillis q) (reaperIntervalMillis q)
    (runningTasks q) (runCount q) (catchErrors q) (queue q) (size q) (runId q) (shutdown q)
    (shutdownImmediately q) b (reapArmed q) (stopTimerArmed q) (started q).

Definition set_reapArmed (q : Queue) (b : bool) : Queue :=
  mkQueue (maxConcurrency q) (defaultTaskRunTimeoutMillis q) (reaperIntervalMillis q)
    (runningTasks q) (runCount q) (catchErrors q) (queue q) (size q) (runId q) (shutdown q)
    (shutdownImmediately q) (runArmed q) b (stopTimerArmed q) (started q).

Definition set_started (q : Queue) (l : list Started) : Queue :=
  mkQueue (maxConcurrency q) (defaultTaskRunTimeoutMillis q) (reaperIntervalMillis q)
    (runningTasks q) (runCount q) (catchErrors q) (queue q) (size q) (runId q) (shutdown q)
    (shutdownImmediately q) (runArmed q) (reapArmed q) (stopTimerArmed q) l.

(** [x || d] on an optional number: [undefined] and [0] give the default. *)
Definition orDefault (x : option Z) (d : Z) : Z :=
  match x with
  | Some n => if n =? 0 then d else n
  | None => d
  end.

(** [run()]: arms the dispatch callback. *)
Definition run (q : Queue) : Queue := set_runArmed q true.

(** [reap()]: arms the reaper callback when the interval is positive and
    the queue is not shut down. *)
Definition reap (q : Queue) : Queue :=
  set_reapArmed q
    (negb (reaperIntervalMillis q =? 0) && (0 <? reaperIntervalMillis q)
     && negb (shutdown q)).

Definition constructor (options : AsyncOpQueueOptions) : Queue :=
  let q := mkQueue
    (orDefault (opt_maxConcurrency options) 300)
    (opt_defaultTaskRunTimeoutMillis options)
    (orDefault (opt_taskReaperIntervalMillis options) 10)
    ∅ 0
    (match opt_catchErrors options with Some b => b | None => false end)
    [] 0 0%nat false false false false false [] in
  reap (run q).

Definition queueSize (q : Queue) : Z := size q.
Definition runningCount (q : Queue) : Z := runCount q.

(** [submit(key, task, runTimeout = this.defaultTaskRunTimeoutMillis)]: an
    absent (undefined) [runTimeout] takes the default. *)
Definition submit (q : Queue) (key : string) (task : Task)
    (runTimeout : option Z) : Queue :=
  if shutdown q then q
  else
    let timeout := match runTimeout with
                   | Some t => Some t
                   | None => defaultTaskRunTimeoutMillis q
                   end in
    set_queue (set_size q (size q + 1)) (queue q ++ [mkQueueItem key task timeout]).

(** The task that [submitPromiseTask] wraps around a promise task: with
    [catchErrors] the [then] and the [catch] handlers both call
    [onComplete]; without it only the [then] handler does. *)
Definition promiseWrapper (catchErrors : bool) (promiseTask : PromiseTask) : Task :=
  match p_outcome promiseTask with
  | ThrowsBeforePromise => mkTask (p_effect promiseTask) false true false
  | ReturnsPromise s =>
      mkTask (p_effect promiseTask) false false
        (if catchErrors
         then match s with Resolves | Rejects => true | NeverSettles => false end
         else match s with Resolves => true | Rejects | NeverSettles => false end)
  end.

Definition submitPromiseTask (q : Queue) (key : string) (promiseTask : PromiseTask)
    (runTimeout : option Z) : Queue :=
  submit q key (promiseWrapper (catchErrors q) promiseTask) runTimeout.

(** [removeRunningTask(key, id)]. *)
Definition removeRunningTask (q : Queue) (key : string) (id_ : nat) : Queue :=
  match runningTasks q !! key with
  | Some runningTask =>
      if Nat.eqb (id runningTask) id_
      then set_runCount (set_runningTasks q (delete key (runningTasks q))) (runCount q - 1)
      else q
  | None => q
  end.

(** The reaper's callback: one reading [currentTime] of the clock for the
    whole sweep, then [reap()] again. *)
Definition reapSweep (currentTime : Z) (q : Queue) : Queue :=
  fold_left
    (fun q' (entry : string * RunningTask) =>
       let (key, runningTask) := entry in
       match expiration runningTask with
       | Some e => if e - currentTime <=? 0
                   then removeRunningTask q' key (id runningTask) else q'
       | None => q'
       end)
    (map_to_list (runningTasks q)) q.

Definition reapCallback (currentTime : Z) (q : Queue) : Queue :=
  if reapArmed q then reap (reapSweep currentTime q) else q.

(** ** The dispatch callback of [run()]

    [clock n] is the value of the n-th call of [Date.now()] made by the
    callback; [reads] counts the calls made so far.  [unrun] is the chain
    that starts at [queueHead] once [previousUnrunTask] is defined, and
    [ranSince] the items run since [previousUnrunTask] was last set (they
    are still linked behind it until the next relinking). *)

(** The test deciding whether the item may run, with the updated number of
    clock readings. *)
Definition mayRun (clock : nat -> Z) (reads : nat)
    (runningTaskForKey : option RunningTask) : bool * nat :=
  match runningTaskForKey with
  | None => (true, reads)
  | Some rt =>
      match expiration rt with
      | None => (false, reads)
      | Some e => (e - clock reads <=? 0, S reads)
      end
  end.

Definition newExpiration (clock : nat -> Z) (reads : nat)
    (runTimeout : option Z) : option Z * nat :=
  match runTimeout with
  | Some t => (Some (t + clock reads), S reads)
  | None => (None, reads)
  end.

(** End of the callback when the loop is left normally: the queue is
    relinked and [run()] is called again unless the queue is shut down and
    drained (or shut down immediately). *)
Definition finishRun (q : Queue) (newQueue : list QueueItem) : Queue :=
  let q' := set_queue q newQueue in
  if negb (shutdown q') then run q'
  else if negb (shutdownImmediately q') && (0 <? size q') then run q'
  else q'.

Fixpoint runLoop (clock : nat -> Z) (reads : nat) (q : Queue)
    (unrun ranSince items : list QueueItem) : Queue :=
  match items with
  | [] => finishRun q unrun
  | taskToRun :: rest =>
      if (runCount q <? maxConcurrency q) && negb (shutdownImmediately q) then
        let k := key taskToRun in
        let runningTaskForKey := runningTasks q !! k in
        let (runnable, reads1) := mayRun clock reads runningTaskForKey in
        if runnable then
          let id_ := runId q in
          let (exp, reads2) := newExpiration clock reads1 (runTimeout taskToRun) in
          let q1 := set_started
                      (set_runningTasks (set_runId q (S id_))
                         (<[k := mkRunningTask exp id_]> (runningTasks q)))
                      (started q ++ [mkStarted id_ taskToRun]) in
          (* taskToRun.task(() => this.removeRunningTask(key, id)) *)
          let q2 := if completesSync (task taskToRun)
                    then removeRunningTask q1 k id_ else q1 in
          let afterTask (q3 : Queue) : Queue :=
            let q4 := set_size q3 (size q3 - 1) in
            let q5 := match runningTaskForKey with
                      | None => set_runCount q4 (runCount q4 + 1)
                      | Some _ => q4
                      end in
            runLoop clock reads2 q5 unrun (ranSince ++ [taskToRun]) rest in
          if throwsSync (task taskToRun) then
            if catchErrors q then afterTask (removeRunningTask q2 k id_)
            else
              (* the exception leaves the callback: nothing is relinked and
                 run() is not called again *)
              set_queue q2
                (match unrun with
                 | [] => taskToRun :: rest
                 | _ => unrun ++ ranSince ++ taskToRun :: rest
                 end)
          else afterTask q2
        else runLoop clock reads1 q (unrun ++ [taskToRun]) [] rest
      else finishRun q (unrun ++ items)
  end.

Definition runCallback (clock : nat -> Z) (q : Queue) : Queue :=
  if runArmed q then runLoop clock 0 (set_runArmed q false) [] [] (queue q) else q.

(** [stop(immediately = false, timeout?)]. *)
Definition stop (q : Queue) (immediately : bool) (timeout : option Z) : Queue :=
  if shutdown q then q
  else set_shutdown q true immediately
         (match timeout with Some _ => negb immediately | None => false end).

(** The timer armed by [stop]. *)
Definition stopTimerCallback (q : Queue) : Queue :=
  if stopTimerArmed q then set_shutdown q (shutdown q) true false else q.

(** The continuation of the task started with run id [id_] fires. *)
Definition continuation (q : Queue) (id_ : nat) : Queue :=
  match started q !! id_ with
  | Some s =>
      if completesLater (task (st_item s))
      then removeRunningTask q (key (st_item s)) (st_id s) else q
  | None => q
  end.

(** ** Transitions *)

Inductive Event : Type :=
| ESubmit (key : string) (task : Task) (runTimeout : option Z)
| ESubmitPromiseTask (key : string) (promiseTask : PromiseTask) (runTimeout : option Z)
| ERun (clock : nat -> Z)
| EReap (currentTime : Z)
| EComplete (id_ : nat)
| EStop (immediately : bool) (timeout : option Z)
| EStopTimer.

Definition step (q : Queue) (e : Event) : Queue :=
  match e with
  | ESubmit k t rt => submit q k t rt
  | ESubmitPromiseTask k pt rt => submitPromiseTask q k pt rt
  | ERun clock => runCallback clock q
  | EReap now => reapCallback now q
  | EComplete i => continuation q i
  | EStop imm t => stop q imm t
  | EStopTimer => stopTimerCallback q
  end.

Definition steps (q : Queue) (es : list Event) : Queue := fold_left step es q.

(** Effects of the started tasks, in the order of their invocation. *)
Definition startOrder (q : Queue) : list Effect :=
  map (fun s => effect (task (st_item s))) (started q).

End AsyncOpQueue.

(** ** Node's [path] module (POSIX), as used by src/filesystemOps.ts *)

Module Path.
Import JsString.

Definition sep : string := "/".

(** [s.split(c)] for a one-character separator. *)
Fixpoint splitFrom (c : ascii) (s cur : string) : list string :=
  match s with
  | EmptyString => [cur]
  | String x s' =>
      if Ascii.eqb x c then cur :: splitFrom c s' ""
      else splitFrom c s' (cur ++ String x "")
  end.

Definition split (c : ascii) (s : string) : list string := splitFrom c s "".

Fixpoint join (segments : list string) : string :=
  match segments with
  | [] => ""
  | [x] => x
  | x :: rest => x ++ "/" ++ join rest
  end.

(** [normalizeString]: empty and ["."] segments are dropped, [".."] removes
    the segment before it; above the root it is dropped, or kept when
    [allowAboveRoot].  [stack] is in reverse order. *)
Definition normalizeSegment (allowAboveRoot : bool) (stack : list string)
    (segment : string) : list string :=
  if String.eqb segment "" || String.eqb segment "." then stack
  else if String.eqb segment ".." then
    match stack with
    | top :: below =>
        if String.eqb top ".." then segment :: stack else below
    | [] => if allowAboveRoot then [segment] else []
    end
  else segment :: stack.

Definition normalizeString (p : string) (allowAboveRoot : bool) : string :=
  join (rev (fold_left (normalizeSegment allowAboveRoot) (split "/" p) [])).

Definition isAbsolute (p : string) : bool :=
  match charAt p 0 with Some c => Ascii.eqb c "/" | None => false end.

(** The right-to-left loop of [path.resolve] over the arguments and then the
    working directory, until an absolute path is reached. *)
Fixpoint resolveLoop (candidates : list string) (resolvedPath : string) : string * bool :=
  match candidates with
  | [] => (resolvedPath, false)
  | p :: rest =>
      if String.eqb p "" then resolveLoop rest resolvedPath
      else if isAbsolute p then (p ++ "/" ++ resolvedPath, true)
      else resolveLoop rest (p ++ "/" ++ resolvedPath)
  end.

Definition resolve (cwd : string) (args : list string) : string :=
  let (resolvedPath, resolvedAbsolute) := resolveLoop (rev args ++ [cwd]) "" in
  let normalized := normalizeString resolvedPath (negb resolvedAbsolute) in
  if resolvedAbsolute then "/" ++ normalized
  else if truthy normalized then normalized else ".".

End Path.

(** ** src/utils/utils.ts *)

Module Utils.
Import JsString.

(** [ensurePathEndsWithOsSeparator]: the source tests
    [str.charAt(str.length)], the position after the last character. *)
Definition ensurePathEndsWithOsSeparator (str : string) : string :=
  match charAt str (String.length str) with
  | Some c => if String.eqb (String c "") Path.sep then str else str ++ Path.sep
  | None => str ++ Path.sep
  end.

End Utils.

(** ** src/filesystemOps.ts

    Every operation submits one promise task to the queue, keyed by the
    resolved target path.  [fsOutcome] is what the promise of the file-system
    (and S3) calls does; [cwd] is the process's working directory. *)

Module FilesystemOps.
Import JsString AsyncOpQueue.

Record CommonFsOptions : Type := mkFsOptions {
  fsQueue : Queue;
  rootDir : string;
  cwd : string;
  fsOutcome : PromiseOutcome
}.

Definition writeS3Object (o : CommonFsOptions) (Key transformedKey : string) : Queue :=
  let writeFilePath := Path.resolve (cwd o) [rootDir o; transformedKey] in
  let queueOp :=
    if S3ObjectOps.keyIsDirectory transformedKey
    then mkPromiseTask (Mkdir writeFilePath) (fsOutcome o)
    else mkPromiseTask (WriteObject Key writeFilePath) (fsOutcome o) in
  submitPromiseTask (fsQueue o) writeFilePath queueOp None.

Definition unlinkFile (o : CommonFsOptions) (relativeFilePath : string)
    (remove : bool) : Queue :=
  let removeFilePath := Path.resolve (cwd o) [rootDir o; relativeFilePath] in
  submitPromiseTask (fsQueue o) removeFilePath
    (mkPromiseTask (Unlink removeFilePath remove) (fsOutcome o)) None.

Definition mkdirRecursive (o : CommonFsOptions) (relativeDirPath : string) : Queue :=
  let mkdirPath := Path.resolve (cwd o) [rootDir o; relativeDirPath] in
  submitPromiseTask (fsQueue o) mkdirPath
    (mkPromiseTask (Mkdir mkdirPath) (fsOutcome o)) None.

(** [windowsRootRegex = /^[A-Za-z]:\\$/]. *)
Definition isLetter (c : ascii) : bool :=
  let n := N_of_ascii c in
  ((N_of_ascii "A" <=? n)%N && (n <=? N_of_ascii "Z")%N) ||
  ((N_of_ascii "a" <=? n)%N && (n <=? N_of_ascii "z")%N).

Definition matchesWindowsRootRegex (p : string) : bool :=
  match p with
  | String d (String c (String b EmptyString)) =>
      isLetter d && Ascii.eqb c ":" && Ascii.eqb b "\"
  | _ => false
  end.

Definition rmdirRecursive (o : CommonFsOptions) (relativeDirPath : string)
    : Result Queue :=
  if negb (String.eqb (Utils.ensurePathEndsWithOsSeparator relativeDirPath)
                      (Utils.ensurePathEndsWithOsSeparator (rootDir o))) then
    let rmDirPath := Path.resolve (cwd o) [rootDir o; relativeDirPath] in
    if String.eqb rmDirPath "/" || matchesWindowsRootRegex rmDirPath then
      Throw ("The root directory should never be removed. Was = '" ++ rmDirPath ++ "'.")
    else
      Ok (submitPromiseTask (fsQueue o) rmDirPath
            (mkPromiseTask (RmdirRecursive rmDirPath) (fsOutcome o)) None)
  else
    (* logged: the directory is the root mirror directory *)
    Ok (fsQueue o).

Record Stats : Type := mkStats {
  mtime : Z;   (* stats.mtime.getTime() *)
  size : Z
}.

Record DirEntry : Type := mkDirEntry {
  relativePath : string;
  stats : Stats
}.

(** The last statement of [getDirectoryEntries]: the flattened result of
    the directory walk, [retList], is returned sorted by relative path. *)
Definition sortDirEntries (retList : list DirEntry) : list DirEntry :=
  JsArray.arraySort
    (fun a b => StringUtils.compareStringsUtf8BinaryOrder
                  (relativePath a) (relativePath b))
    retList.

(** The calls that the reconciler and the notification listener make into
    this module. *)
Inductive Call : Type :=
| CallWriteS3Object (Key transformedKey : string)
| CallUnlinkFile (relativeFilePath : string)
| CallRmdirRecursive (relativeDirPath : string).

Definition perform (o : CommonFsOptions) (remove : bool) (c : Call) : Result Queue :=
  match c with
  | CallWriteS3Object k tk => Ok (writeS3Object o k tk)
  | CallUnlinkFile p => Ok (unlinkFile o p remove)
  | CallRmdirRecursive p => rmdirRecursive o p
  end.

End FilesystemOps.

(** ** src/sync.ts: the reconciliation loop of [sync()] *)

Module Sync.
Import JsString StringUtils KeyAndPathUtils S3Utils FilesystemOps.

(** The local variables of the loop, and the calls made so far. *)
Record State : Type := mkState {
  dirEntPos : nat;
  s3ListPos : nat;
  dirEntry : option DirEntry;
  s3ListObj : option S3ListObj;
  calls : list Call
}.

Section Reconcile.
Variable s3List : list S3ListObj.
Variable dirEntries : list DirEntry.
Variable remove : bool.

(** [dirEntries[dirEntPos++]] and [s3List[s3ListPos++]]. *)
Definition getNextDirEntry (st : State) : State :=
  mkState (S (dirEntPos st)) (s3ListPos st)
    (dirEntries !! dirEntPos st) (s3ListObj st) (calls st).

Definition getNextS3ListObj (st : State) : State :=
  mkState (dirEntPos st) (S (s3ListPos st))
    (dirEntry st) (s3List !! s3ListPos st) (calls st).

(** The [while] loop of [getNextDirEntryAfterRemovedDir] over the entries
    from [dirEntPos] on; returns [curVal] and the new [dirEntPos]. *)
Fixpoint skipRemovedDir (removedDir : string) (rest : list DirEntry)
    (pos : nat) : option DirEntry * nat :=
  match rest with
  | [] => (None, S pos)
  | curVal :: rest' =>
      if startsWith removedDir (relativePath curVal)
      then skipRemovedDir removedDir rest' (S pos)
      else (Some curVal, S pos)
  end.

Definition getNextDirEntryAfterRemovedDir (removedDir : string) (st : State) : State :=
  let (curVal, pos) :=
    skipRemovedDir removedDir (drop (dirEntPos st) dirEntries) (dirEntPos st) in
  mkState pos (s3ListPos st) curVal (s3ListObj st) (calls st).

Definition call (c : Call) (st : State) : State :=
  mkState (dirEntPos st) (s3ListPos st) (dirEntry st) (s3ListObj st)
    (calls st ++ [c]).

(** One iteration of [while (dirEntry !== undefined || s3ListObj !== undefined)]. *)
Definition loopBody (st : State) : State :=
  match dirEntry st, s3ListObj st with
  | Some d, Some o =>
      let p := relativePath d in
      let c := compareStringsUtf8BinaryOrder p (transformedKey o) in
      if c =? -1 then
        if remove then
          if checkKeyOrPathIsDirectory p &&
             negb (keyBelongsInCurrentDirectory p (transformedKey o)) then
            getNextDirEntryAfterRemovedDir p (call (CallRmdirRecursive p) st)
          else if negb (checkKeyOrPathIsDirectory p) then
            getNextDirEntry (call (CallUnlinkFile p) st)
          else getNextDirEntry st
        else getNextDirEntry st
      else if c =? 0 then
        let st' :=
          if negb (checkKeyOrPathIsDirectory p) &&
             ((mtime (stats d) <? LastModified o) || negb (Size o =? size (stats d)))
          then call (CallWriteS3Object (Key o) (transformedKey o)) st
          else st in
        getNextS3ListObj (getNextDirEntry st')
      else
        getNextS3ListObj (call (CallWriteS3Object (Key o) (transformedKey o)) st)
  | Some d, None =>
      let p := relativePath d in
      if remove then
        if checkKeyOrPathIsDirectory p then
          getNextDirEntryAfterRemovedDir p (call (CallRmdirRecursive p) st)
        else getNextDirEntry (call (CallUnlinkFile p) st)
      else getNextDirEntry st
  | None, Some o =>
      getNextS3ListObj (call (CallWriteS3Object (Key o) (transformedKey o)) st)
  | None, None => st
  end.

Definition loopCondition (st : State) : bool :=
  match dirEntry st, s3ListObj st with
  | None, None => false
  | _, _ => true
  end.

Fixpoint loop (fuel : nat) (st : State) : option State :=
  if loopCondition st then
    match fuel with
    | O => None
    | S fuel' => loop fuel' (loopBody st)
    end
  else Some st.

(** The state on entry to the loop: both cursors have been advanced once. *)
Definition initialState : State :=
  getNextDirEntry (getNextS3ListObj (mkState 0 0 None None [])).

(** The calls made by one reconciliation. *)
Definition sync : option (list Call) :=
  option_map calls
    (loop (S (S (length dirEntries + length s3List))) initialState).

End Reconcile.

End Sync.

(** ** src/snsServer.ts *)

Module SnsServer.
Import JsString S3ObjectOps FilesystemOps.

Definition DEFAULT_MAJOR_EVENT_VERSION : Z := 2.
Definition DEFAULT_MINOR_EVENT_VERSION : Z := 1.

(** *** [Number.parseInt(s)] on ASCII input: leading white space, an
    optional sign, an optional [0x] prefix, then the longest run of digits;
    [None] is [NaN]. *)

Definition isWhiteSpace (c : ascii) : bool :=
  let n := N_of_ascii c in
  (n =? 32)%N || ((9 <=? n)%N && (n <=? 13)%N).

Fixpoint trimStart (s : string) : string :=
  match s with
  | String c s' => if isWhiteSpace c then trimStart s' else s
  | EmptyString => s
  end.

Definition digitValue (c : ascii) : option Z :=
  let n := N_of_ascii c in
  if (48 <=? n)%N && (n <=? 57)%N then Some (Z.of_N n - 48)
  else if (97 <=? n)%N && (n <=? 122)%N then Some (Z.of_N n - 97 + 10)
  else if (65 <=? n)%N && (n <=? 90)%N then Some (Z.of_N n - 65 + 10)
  else None.

Fixpoint digits (radix : Z) (s : string) (acc : option Z) : option Z :=
  match s with
  | String c s' =>
      match digitValue c with
      | Some d =>
          if d <? radix
          then digits radix s' (Some (match acc with Some a => a * radix + d | None => d end))
          else acc
      | None => acc
      end
  | EmptyString => acc
  end.

Definition parseInt (s : string) : option Z :=
  let s1 := trimStart s in
  let (negative, s2) :=
    match s1 with
    | String "-" r => (true, r)
    | String "+" r => (false, r)
    | _ => (false, s1)
    end in
  let (radix, s3) :=
    match s2 with
    | String "0" (String "x" r) => (16, r)
    | String "0" (String "X" r) => (16, r)
    | _ => (10, s2)
    end in
  match digits radix s3 None with
  | Some n => Some (if negative then - n else n)
  | None => None
  end.

(** *** The default notification listener *)

Record S3Record : Type := mkRecord {
  eventVersion : string;
  eventName : string;
  bucketName : string;   (* record.s3.bucket.name *)
  objectKey : string     (* record.s3.object.key *)
}.

Record ListenerOptions : Type := mkListenerOptions {
  bucket : string;
  prefix : option string;
  suffix : option string;
  s3KeyTransformers : option (list Transformers.StringTransformer)
}.

(** The test guarding [throw new Error("Unsupported event version")]:
    [NaN !== 2] holds and [NaN < 1] does not. *)
Definition unsupportedEventVersion (eventVersion : string) : bool :=
  let splitEventVersion := Path.split "." eventVersion in
  (length splitEventVersion <? 2)%nat
  || negb (match parseInt (nth 0 splitEventVersion "") with
           | Some major => major =? DEFAULT_MAJOR_EVENT_VERSION
           | None => false
           end)
  || match parseInt (nth 1 splitEventVersion "") with
     | Some minor => minor <? DEFAULT_MINOR_EVENT_VERSION
     | None => false
     end.

(** The prefix/suffix test guarding [continue]. *)
Definition filteredOut (options : ListenerOptions) (record : S3Record) : bool :=
  match prefix options with
  | Some p => truthy p && negb (startsWith p (objectKey record))
  | None => false
  end
  || match suffix options with
     | Some s => truthy s && negb (endsWith (objectKey record) s)
     | None => false
     end.

(** The calls made for a record that passed the version test. *)
Definition handleRecord (options : ListenerOptions) (record : S3Record) : list Call :=
  if filteredOut options record then []
  else
    let transformedKey :=
      applyTransformersToKey (objectKey record) (s3KeyTransformers options) in
    if String.eqb (bucketName record) (bucket options) then
      if startsWith "ObjectCreated:" (eventName record)
         || startsWith "ObjectRestore:" (eventName record)
      then [CallWriteS3Object (objectKey record) transformedKey]
      else if startsWith "ObjectRemoved:" (eventName record)
      then [CallUnlinkFile transformedKey]
      else []
    else [].

(** The [for] loop over [Records]: the calls made, and whether the loop ran
    to its end or was left by the exception. *)
Fixpoint processRecords (options : ListenerOptions) (records : list S3Record)
    (calls : list Call) : list Call * Result unit :=
  match records with
  | [] => (calls, Ok tt)
  | record :: rest =>
      if unsupportedEventVersion (eventVersion record)
      then (calls, Throw "Unsupported event version")
      else processRecords options rest (calls ++ handleRecord options record)
  end.

(** [createDefaultSnsNotificationListener(options)] applied to a
    notification whose message has the given [Records] (absent: [None]). *)
Definition defaultSnsNotificationListener (options : ListenerOptions)
    (Records : option (list S3Record)) : list Call * Result unit :=
  match Records with
  | Some records => processRecords options records []
  | None => ([], Ok tt)
  end.

(** *** The default request listener *)

Record Body : Type := mkBody {
  Type_ : string;
  Token : string;
  TopicArn : string;
  Message : option string
}.

Inductive Promise (A : Type) : Type :=
| Fulfilled (a : A)
| Rejected (reason : string).
Arguments Fulfilled {A} a.
Arguments Rejected {A} reason.

Inductive SnsCommand : Type :=
| ConfirmSubscriptionCommand (Token TopicArn : string).

(** What the handling of one request leaves behind. *)
Record Handled : Type := mkHandled {
  statusCode : option Z;        (* the value assigned to resp.statusCode, if any *)
  ended : bool;                 (* resp.end() was called *)
  fsCalls : list Call;
  snsCalls : list SnsCommand;
  unhandledRejection : option string
}.

(** [s.indexOf(needle) >= 0]. *)
Fixpoint contains (needle s : string) : bool :=
  startsWith needle s ||
  match s with
  | String _ s' => contains needle s'
  | EmptyString => false
  end.

Section RequestListener.
(** [JSON.parse] of the request body and of the [Message] field, and the
    verdict of the [sns-validator] package. *)
Variable parseBody : string -> Result Body.
Variable parseMessage : string -> Result (option (list S3Record)).
Variable validate : Body -> Result Body.
Variable snsNotificationListener : option (list S3Record) -> list Call * Result unit.
Variable ignoreMessageValidation : bool.

Definition validateMessage (message : Body) : Promise Body :=
  match validate message with
  | Ok msg => Fulfilled msg
  | Throw err => Rejected err
  end.

Definition respond (code : Z) (fs : list Call) (sns : list SnsCommand) : Handled :=
  mkHandled (Some code) true fs sns None.

Definition reject (reason : string) (fs : list Call) : Handled :=
  mkHandled None false fs [] (Some reason).

(** The callback passed to [then]; an exception thrown in it rejects the
    promise returned by [then], which nothing handles. *)
Definition onValidated (body : Body) : Handled :=
  if String.eqb (Type_ body) "SubscriptionConfirmation" then
    respond 200 [] [ConfirmSubscriptionCommand (Token body) (TopicArn body)]
  else if String.eqb (Type_ body) "Notification" then
    match Message body with
    | None => reject "TypeError" []
    | Some m =>
        if contains "Records" m then
          match parseMessage m with
          | Throw err => reject err []
          | Ok records =>
              match snsNotificationListener records with
              | (fs, Ok _) => respond 200 fs []
              | (fs, Throw err) => reject err fs
              end
          end
        else respond 200 [] []
    end
  else respond 200 [] [].

(** The ['end'] handler of the request, given the concatenated chunks. *)
Definition requestListener (chunks : string) : Handled :=
  match parseBody chunks with
  | Throw _ => respond 500 [] []
  | Ok body =>
      match (if ignoreMessageValidation then Fulfilled body
             else validateMessage body) with
      | Fulfilled body' => onValidated body'
      | Rejected reason => reject reason []
      end
  end.

End RequestListener.

Definition createDefaultRequestListener
    (parseBody : string -> Result Body)
    (parseMessage : string -> Result (option (list S3Record)))
    (validate : Body -> Result Body)
    (options : ListenerOptions) (ignoreMessageValidation : bool)
    : string -> Handled :=
  requestListener parseBody parseMessage validate
    (defaultSnsNotificationListener options) ignoreMessageValidation.

End SnsServer.

(** ** src/shutdown.ts

    The module keeps the registered hooks in the array [shutdownHandlers].
    A hook is a function; [===] compares function references, which are
    modelled by numbers. *)

Module Shutdown.

Definition ShutdownHook : Type := nat.

(** [registerShutdownHook(hook)]: [shutdownHandlers.push(hook)]. *)
Definition registerShutdownHook (shutdownHandlers : list ShutdownHook)
    (hook : ShutdownHook) : list ShutdownHook :=
  shutdownHandlers ++ [hook].

(** [array.splice(start, 1)]: a negative [start] counts from the end, a
    [start] beyond the end removes nothing. *)
Definition splice1 (start : Z) (array : list ShutdownHook) : list ShutdownHook :=
  let len := Z.of_nat (length array) in
  let actualStart := if start <? 0 then Z.max (len + start) 0 else Z.min start len in
  delete (Z.to_nat actualStart) array.

(** The first loop of [removeShutdownHook], from index [i] on: the indexes
    of the matches, or of the first match only. *)
Fixpoint matchingIndexes (hook : ShutdownHook) (removeAllMatches : bool)
    (handlers : list ShutdownHook) (i : Z) : list Z :=
  match handlers with
  | [] => []
  | h :: rest =>
      if Nat.eqb hook h then
        i :: (if removeAllMatches
              then matchingIndexes hook removeAllMatches rest (i + 1)
              else [])
      else matchingIndexes hook removeAllMatches rest (i + 1)
  end.

(** The second loop: [shutdownHandlers.splice(indexes[i] - i, 1)]. *)
Fixpoint spliceIndexes (indexes : list Z) (i : Z)
    (shutdownHandlers : list ShutdownHook) : list ShutdownHook :=
  match indexes with
  | [] => shutdownHandlers
  | index :: rest => spliceIndexes rest (i + 1) (splice1 (index - i) shutdownHandlers)
  end.

Definition removeShutdownHook (shutdownHandlers : list ShutdownHook)
    (hook : ShutdownHook) (removeAllMatches : bool) : list ShutdownHook :=
  let indexes := matchingIndexes hook removeAllMatches shutdownHandlers 0 in
  spliceIndexes indexes 0 shutdownHandlers.

End Shutdown.

(** * Properties *)

(** ** The UTF-8 byte comparator *)

Section Comparator.
Import StringUtils JsString.

Lemma N_of_ascii_eq (x y : ascii) : N_of_ascii x = N_of_ascii y -> x = y.
Proof.
  intros H. rewrite <- (ascii_N_embedding x), <- (ascii_N_embedding y).
  now rewrite H.
Qed.

Lemma Buffer_compare_refl (a : string) : Buffer_compare a a = 0.
Proof.
  induction a as [|x a IH]; simpl; [reflexivity|].
  now rewrite N.compare_refl.
Qed.

Lemma Buffer_compare_eq (a b : string) : Buffer_compare a b = 0 -> a = b.
Proof.
  revert b. induction a as [|x a IH]; intros [|y b]; simpl; try discriminate; auto.
  destruct (N.compare_spec (N_of_ascii x) (N_of_ascii y)) as [E|L|G];
    try discriminate.
  intros H. apply N_of_ascii_eq in E. subst y. f_equal. now apply IH.
Qed.

Lemma Buffer_compare_eq_iff (a b : string) : Buffer_compare a b = 0 <-> a = b.
Proof.
  split; [apply Buffer_compare_eq|]. intros ->. apply Buffer_compare_refl.
Qed.

Lemma Buffer_compare_range (a b : string) :
  Buffer_compare a b = -1 \/ Buffer_compare a b = 0 \/ Buffer_compare a b = 1.
Proof.
  revert b. induction a as [|x a IH]; intros [|y b]; simpl; auto.
  destruct (N.compare (N_of_ascii x) (N_of_ascii y)); auto.
Qed.

Lemma Buffer_compare_antisym (a b : string) :
  Buffer_compare b a = - Buffer_compare a b.
Proof.
  revert b. induction a as [|x a IH]; intros [|y b]; simpl; auto.
  rewrite (N.compare_antisym (N_of_ascii x) (N_of_ascii y)).
  destruct (N.compare (N_of_ascii x) (N_of_ascii y)); simpl; auto.
Qed.

Lemma Buffer_compare_trans (a b c : string) :
  Buffer_compare a b <= 0 -> Buffer_compare b c <= 0 -> Buffer_compare a c <= 0.
Proof.
  revert b c. induction a as [|x a IH]; intros [|y b] [|z c]; simpl; try lia.
  destruct (N.compare_spec (N_of_ascii x) (N_of_ascii y)) as [E1|L1|G1];
    destruct (N.compare_spec (N_of_ascii y) (N_of_ascii z)) as [E2|L2|G2];
    try lia; intros H1 H2.
  - rewrite E1, E2, N.compare_refl. eauto.
  - rewrite E1. now apply N.compare_lt_iff in L2 as ->.
  - rewrite <- E2. now apply N.compare_lt_iff in L1 as ->.
  - assert (L : (N_of_ascii x < N_of_ascii z)%N) by lia.
    now apply N.compare_lt_iff in L as ->.
Qed.

(** Between a string and one of its extensions only extensions of that
    string are found: the fact behind the reconciler's directory skip. *)
Lemma startsWith_between (p f e : string) :
  Buffer_compare p f <= 0 -> Buffer_compare f e <= 0 ->
  startsWith p e = true -> startsWith p f = true.
Proof.
  revert f e. induction p as [|x p IH]; intros f e; [reflexivity|].
  destruct f as [|y f]; destruct e as [|z e]; simpl; try lia; try discriminate.
  destruct (Ascii.eqb_spec x z) as [->|]; [|discriminate].
  destruct (N.compare_spec (N_of_ascii z) (N_of_ascii y)) as [E1|L1|G1]; try lia.
  - apply N_of_ascii_eq in E1. subst y. rewrite N.compare_refl, Ascii.eqb_refl.
    apply IH.
  - destruct (N.compare_spec (N_of_ascii y) (N_of_ascii z)) as [E2|L2|G2]; lia.
Qed.

Lemma startsWith_refl (p : string) : startsWith p p = true.
Proof. induction p as [|x p IH]; simpl; [reflexivity|]. now rewrite Ascii.eqb_refl. Qed.

End Comparator.

(** ** Sorting *)

Section SortFacts.
Import JsArray.
Context {A : Type} (cmp : A -> A -> Z).
Hypothesis cmp_total : forall x y, cmp x y <= 0 \/ cmp y x <= 0.
Hypothesis cmp_trans : forall x y z, cmp x y <= 0 -> cmp y z <= 0 -> cmp x z <= 0.

Let ordered (x y : A) : Prop := cmp x y <= 0.

Lemma insertSorted_Forall (P : A -> Prop) (x : A) (l : list A) :
  P x -> Forall P l -> Forall P (insertSorted cmp x l).
Proof.
  intros Hx. induction 1 as [|y l Hy Hl IH]; simpl.
  - constructor; auto.
  - destruct (cmp x y <=? 0); repeat constructor; auto.
Qed.

Lemma insertSorted_sorted (x : A) (l : list A) :
  StronglySorted ordered l ->
  StronglySorted ordered (insertSorted cmp x l).
Proof.
  induction 1 as [|y l Hs IH Hall]; simpl.
  - repeat constructor.
  - destruct (Z.leb_spec (cmp x y) 0) as [Hle|Hgt].
    + constructor; [constructor; assumption|].
      constructor; [exact Hle|].
      eapply Forall_impl; [exact Hall|].
      intros z Hz. eapply cmp_trans; eassumption.
    + constructor; [exact IH|].
      apply insertSorted_Forall; [|exact Hall].
      destruct (cmp_total x y) as [H|H]; [lia|exact H].
Qed.

Lemma arraySort_sorted (l : list A) :
  StronglySorted ordered (arraySort cmp l).
Proof.
  induction l as [|x l IH]; simpl; [constructor|].
  now apply insertSorted_sorted.
Qed.

Lemma StronglySorted_lookup_le (l : list A) (i j : nat) (a b : A) :
  StronglySorted ordered l ->
  l !! i = Some a -> l !! j = Some b -> (i < j)%nat -> cmp a b <= 0.
Proof.
  intros Hs. revert i j. induction Hs as [|x l Hs IH Hall]; intros i j Hi Hj Hlt.
  - discriminate.
  - destruct j as [|j]; [lia|]. simpl in Hj.
    destruct i as [|i]; simpl in Hi.
    + injection Hi as <-. rewrite Forall_forall in Hall.
      apply Hall. eapply list_elem_of_lookup_2. exact Hj.
    + apply (IH i j); auto. lia.
Qed.

End SortFacts.

(** ** The reconciler (src/sync.ts) *)

Section SyncFacts.
Import StringUtils JsString KeyAndPathUtils S3Utils FilesystemOps Sync.

Lemma sortDirEntries_pairwise (retList : list DirEntry) (i j : nat) (a b : DirEntry) :
  sortDirEntries retList !! i = Some a ->
  sortDirEntries retList !! j = Some b -> (i < j)%nat ->
  Buffer_compare (relativePath a) (relativePath b) <= 0.
Proof.
  intros Hi Hj Hlt.
  eapply (StronglySorted_lookup_le
            (fun a b => compareStringsUtf8BinaryOrder (relativePath a) (relativePath b)));
    [|exact Hi|exact Hj|exact Hlt].
  apply arraySort_sorted.
  - intros x y. unfold compareStringsUtf8BinaryOrder.
    rewrite (Buffer_compare_antisym (relativePath x) (relativePath y)). lia.
  - intros x y z. apply Buffer_compare_trans.
Qed.

Variable s3List : list S3ListObj.
Variable dirEntries : list DirEntry.
Variable remove : bool.

(** The cursor variables hold the elements just before the positions. *)
Definition aligned (st : State) : Prop :=
  (1 <= dirEntPos st)%nat /\ dirEntry st = dirEntries !! (dirEntPos st - 1)%nat /\
  (1 <= s3ListPos st)%nat /\ s3ListObj st = s3List !! (s3ListPos st - 1)%nat.

Lemma skipRemovedDir_spec (removedDir : string) (rest : list DirEntry) (pos : nat) :
  exists n : nat,
    skipRemovedDir removedDir rest pos = (rest !! n, S (pos + n)) /\
    (forall i e, (i < n)%nat -> rest !! i = Some e ->
                 startsWith removedDir (relativePath e) = true) /\
    (forall e, rest !! n = Some e -> startsWith removedDir (relativePath e) = false).
Proof.
  revert pos. induction rest as [|curVal rest IH]; intros pos; simpl.
  - exists 0%nat. rewrite Nat.add_0_r. split; [reflexivity|].
    split; [intros; lia|discriminate].
  - destruct (startsWith removedDir (relativePath curVal)) eqn:E.
    + destruct (IH (S pos)) as (n & Hn & Hbefore & Hat).
      exists (S n). simpl. rewrite Hn. split; [f_equal; lia|].
      split; [|exact Hat].
      intros [|i] e Hi He; simpl in He.
      * now injection He as <-.
      * apply (Hbefore i); [lia|exact He].
    + exists 0%nat. rewrite Nat.add_0_r. simpl. split; [reflexivity|].
      split; [intros; lia|]. intros e [= <-]. exact E.
Qed.

Lemma getNextDirEntryAfterRemovedDir_spec (removedDir : string) (st : State) :
  exists n : nat,
    getNextDirEntryAfterRemovedDir dirEntries removedDir st =
      mkState (S (dirEntPos st + n)) (s3ListPos st)
        (dirEntries !! (dirEntPos st + n)%nat) (s3ListObj st) (calls st) /\
    (forall i e, (dirEntPos st <= i < dirEntPos st + n)%nat -> dirEntries !! i = Some e ->
                 startsWith removedDir (relativePath e) = true) /\
    (forall e, dirEntries !! (dirEntPos st + n)%nat = Some e ->
               startsWith removedDir (relativePath e) = false).
Proof.
  unfold getNextDirEntryAfterRemovedDir.
  destruct (skipRemovedDir_spec removedDir (drop (dirEntPos st) dirEntries) (dirEntPos st))
    as (n & Hn & Hbefore & Hat).
  exists n. rewrite Hn, lookup_drop. split; [reflexivity|]. split.
  - intros i e [Hlo Hhi] He. apply (Hbefore (i - dirEntPos st)%nat); [lia|].
    rewrite lookup_drop. now replace (dirEntPos st + (i - dirEntPos st))%nat with i by lia.
  - intros e He. apply Hat. now rewrite lookup_drop.
Qed.

Lemma loopBody_aligned (st : State) :
  aligned st -> aligned (loopBody s3List dirEntries remove st).
Proof.
  intros (Hd1 & Hd2 & Hs1 & Hs2). unfold loopBody.
  assert (Hskip : forall p st0, s3ListPos st0 = s3ListPos st -> s3ListObj st0 = s3ListObj st ->
            aligned (getNextDirEntryAfterRemovedDir dirEntries p st0)).
  { intros p st0 E1 E2.
    destruct (getNextDirEntryAfterRemovedDir_spec p st0) as (n & -> & _).
    unfold aligned; simpl. rewrite E1, E2.
    repeat split; auto; try lia. f_equal. lia. }
  assert (Hnext : forall st0, s3ListPos st0 = s3ListPos st -> s3ListObj st0 = s3ListObj st ->
            aligned (getNextDirEntry dirEntries st0)).
  { intros st0 E1 E2. unfold aligned; simpl. rewrite E1, E2.
    repeat split; auto; try lia. f_equal. lia. }
  assert (Hobj : forall st0, dirEntPos st0 = dirEntPos st -> dirEntry st0 = dirEntry st ->
            aligned (getNextS3ListObj s3List st0)).
  { intros st0 E1 E2. unfold aligned; simpl. rewrite E1, E2.
    repeat split; auto; try lia. f_equal. lia. }
  assert (Hboth : forall st0,
            aligned (getNextS3ListObj s3List (getNextDirEntry dirEntries st0))).
  { intros st0. unfold aligned; simpl. repeat split; try lia; f_equal; lia. }
  destruct (dirEntry st) as [d|] eqn:Ed, (s3ListObj st) as [o|] eqn:Eo;
    repeat match goal with
           | |- context [if ?b then _ else _] => destruct b
           end;
    first [apply Hskip | apply Hnext | apply Hboth | apply Hobj | idtac];
    simpl; auto.
  unfold aligned. rewrite Ed, Eo. auto.
Qed.

Lemma initialState_aligned : aligned (initialState s3List dirEntries).
Proof. unfold aligned, initialState; simpl. repeat split; auto. Qed.

Lemma reachable_aligned (n : nat) :
  aligned (Nat.iter n (loopBody s3List dirEntries remove) (initialState s3List dirEntries)).
Proof.
  induction n as [|n IH]; simpl; [apply initialState_aligned|].
  now apply loopBody_aligned.
Qed.

End SyncFacts.

Section ReconcilerSteps.
Import StringUtils JsString KeyAndPathUtils S3Utils FilesystemOps Sync.

(** C1.  In every reconciliation, when the current local entry's relative
    path equals the current remote object's transformed key, both cursors
    advance; no call is made when the local entry is a directory, and
    otherwise [writeS3Object] is called if and only if the remote object's
    last-modified instant is strictly greater than the local mtime or the
    sizes differ. *)
Theorem equal_paths_step
    (s3List : list S3ListObj) (dirEntries : list DirEntry) (remove : bool)
    (st : State) (l : DirEntry) (r : S3ListObj) :
  dirEntry st = Some l ->
  s3ListObj st = Some r ->
  relativePath l = transformedKey r ->
  let st' := loopBody s3List dirEntries remove st in
  (dirEntry st' = dirEntries !! dirEntPos st /\ dirEntPos st' = S (dirEntPos st)) /\
  (s3ListObj st' = s3List !! s3ListPos st /\ s3ListPos st' = S (s3ListPos st)) /\
  (checkKeyOrPathIsDirectory (relativePath l) = true -> calls st' = calls st) /\
  (checkKeyOrPathIsDirectory (relativePath l) = false ->
     ((LastModified r > mtime (stats l) \/ Size r <> size (stats l)) /\
      calls st' = (calls st ++ [CallWriteS3Object (Key r) (transformedKey r)])%list)
     \/
     (~ (LastModified r > mtime (stats l) \/ Size r <> size (stats l)) /\
      calls st' = calls st)).
Proof.
  intros Hl Hr Heq st'. subst st'. unfold loopBody. rewrite Hl, Hr.
  unfold compareStringsUtf8BinaryOrder. rewrite Heq, Buffer_compare_refl.
  change (0 =? -1) with false. change (0 =? 0) with true. cbv iota.
  rewrite <- Heq.
  match goal with
  | |- context [getNextDirEntry _ ?x] => set (st0 := x)
  end.
  assert (Hpos : dirEntPos st0 = dirEntPos st /\ s3ListPos st0 = s3ListPos st).
  { subst st0. destruct (_ && _); auto. }
  destruct Hpos as [Hp1 Hp2]. simpl. rewrite Hp1, Hp2.
  split; [auto|]. split; [auto|]. subst st0.
  destruct (checkKeyOrPathIsDirectory (relativePath l)); simpl.
  - split; [reflexivity|]. intros H; discriminate H.
  - split; [intros H; discriminate H|]. intros _.
    destruct (Z.ltb_spec (mtime (stats l)) (LastModified r)) as [Hm|Hm]; simpl.
    + left. split; [left; lia|reflexivity].
    + destruct (Z.eqb_spec (Size r) (size (stats l))) as [Hs|Hs]; simpl.
      * right. split; [|reflexivity]. intros [H|H]; [lia|contradiction].
      * left. split; [right; exact Hs|reflexivity].
Qed.

Lemma equal_paths_step_witness :
  let s3List := [mkS3ListObj "1.txt" "1.txt" 10 5; mkS3ListObj "z.txt" "z.txt" 1 1] in
  let dirEntries := [mkDirEntry "1.txt" (mkStats 3 5); mkDirEntry "a.txt" (mkStats 3 5)] in
  let st' := loopBody s3List dirEntries false (initialState s3List dirEntries) in
  dirEntry st' = Some (mkDirEntry "a.txt" (mkStats 3 5)) /\
  s3ListObj st' = Some (mkS3ListObj "z.txt" "z.txt" 1 1) /\
  calls st' = [CallWriteS3Object "1.txt" "1.txt"].
Proof.
  intros s3List dirEntries st'.
  destruct (equal_paths_step s3List dirEntries false (initialState s3List dirEntries)
              (mkDirEntry "1.txt" (mkStats 3 5)) (mkS3ListObj "1.txt" "1.txt" 10 5)
              eq_refl eq_refl eq_refl)
    as ((Hd & _) & (Hs & _) & _ & Hfile).
  split; [exact Hd|]. split; [exact Hs|].
  destruct (Hfile eq_refl) as [[_ Hc]|[Hn _]]; [exact Hc|].
  exfalso. apply Hn. left. reflexivity.
Defined.

(** C2.  In every reconciliation (the local entries are the sorted result of
    the directory walk), when the current local entry's path is strictly
    less than the current remote object's transformed key under the UTF-8
    byte comparator, the remote cursor stays and:
    - with [remove = false] the local cursor advances and no call is made;
    - with [remove = true], for a directory that does not contain the key,
      [rmdirRecursive] is called and the local cursor moves past exactly the
      subsequent entries whose path starts with the directory's path;
    - with [remove = true], for a directory that contains the key, the local
      cursor advances and no call is made;
    - with [remove = true], for anything else, [unlinkFile] is called and the
      local cursor advances. *)
Theorem local_before_remote_step
    (s3List : list S3ListObj) (retList : list DirEntry) (remove : bool)
    (n : nat) (l : DirEntry) (r : S3ListObj) :
  let dirEntries := sortDirEntries retList in
  let st := Nat.iter n (loopBody s3List dirEntries remove)
                     (initialState s3List dirEntries) in
  dirEntry st = Some l ->
  s3ListObj st = Some r ->
  compareStringsUtf8BinaryOrder (relativePath l) (transformedKey r) = -1 ->
  let st' := loopBody s3List dirEntries remove st in
  let p := relativePath l in
  let advanced :=
    dirEntry st' = dirEntries !! dirEntPos st /\ dirEntPos st' = S (dirEntPos st) in
  (s3ListObj st' = s3ListObj st /\ s3ListPos st' = s3ListPos st) /\
  (remove = false -> calls st' = calls st /\ advanced) /\
  (remove = true -> checkKeyOrPathIsDirectory p = true ->
   keyBelongsInCurrentDirectory p (transformedKey r) = false ->
     calls st' = (calls st ++ [CallRmdirRecursive p])%list /\
     (dirEntPos st < dirEntPos st')%nat /\
     dirEntry st' = dirEntries !! (dirEntPos st' - 1)%nat /\
     forall i e, dirEntries !! i = Some e -> (dirEntPos st <= i)%nat ->
       (startsWith p (relativePath e) = true <-> (i < dirEntPos st' - 1)%nat)) /\
  (remove = true -> checkKeyOrPathIsDirectory p = true ->
   keyBelongsInCurrentDirectory p (transformedKey r) = true ->
     calls st' = calls st /\ advanced) /\
  (remove = true -> checkKeyOrPathIsDirectory p = false ->
     calls st' = (calls st ++ [CallUnlinkFile p])%list /\ advanced).
Proof.
  intros dirEntries st Hl Hr Hcmp st' p advanced.
  pose proof (reachable_aligned s3List dirEntries remove n) as Hal.
  fold st in Hal. destruct Hal as (Hpos & Hcur & _).
  rewrite Hl in Hcur. symmetry in Hcur.
  subst st' advanced. unfold loopBody. rewrite Hl, Hr, Hcmp.
  change (-1 =? -1) with true. cbv iota. fold p.
  destruct remove.
  - destruct (checkKeyOrPathIsDirectory p) eqn:Edir.
    + destruct (keyBelongsInCurrentDirectory p (transformedKey r)) eqn:Ein; simpl.
      * split; [auto|]. split; [intros E; discriminate E|].
        split; [intros _ _ E; discriminate E|]. split; [auto|].
        intros _ E; discriminate E.
      * destruct (getNextDirEntryAfterRemovedDir_spec dirEntries p
                    (call (CallRmdirRecursive p) st)) as (k & Hk & Hbefore & Hat).
        rewrite Hk. simpl in Hbefore, Hat. simpl.
        split; [auto|]. split; [intros E; discriminate E|].
        split; [|split; [intros _ _ E; discriminate E|intros _ E; discriminate E]].
        intros _ _ _. split; [reflexivity|]. split; [lia|].
        split; [f_equal; lia|].
        intros i e He Hi. split.
        { intros Hpre. destruct (Nat.lt_ge_cases i (dirEntPos st + k)%nat) as [|Hge]; [lia|].
          exfalso.
          destruct (dirEntries !! (dirEntPos st + k)%nat) as [f|] eqn:Ef.
          - specialize (Hat f eq_refl).
            assert (Hpf : Buffer_compare p (relativePath f) <= 0).
            { apply (sortDirEntries_pairwise retList (dirEntPos st - 1)%nat
                       (dirEntPos st + k)%nat l f); auto. lia. }
            destruct (Nat.eq_dec i (dirEntPos st + k)%nat) as [->|Hne].
            + rewrite Ef in He. injection He as <-. congruence.
            + assert (Hfe : Buffer_compare (relativePath f) (relativePath e) <= 0).
              { apply (sortDirEntries_pairwise retList (dirEntPos st + k)%nat i f e); auto. lia. }
              rewrite (startsWith_between p (relativePath f) (relativePath e)) in Hat;
                auto; discriminate.
          - apply lookup_ge_None in Ef. apply lookup_lt_Some in He. lia. }
        { intros Hlt. apply (Hbefore i e); auto. lia. }
    + simpl. split; [auto|]. split; [intros E; discriminate E|].
      split; [intros _ E; discriminate E|]. split; [intros _ E; discriminate E|].
      auto.
  - simpl. split; [auto|]. split; [auto|].
    split; [intros E; discriminate E|]. split; intros E; discriminate E.
Qed.

Lemma local_before_remote_step_witness :
  let s3List := [mkS3ListObj "z.txt" "z.txt" 1 1] in
  let retList := [mkDirEntry "z.txt" (mkStats 1 1);
                  mkDirEntry "dir2/x.txt" (mkStats 1 1);
                  mkDirEntry "dir2/" (mkStats 1 0)] in
  let st' := loopBody s3List (sortDirEntries retList) true
               (initialState s3List (sortDirEntries retList)) in
  calls st' = [CallRmdirRecursive "dir2/"] /\
  dirEntry st' = Some (mkDirEntry "z.txt" (mkStats 1 1)) /\
  s3ListObj st' = Some (mkS3ListObj "z.txt" "z.txt" 1 1).
Proof.
  intros s3List retList st'.
  destruct (local_before_remote_step s3List retList true 0
              (mkDirEntry "dir2/" (mkStats 1 0)) (mkS3ListObj "z.txt" "z.txt" 1 1)
              eq_refl eq_refl eq_refl)
    as ((Hs & _) & _ & Hrm & _).
  destruct (Hrm eq_refl eq_refl eq_refl) as (Hc & _ & _ & _).
  split; [exact Hc|]. split; [reflexivity|exact Hs].
Defined.

End ReconcilerSteps.

(** ** The root-prefix transformer (src/utils/transformers.ts) *)

Section RootPrefix.
Import JsString Transformers.

(** What [removeRootDirCharsFromS3Key] takes off the front of a key: any
    sequence of separators and of drive prefixes with an upper-case letter. *)
Inductive strips : string -> string -> Prop :=
| strips_done (s : string) : strips s s
| strips_separator (c : ascii) (s r : string) :
    c = "/"%char \/ c = "\"%char -> strips s r -> strips (String c s) r
| strips_drive (d c : ascii) (s r : string) :
    (N_of_ascii "A" <= N_of_ascii d <= N_of_ascii "Z")%N ->
    c = "/"%char \/ c = "\"%char ->
    strips s r -> strips (String d (String ":" (String c s))) r.

(** The prefixes the loop looks for at the front of a string. *)
Definition startsWithRootChars (s : string) : bool :=
  atSeparator s 0 || atWindowsDrive s 0.

(** The specification's wording of the same test: a leading separator, or a
    drive prefix [[A-Za-z]:[/\]]. *)
Definition specRootPrefix (s : string) : bool :=
  match s with
  | String c rest =>
      Ascii.eqb c "/" || Ascii.eqb c "\" ||
      (FilesystemOps.isLetter c &&
       match rest with
       | String ":" (String d _) => Ascii.eqb d "/" || Ascii.eqb d "\"
       | _ => false
       end)
  | EmptyString => false
  end.

Lemma charAt_substr (key : string) (pos i : nat) :
  charAt (substr key pos) i = charAt key (pos + i).
Proof.
  revert key. induction pos as [|pos IH]; intros key; simpl; [reflexivity|].
  destruct key as [|c key]; simpl; [now destruct i|]. apply IH.
Qed.

Lemma length_substr (key : string) (pos : nat) :
  String.length (substr key pos) = (String.length key - pos)%nat.
Proof.
  revert key. induction pos as [|pos IH]; intros key; simpl; [lia|].
  destruct key as [|c key]; simpl; [reflexivity|]. apply IH.
Qed.

Lemma substr_charAt (key : string) (pos : nat) (c : ascii) :
  charAt key pos = Some c ->
  substr key pos = String c (substr key (S pos)) /\ (pos < String.length key)%nat.
Proof.
  revert key. induction pos as [|pos IH]; intros [|d key]; simpl; try discriminate.
  - intros [= ->]. split; [now destruct key|lia].
  - intros H. destruct (IH key H) as [E L]. split; [exact E|lia].
Qed.

Lemma isChar_Some (o : option ascii) (c : ascii) :
  isChar o c = true -> o = Some c.
Proof.
  destruct o as [d|]; simpl; [|discriminate].
  now destruct (Ascii.eqb_spec d c) as [->|].
Qed.

Lemma atSeparator_inv (key : string) (pos : nat) :
  atSeparator key pos = true ->
  exists c, charAt key pos = Some c /\ (c = "/"%char \/ c = "\"%char).
Proof.
  unfold atSeparator. intros H. apply orb_true_iff in H as [H|H];
    apply isChar_Some in H; eauto.
Qed.

Lemma atWindowsDrive_inv (key : string) (pos : nat) :
  atWindowsDrive key pos = true ->
  exists d c, charAt key pos = Some d /\ charAt key (pos + 1) = Some ":"%char /\
              charAt key (pos + 2) = Some c /\
              (N_of_ascii "A" <= N_of_ascii d <= N_of_ascii "Z")%N /\
              (c = "/"%char \/ c = "\"%char).
Proof.
  unfold atWindowsDrive. intros H.
  apply andb_true_iff in H as [H Hc]. apply andb_true_iff in H as [H Hcolon].
  apply andb_true_iff in H as [_ Hd].
  apply isChar_Some in Hcolon.
  destruct (charAt key pos) as [d|]; simpl in Hd; [|discriminate].
  apply andb_true_iff in Hd as [Hd1 Hd2].
  apply N.leb_le in Hd1, Hd2.
  apply orb_true_iff in Hc as [Hc|Hc]; apply isChar_Some in Hc;
    exists d; eexists; repeat split; eauto.
Qed.

Lemma skipRootChars_spec (fuel : nat) (key : string) (pos : nat) :
  let n := skipRootChars fuel key pos in
  strips (substr key pos) (substr key n) /\
  ((String.length key - pos < fuel)%nat ->
   atSeparator key n = false /\ atWindowsDrive key n = false).
Proof.
  revert pos. induction fuel as [|fuel IH]; intros pos; simpl.
  - split; [constructor|lia].
  - destruct (atSeparator key pos) eqn:Esep.
    + destruct (atSeparator_inv _ _ Esep) as (c & Hc & Hsep).
      destruct (substr_charAt _ _ _ Hc) as [E L].
      destruct (IH (pos + 1)%nat) as [Hs Ht].
      replace (pos + 1)%nat with (S pos) in * by lia.
      split; [rewrite E; now apply strips_separator|].
      intros Hf. apply Ht. lia.
    + destruct (atWindowsDrive key pos) eqn:Edrive.
      * destruct (atWindowsDrive_inv _ _ Edrive) as (d & c & Hd & Hcolon & Hc & Hrange & Hsep).
        destruct (substr_charAt _ _ _ Hd) as [E1 L1].
        replace (pos + 1)%nat with (S pos) in * by lia.
        replace (pos + 2)%nat with (S (S pos)) in * by lia.
        destruct (substr_charAt _ _ _ Hcolon) as [E2 L2].
        destruct (substr_charAt _ _ _ Hc) as [E3 L3].
        destruct (IH (S pos + 2)%nat) as [Hs Ht].
        replace (S pos + 2)%nat with (S (S (S pos))) in * by lia.
        split; [rewrite E1, E2, E3; now apply strips_drive|].
        intros Hf. apply Ht. lia.
      * split; [constructor|auto].
Qed.

(** C8 (as amended).  [removeRootDirCharsFromS3Key] takes leading separators
    (['/'] or ['\']) and drive prefixes with an upper-case letter
    ([[A-Z]:[/\]]) off the front of the key, repeatedly, and its result
    starts with neither. *)
Theorem removeRootDirCharsFromS3Key_strips (key : string) :
  strips key (removeRootDirCharsFromS3Key key) /\
  startsWithRootChars (removeRootDirCharsFromS3Key key) = false.
Proof.
  unfold removeRootDirCharsFromS3Key, startsWithRootChars.
  destruct (skipRootChars_spec (S (String.length key)) key 0) as [Hs Ht].
  simpl in Hs. split; [exact Hs|].
  destruct Ht as [Hsep Hdrive]; [lia|].
  set (n := skipRootChars (S (String.length key)) key 0) in *.
  unfold atSeparator, atWindowsDrive in *.
  rewrite !charAt_substr, length_substr.
  rewrite Nat.sub_0_r, Nat.add_0_r. simpl Nat.add.
  rewrite Hsep. exact Hdrive.
Qed.

(** C8 fails as stated: a lower-case drive prefix is left in place. *)
Lemma lowercase_drive_prefix_is_kept :
  removeRootDirCharsFromS3Key "c:/x" = "c:/x" /\
  specRootPrefix (removeRootDirCharsFromS3Key "c:/x") = true.
Proof. split; reflexivity. Qed.

End RootPrefix.

(** ** The remote listing (src/utils/s3Utils.ts) *)

Section RemoteListing.
Import StringUtils JsArray Transformers S3ObjectOps S3Utils.

(** The transformers installed by default on a POSIX host
    ([getDefaultS3KeyTransformers] without a normalization form). *)
Definition defaultS3KeyTransformers : option (list StringTransformer) :=
  Some [removeRootDirCharsFromS3Key; replaceKeyDirCharsWithSystemSep].

(** Strictly increasing under the UTF-8 byte comparator. *)
Fixpoint strictlyIncreasing (keys : list string) : bool :=
  match keys with
  | a :: (b :: _) as rest =>
      (compareStringsUtf8BinaryOrder a b =? -1) && strictlyIncreasing rest
  | _ => true
  end.

(** What [getS3List] does establish: its result is sorted by the original
    keys. *)
Lemma getS3List_sorted_by_Key (options : S3ListOptions)
    (responses : list ListObjectsV2Output) :
  StronglySorted (fun a b => compareStringsUtf8BinaryOrder (Key a) (Key b) <= 0)
    (getS3List options responses).
Proof.
  unfold getS3List. apply arraySort_sorted.
  - intros x y. unfold compareStringsUtf8BinaryOrder.
    rewrite (Buffer_compare_antisym (Key x) (Key y)). lia.
  - intros x y z. apply Buffer_compare_trans.
Qed.

(** C3 does not hold of the code.  A listing with the keys ["/b"] and ["a"]
    under the default transformers comes back in the order of the original
    keys, which is decreasing in the transformed keys ["b"], ["a"]. *)
Theorem getS3List_orders_by_original_key :
  let options := mkS3ListOptions None defaultS3KeyTransformers in
  let page := mkOutput (Some [mkS3Object (Some "/b") 0 1; mkS3Object (Some "a") 0 1]) None in
  getS3List options [page] =
    [mkS3ListObj "/b" "b" 0 1; mkS3ListObj "a" "a" 0 1] /\
  strictlyIncreasing (map transformedKey (getS3List options [page])) = false.
Proof. split; reflexivity. Qed.

End RemoteListing.

(** ** The notification listener (src/snsServer.ts) *)

Section NotificationListener.
Import JsString FilesystemOps SnsServer.

Lemma processRecords_supported (options : ListenerOptions)
    (records : list S3Record) (calls : list Call) :
  Forall (fun r => unsupportedEventVersion (eventVersion r) = false) records ->
  processRecords options records calls =
    ((calls ++ concat (map (handleRecord options) records))%list, Ok tt).
Proof.
  intros H. revert calls. induction H as [|r rs Hr _ IH]; intros calls; simpl.
  - now rewrite app_nil_r.
  - rewrite Hr, IH. now rewrite <- app_assoc.
Qed.

Lemma processRecords_unsupported (options : ListenerOptions)
    (before after : list S3Record) (bad : S3Record) (calls : list Call) :
  Forall (fun r => unsupportedEventVersion (eventVersion r) = false) before ->
  unsupportedEventVersion (eventVersion bad) = true ->
  processRecords options (before ++ bad :: after)%list calls =
    ((calls ++ concat (map (handleRecord options) before))%list,
     Throw "Unsupported event version").
Proof.
  intros H Hbad. revert calls. induction H as [|r rs Hr _ IH]; intros calls; simpl.
  - now rewrite Hbad, app_nil_r.
  - rewrite Hr, IH. now rewrite <- app_assoc.
Qed.

(** C7 (as amended).  A record whose event version is unsupported makes the
    default notification listener throw at that record: the records before
    it in the message have been processed, those after it are not. *)
Theorem unsupported_event_version_throws (options : ListenerOptions)
    (before after : list S3Record) (bad : S3Record) :
  Forall (fun r => unsupportedEventVersion (eventVersion r) = false) before ->
  unsupportedEventVersion (eventVersion bad) = true ->
  defaultSnsNotificationListener options (Some (before ++ bad :: after)%list) =
    (concat (map (handleRecord options) before), Throw "Unsupported event version").
Proof.
  intros Hbefore Hbad. unfold defaultSnsNotificationListener.
  now rewrite processRecords_unsupported.
Qed.

Definition sampleOptions : ListenerOptions :=
  mkListenerOptions "bucket" None None defaultS3KeyTransformers.

Definition sampleRecord (version name objKey : string) : S3Record :=
  mkRecord version name "bucket" objKey.

Lemma unsupported_event_version_throws_witness :
  defaultSnsNotificationListener sampleOptions
    (Some [sampleRecord "2.2" "ObjectCreated:Put" "1.txt";
           sampleRecord "2.0" "ObjectCreated:Put" "5.txt";
           sampleRecord "2.2" "ObjectRemoved:Delete" "z.txt"]) =
    ([CallWriteS3Object "1.txt" "1.txt"], Throw "Unsupported event version").
Proof.
  apply (unsupported_event_version_throws sampleOptions
           [sampleRecord "2.2" "ObjectCreated:Put" "1.txt"]
           [sampleRecord "2.2" "ObjectRemoved:Delete" "z.txt"]
           (sampleRecord "2.0" "ObjectCreated:Put" "5.txt")).
  - repeat constructor.
  - reflexivity.
Defined.

(** C7 fails as stated: after a record with event version 2.0 the listener
    has thrown, and the supported record that follows it, which on its own
    yields a call of [unlinkFile], is not processed. *)
Lemma unsupported_record_aborts_message :
  (defaultSnsNotificationListener sampleOptions
     (Some [sampleRecord "2.0" "ObjectCreated:Put" "5.txt";
            sampleRecord "2.2" "ObjectRemoved:Delete" "z.txt"]) =
     (@nil Call, Throw "Unsupported event version")) /\
  (defaultSnsNotificationListener sampleOptions
     (Some [sampleRecord "2.2" "ObjectRemoved:Delete" "z.txt"]) =
     ([CallUnlinkFile "z.txt"], Ok tt)).
Proof. split; reflexivity. Qed.

End NotificationListener.

(** ** The request listener (src/snsServer.ts) *)

Section RequestListenerFacts.
Import FilesystemOps SnsServer.

Variable parseBody : string -> Result Body.
Variable parseMessage : string -> Result (option (list S3Record)).
Variable validate : Body -> Result Body.
Variable options : ListenerOptions.

(** A body that does not parse is answered with status 500, and nothing is
    processed. *)
Lemma unparsable_body_gets_500 (ignoreMessageValidation : bool)
    (chunks msg : string) :
  parseBody chunks = Throw msg ->
  createDefaultRequestListener parseBody parseMessage validate options
    ignoreMessageValidation chunks = mkHandled (Some 500) true [] [] None.
Proof.
  intros H. unfold createDefaultRequestListener, requestListener. now rewrite H.
Qed.

(** A request that the listener answers is answered with 500 only when its
    body does not parse. *)
Lemma status_500_only_for_unparsable_body (ignoreMessageValidation : bool)
    (chunks : string) :
  statusCode (createDefaultRequestListener parseBody parseMessage validate options
                ignoreMessageValidation chunks) = Some 500 ->
  exists msg, parseBody chunks = Throw msg.
Proof.
  unfold createDefaultRequestListener, requestListener, validateMessage, onValidated.
  destruct (parseBody chunks) as [body|msg]; [|eauto].
  intros H. exfalso.
  destruct ignoreMessageValidation;
    repeat match type of H with
           | context [match ?x with _ => _ end] => destruct x; simpl in H
           end; discriminate H.
Qed.

(** C6 does not hold of the code.  With validation enabled, a body that
    parses but whose signature validation fails rejects the promise on which
    the response is chained: no record is processed, but no status is set
    and the response is never ended; the rejection is left unhandled. *)
Theorem invalid_signature_gets_no_response (chunks reason : string) (body : Body) :
  parseBody chunks = Ok body ->
  validate body = Throw reason ->
  createDefaultRequestListener parseBody parseMessage validate options false chunks =
    mkHandled None false [] [] (Some reason).
Proof.
  intros Hp Hv.
  unfold createDefaultRequestListener, requestListener, validateMessage.
  now rewrite Hp, Hv.
Qed.

End RequestListenerFacts.

Lemma invalid_signature_gets_no_response_witness :
  let body := SnsServer.mkBody "Notification" "" "arn:aws:sns:topic" (Some "{Records: []}") in
  let handled :=
    SnsServer.createDefaultRequestListener
      (fun _ => Ok body) (fun _ => Ok (Some [])) (fun _ => Throw "invalid signature")
      sampleOptions false "{...}" in
  SnsServer.ended handled = false /\ SnsServer.statusCode handled = None /\
  SnsServer.unhandledRejection handled = Some "invalid signature".
Proof.
  intros body handled. subst handled.
  rewrite (invalid_signature_gets_no_response
             (fun _ => Ok body) (fun _ => Ok (Some [])) (fun _ => Throw "invalid signature")
             sampleOptions "{...}" "invalid signature" body eq_refl eq_refl).
  repeat split.
Defined.

(** ** Recursive directory removal (src/filesystemOps.ts) *)

Section RmdirRecursiveFacts.
Import JsString AsyncOpQueue FilesystemOps.

(** [ensurePathEndsWithOsSeparator] appends a separator to every string, also
    to one that already ends with it. *)
Lemma ensurePathEndsWithOsSeparator_appends (str : string) :
  Utils.ensurePathEndsWithOsSeparator str = str ++ "/".
Proof.
  unfold Utils.ensurePathEndsWithOsSeparator.
  assert (H : charAt str (String.length str) = None).
  { induction str as [|c str IH]; simpl; auto. }
  now rewrite H.
Qed.

(** The guard of [rmdirRecursive] holds exactly when the two strings are
    equal. *)
Lemma rmdirRecursive_root_string (o : CommonFsOptions) :
  rmdirRecursive o (rootDir o) = Ok (fsQueue o).
Proof. unfold rmdirRecursive. rewrite String.eqb_refl. reflexivity. Qed.

Lemma append_separator_inj (s t : string) : s ++ "/" = t ++ "/" -> s = t.
Proof.
  revert t. induction s as [|c s IH]; intros [|d t] E; simpl in E; try reflexivity.
  - injection E as _ E. destruct t; discriminate.
  - injection E as _ E. destruct s; discriminate.
  - injection E as -> E. f_equal. now apply IH.
Qed.

(** A path resolving to a file-system root throws; no queue is returned. *)
Lemma rmdirRecursive_fs_root_throws (o : CommonFsOptions) (relativeDirPath : string) :
  relativeDirPath <> rootDir o ->
  Path.resolve (cwd o) [rootDir o; relativeDirPath] = "/" ->
  exists msg, rmdirRecursive o relativeDirPath = Throw msg.
Proof.
  intros Hne Hroot. unfold rmdirRecursive.
  rewrite !ensurePathEndsWithOsSeparator_appends.
  destruct (String.eqb_spec (relativeDirPath ++ "/") (rootDir o ++ "/")) as [E|_].
  - exfalso. apply Hne. now apply append_separator_inj.
  - simpl. rewrite Hroot. simpl. eauto.
Qed.

Definition sampleQueue : Queue :=
  constructor (mkOptions None (Some 60000) None None).

(** C9 does not hold of the code.  The guard compares the relative path with
    the root directory as strings, after appending a separator to both, so
    the mirror root written with a trailing separator (or as ["."]) passes
    it; the path resolves to the mirror root, which is not a file-system
    root, and the removal of the mirror root is submitted. *)
Theorem rmdirRecursive_submits_mirror_root :
  let o := mkFsOptions sampleQueue "/mir" "/" (ReturnsPromise Resolves) in
  Path.resolve "/" ["/mir"] = "/mir" /\
  Path.resolve "/" ["/mir"; "/mir/"] = "/mir" /\
  Path.resolve "/" ["/mir"; "."] = "/mir" /\
  (exists q, rmdirRecursive o "/mir/" = Ok q /\
             map (fun i => (key i, effect (task i))) (queue q)
             = [("/mir", RmdirRecursive "/mir")]) /\
  (exists q, rmdirRecursive o "." = Ok q /\
             map (fun i => (key i, effect (task i))) (queue q)
             = [("/mir", RmdirRecursive "/mir")]).
Proof.
  intros o. repeat split; try reflexivity; eexists; split; reflexivity.
Qed.

End RmdirRecursiveFacts.

(** ** The operation queue (src/AsyncOpQueue.ts) *)

(** Number of entries of the running-task table. *)
Definition runningEntries (q : AsyncOpQueue.Queue) : nat :=
  base.size (AsyncOpQueue.runningTasks q).

Section QueueFacts.
Import AsyncOpQueue.

(** The table and the counter move together; [d] is the lead of the table
    over the counter (1 between the insertion of a fresh entry and the
    increment of [runCount] in the dispatch loop, 0 otherwise). *)
Definition countedWith (d : Z) (q : Queue) : Prop :=
  Z.of_nat (runningEntries q) = runCount q + d.

Lemma removeRunningTask_fields (q : Queue) (k : string) (i : nat) :
  let q' := removeRunningTask q k i in
  maxConcurrency q' = maxConcurrency q /\ runArmed q' = runArmed q /\
  catchErrors q' = catchErrors q /\ shutdownImmediately q' = shutdownImmediately q /\
  shutdown q' = shutdown q /\ size q' = size q /\ runId q' = runId q /\
  started q' = started q /\ queue q' = queue q /\
  reaperIntervalMillis q' = reaperIntervalMillis q /\
  defaultTaskRunTimeoutMillis q' = defaultTaskRunTimeoutMillis q /\
  reapArmed q' = reapArmed q /\ stopTimerArmed q' = stopTimerArmed q.
Proof.
  unfold removeRunningTask.
  destruct (runningTasks q !! k) as [rt|]; [destruct (Nat.eqb (id rt) i)|];
    simpl; repeat split.
Qed.

Lemma removeRunningTask_counted (d : Z) (q : Queue) (k : string) (i : nat) :
  countedWith d q ->
  countedWith d (removeRunningTask q k i) /\
  (runningEntries (removeRunningTask q k i) <= runningEntries q)%nat.
Proof.
  unfold countedWith, runningEntries, removeRunningTask. intros H.
  destruct (runningTasks q !! k) as [rt|] eqn:E; [|split; [exact H|lia]].
  destruct (Nat.eqb (id rt) i); [|split; [exact H|lia]].
  simpl. rewrite map_size_delete, E.
  assert (Hpos : base.size (runningTasks q) <> 0%nat).
  { apply map_size_ne_0_lookup_2 with k. now exists rt. }
  simpl. split; lia.
Qed.

(** The invariant behind the concurrency cap: while the dispatch loop is
    armed the counter [runCount] is the number of entries of the table, and
    the table never holds more than [maxConcurrency] entries. *)
Definition capInvariant (q : Queue) : Prop :=
  (runArmed q = true -> countedWith 0 q) /\
  Z.of_nat (runningEntries q) <= Z.max 0 (maxConcurrency q).

Lemma removeRunningTask_capInvariant (q : Queue) (k : string) (i : nat) :
  capInvariant q -> capInvariant (removeRunningTask q k i).
Proof.
  intros [Hc Hb].
  destruct (removeRunningTask_fields q k i) as (Hm & Ha & _).
  split.
  - rewrite Ha. intros H. now apply removeRunningTask_counted, Hc.
  - rewrite Hm.
    assert (runningEntries (removeRunningTask q k i) <= runningEntries q)%nat; [|lia].
    unfold runningEntries, removeRunningTask.
    destruct (runningTasks q !! k) as [rt|] eqn:E; [|lia].
    destruct (Nat.eqb (id rt) i); [|lia].
    simpl. rewrite map_size_delete, E. simpl. lia.
Qed.

Lemma reapSweep_capInvariant (now : Z) (q : Queue) :
  capInvariant q -> capInvariant (reapSweep now q).
Proof.
  unfold reapSweep. generalize (map_to_list (runningTasks q)). intros l.
  revert q. induction l as [|[k rt] l IH]; intros q H; simpl; [exact H|].
  apply IH. destruct (expiration rt) as [e|]; [|exact H].
  destruct (e - now <=? 0); [|exact H].
  now apply removeRunningTask_capInvariant.
Qed.

Lemma finishRun_capInvariant (q : Queue) (l : list QueueItem) :
  countedWith 0 q ->
  Z.of_nat (runningEntries q) <= Z.max 0 (maxConcurrency q) ->
  capInvariant (finishRun q l).
Proof.
  intros Hc Hb. unfold finishRun.
  repeat match goal with
         | |- context [if ?b then _ else _] => destruct b
         end; split; auto.
Qed.

Lemma runLoop_capInvariant (clock : nat -> Z) (items : list QueueItem) :
  forall (reads : nat) (q : Queue) (unrun ranSince : list QueueItem),
    runArmed q = false ->
    countedWith 0 q ->
    Z.of_nat (runningEntries q) <= Z.max 0 (maxConcurrency q) ->
    capInvariant (runLoop clock reads q unrun ranSince items).
Proof.
  induction items as [|taskToRun rest IH]; intros reads q unrun ranSince Ha Hc Hb.
  - now apply finishRun_capInvariant.
  - cbn [runLoop].
    destruct (Z.ltb_spec (runCount q) (maxConcurrency q)) as [Hlt|Hge];
      [|now apply finishRun_capInvariant].
    destruct (shutdownImmediately q); [now apply finishRun_capInvariant|].
    cbn [andb negb].
    destruct (mayRun clock reads (runningTasks q !! key taskToRun))
      as [runnable reads1] eqn:Emay.
    destruct runnable; [|now apply IH].
    destruct (newExpiration clock reads1 (runTimeout taskToRun)) as [exp reads2].
    set (k := key taskToRun). set (i := runId q).
    set (d := match runningTasks q !! k with None => 1 | Some _ => 0 end).
    set (q1 := set_started (set_runningTasks (set_runId q (S i))
                  (<[k := mkRunningTask exp i]> (runningTasks q)))
                 (started q ++ [mkStarted i taskToRun])).
    assert (Hc1 : countedWith d q1).
    { unfold countedWith, runningEntries in *. subst q1 d. simpl.
      rewrite map_size_insert. destruct (runningTasks q !! k); simpl; lia. }
    assert (Hb1 : Z.of_nat (runningEntries q1) <= maxConcurrency q).
    { unfold countedWith, runningEntries in *. subst q1 d. simpl.
      rewrite map_size_insert. destruct (runningTasks q !! k); simpl; lia. }
    assert (Hf1 : maxConcurrency q1 = maxConcurrency q /\ runArmed q1 = false).
    { subst q1. simpl. auto. }
    set (q2 := if completesSync (task taskToRun) then removeRunningTask q1 k i else q1).
    assert (H2 : countedWith d q2 /\ Z.of_nat (runningEntries q2) <= maxConcurrency q /\
                 maxConcurrency q2 = maxConcurrency q /\ runArmed q2 = false).
    { subst q2. destruct (completesSync (task taskToRun)); [|tauto].
      destruct (removeRunningTask_counted d q1 k i Hc1) as [Hx Hy].
      destruct (removeRunningTask_fields q1 k i) as (Hm & Hr & _).
      rewrite Hm, Hr. repeat split; try tauto. lia. }
    destruct H2 as (Hc2 & Hb2 & Hm2 & Ha2).
    assert (Hafter : forall q3,
              countedWith d q3 -> Z.of_nat (runningEntries q3) <= maxConcurrency q ->
              maxConcurrency q3 = maxConcurrency q -> runArmed q3 = false ->
              capInvariant
                (runLoop clock reads2
                   (match runningTasks q !! k with
                    | None => set_runCount (set_size q3 (size q3 - 1))
                                (runCount (set_size q3 (size q3 - 1)) + 1)
                    | Some _ => set_size q3 (size q3 - 1)
                    end) unrun (ranSince ++ [taskToRun]) rest)).
    { intros q3 Hc3 Hb3 Hm3 Ha3. apply IH.
      - destruct (runningTasks q !! k); simpl; exact Ha3.
      - unfold countedWith, runningEntries in *. subst d.
        destruct (runningTasks q !! k); simpl; lia.
      - unfold runningEntries in *.
        destruct (runningTasks q !! k); simpl; rewrite Hm3; lia. }
    destruct (throwsSync (task taskToRun)).
    + destruct (catchErrors q).
      * destruct (removeRunningTask_counted d q2 k i Hc2) as [Hx Hy].
        destruct (removeRunningTask_fields q2 k i) as (Hm & Hr & _).
        apply Hafter; try congruence. lia.
      * split; simpl; [congruence|]. unfold runningEntries in *. simpl.
        rewrite Hm2. lia.
    + now apply Hafter.
Qed.

Lemma step_capInvariant (q : Queue) (e : Event) :
  capInvariant q -> capInvariant (step q e).
Proof.
  intros H. destruct e as [k t rt|k pt rt|clock|now|i|imm t|]; simpl.
  - unfold submit. destruct (shutdown q); exact H.
  - unfold submitPromiseTask, submit. destruct (shutdown q); exact H.
  - unfold runCallback. destruct (runArmed q) eqn:Ea; [|exact H].
    destruct H as [Hc Hb].
    apply runLoop_capInvariant; [reflexivity|exact (Hc Ea)|exact Hb].
  - unfold reapCallback. destruct (reapArmed q); [|exact H].
    apply (reapSweep_capInvariant now) in H. exact H.
  - unfold continuation. destruct (started q !! i) as [s|]; [|exact H].
    destruct (completesLater (task (st_item s))); [|exact H].
    now apply removeRunningTask_capInvariant.
  - unfold stop. destruct (shutdown q); exact H.
  - unfold stopTimerCallback. destruct (stopTimerArmed q); exact H.
Qed.

Lemma constructor_capInvariant (options : AsyncOpQueueOptions) :
  capInvariant (constructor options).
Proof.
  split; [reflexivity|]. unfold runningEntries. simpl.
  rewrite map_size_empty. lia.
Qed.

Lemma steps_capInvariant (q : Queue) (es : list Event) :
  capInvariant q -> capInvariant (steps q es).
Proof.
  revert q. induction es as [|e es IH]; intros q H; simpl; [exact H|].
  apply IH. now apply step_capInvariant.
Qed.

End QueueFacts.

Section QueueCap.
Import AsyncOpQueue.

(** C5.  After any sequence of transitions (submissions, dispatch passes,
    completions, reaper sweeps, stops) of a queue whose cap is not negative,
    the running-task table holds at most [maxConcurrency] entries, one per
    partition key in the running state. *)
Theorem running_tasks_bounded (options : AsyncOpQueueOptions) (es : list Event) :
  let q := steps (constructor options) es in
  0 <= maxConcurrency q ->
  Z.of_nat (runningEntries q) <= maxConcurrency q.
Proof.
  intros q Hmax.
  destruct (steps_capInvariant (constructor options) es
              (constructor_capInvariant options)) as [_ Hb].
  fold q in Hb. lia.
Qed.

Definition userTask (n : nat) : Task := mkTask (UserTask n) false false true.

Lemma running_tasks_bounded_witness :
  let q := steps (constructor (mkOptions (Some 2) (Some 100) None None))
             [ESubmit "key1" (userTask 1) None; ESubmit "key1" (userTask 2) None;
              ESubmit "key2" (userTask 3) None; ESubmit "key3" (userTask 4) None;
              ERun (fun _ => 0)] in
  maxConcurrency q = 2 /\ runningEntries q = 2%nat /\
  Z.of_nat (runningEntries q) <= maxConcurrency q.
Proof.
  intros q. split; [reflexivity|]. split; [reflexivity|].
  apply (running_tasks_bounded (mkOptions (Some 2) (Some 100) None None)).
  vm_compute. discriminate.
Defined.

End QueueCap.

Section QueueRunIds.
Import AsyncOpQueue.

(** Run ids are handed out in order: the n-th started task has run id n. *)
Definition idsInvariant (q : Queue) : Prop :=
  length (started q) = runId q /\
  forall j s, started q !! j = Some s -> st_id s = j.

Lemma removeRunningTask_idsInvariant (q : Queue) (k : string) (i : nat) :
  idsInvariant q -> idsInvariant (removeRunningTask q k i).
Proof.
  unfold idsInvariant.
  destruct (removeRunningTask_fields q k i) as (_ & _ & _ & _ & _ & _ & Hr & Hs & _).
  now rewrite Hr, Hs.
Qed.

Lemma reapSweep_idsInvariant (now : Z) (q : Queue) :
  idsInvariant q -> idsInvariant (reapSweep now q).
Proof.
  unfold reapSweep. generalize (map_to_list (runningTasks q)). intros l.
  revert q. induction l as [|[k rt] l IH]; intros q H; simpl; [exact H|].
  apply IH. destruct (expiration rt) as [e|]; [|exact H].
  destruct (e - now <=? 0); [|exact H].
  now apply removeRunningTask_idsInvariant.
Qed.

Lemma finishRun_idsInvariant (q : Queue) (l : list QueueItem) :
  idsInvariant q -> idsInvariant (finishRun q l).
Proof.
  intros H. unfold finishRun.
  repeat match goal with
         | |- context [if ?b then _ else _] => destruct b
         end; exact H.
Qed.

Lemma runLoop_idsInvariant (clock : nat -> Z) (items : list QueueItem) :
  forall (reads : nat) (q : Queue) (unrun ranSince : list QueueItem),
    idsInvariant q -> idsInvariant (runLoop clock reads q unrun ranSince items).
Proof.
  induction items as [|taskToRun rest IH]; intros reads q unrun ranSince H.
  - now apply finishRun_idsInvariant.
  - cbn [runLoop].
    destruct ((runCount q <? maxConcurrency q) && negb (shutdownImmediately q));
      [|now apply finishRun_idsInvariant].
    destruct (mayRun clock reads (runningTasks q !! key taskToRun))
      as [runnable reads1].
    destruct runnable; [|now apply IH].
    destruct (newExpiration clock reads1 (runTimeout taskToRun)) as [exp reads2].
    set (k := key taskToRun). set (i := runId q).
    set (q1 := set_started (set_runningTasks (set_runId q (S i))
                  (<[k := mkRunningTask exp i]> (runningTasks q)))
                 (started q ++ [mkStarted i taskToRun])).
    assert (H1 : idsInvariant q1).
    { destruct H as [Hlen Hid]. split; simpl.
      - rewrite length_app. simpl. subst i. lia.
      - intros j s Hj. apply lookup_app_Some in Hj as [Hj|[Hge Hj]]; [now apply Hid|].
        destruct (j - length (started q))%nat eqn:E; simpl in Hj; [|discriminate].
        injection Hj as <-. simpl. subst i. lia. }
    set (q2 := if completesSync (task taskToRun) then removeRunningTask q1 k i else q1).
    assert (H2 : idsInvariant q2).
    { subst q2. destruct (completesSync (task taskToRun)); [|exact H1].
      now apply removeRunningTask_idsInvariant. }
    assert (Hafter : forall q3, idsInvariant q3 ->
              idsInvariant
                (runLoop clock reads2
                   (match runningTasks q !! k with
                    | None => set_runCount (set_size q3 (size q3 - 1))
                                (runCount (set_size q3 (size q3 - 1)) + 1)
                    | Some _ => set_size q3 (size q3 - 1)
                    end) unrun (ranSince ++ [taskToRun]) rest)).
    { intros q3 H3. apply IH. destruct (runningTasks q !! k); exact H3. }
    destruct (throwsSync (task taskToRun)).
    + destruct (catchErrors q); [|exact H2].
      apply Hafter. now apply removeRunningTask_idsInvariant.
    + now apply Hafter.
Qed.

Lemma step_idsInvariant (q : Queue) (e : Event) :
  idsInvariant q -> idsInvariant (step q e).
Proof.
  intros H. destruct e as [k t rt|k pt rt|clock|now|i|imm t|]; simpl.
  - unfold submit. destruct (shutdown q); exact H.
  - unfold submitPromiseTask, submit. destruct (shutdown q); exact H.
  - unfold runCallback. destruct (runArmed q); [|exact H].
    now apply runLoop_idsInvariant.
  - unfold reapCallback. destruct (reapArmed q); [|exact H].
    apply (reapSweep_idsInvariant now) in H. exact H.
  - unfold continuation. destruct (started q !! i) as [s|]; [|exact H].
    destruct (completesLater (task (st_item s))); [|exact H].
    now apply removeRunningTask_idsInvariant.
  - unfold stop. destruct (shutdown q); exact H.
  - unfold stopTimerCallback. destruct (stopTimerArmed q); exact H.
Qed.

Lemma steps_idsInvariant (q : Queue) (es : list Event) :
  idsInvariant q -> idsInvariant (steps q es).
Proof.
  revert q. induction es as [|e es IH]; intros q H; simpl; [exact H|].
  apply IH. now apply step_idsInvariant.
Qed.

Lemma constructor_idsInvariant (options : AsyncOpQueueOptions) :
  idsInvariant (constructor options).
Proof. split; [reflexivity|]. intros j s H. discriminate H. Qed.

End QueueRunIds.

Section QueueBusyKey.
Import AsyncOpQueue.

(** Every reading of the clock made by the transition is before [e]. *)
Definition clockBefore (e : Z) (ev : Event) : Prop :=
  match ev with
  | ERun clock => forall n, clock n < e
  | EReap currentTime => currentTime < e
  | _ => True
  end.

Variable k : string.
Variable rt0 : RunningTask.

(** The entry of key [k] is [rt0], and every task started since the list
    [before] was recorded has another key. *)
Definition busy (before : list Started) (q : Queue) : Prop :=
  runningTasks q !! k = Some rt0 /\
  exists later, started q = (before ++ later)%list /\
                Forall (fun s => key (st_item s) <> k) later.

Lemma removeRunningTask_other_key (q : Queue) (k' : string) (i : nat) :
  k' <> k ->
  runningTasks (removeRunningTask q k' i) !! k = runningTasks q !! k.
Proof.
  intros Hne. unfold removeRunningTask.
  destruct (runningTasks q !! k') as [rt|]; [|reflexivity].
  destruct (Nat.eqb (id rt) i); [|reflexivity].
  simpl. now apply lookup_delete_ne.
Qed.

Lemma removeRunningTask_other_id (q : Queue) (i : nat) :
  runningTasks q !! k = Some rt0 -> id rt0 <> i ->
  removeRunningTask q k i = q.
Proof.
  intros H Hne. unfold removeRunningTask. rewrite H.
  destruct (Nat.eqb_spec (id rt0) i); [contradiction|reflexivity].
Qed.

Lemma removeRunningTask_busy (before : list Started) (q : Queue) (k' : string) (i : nat) :
  k' <> k -> busy before q -> busy before (removeRunningTask q k' i).
Proof.
  intros Hne [Hl Hs]. split.
  - now rewrite removeRunningTask_other_key.
  - destruct (removeRunningTask_fields q k' i) as (_ & _ & _ & _ & _ & _ & _ & E & _).
    now rewrite E.
Qed.

Lemma reapSweep_busy (before : list Started) (now : Z) (q : Queue) :
  (forall e, expiration rt0 = Some e -> now < e) ->
  busy before q -> busy before (reapSweep now q).
Proof.
  intros Hnow Hb. unfold reapSweep.
  assert (Hl : forall k' rt, (k', rt) ∈ map_to_list (runningTasks q) ->
                 k' = k -> rt = rt0).
  { intros k' rt Hin ->. apply elem_of_map_to_list in Hin.
    destruct Hb as [Hb _]. congruence. }
  revert Hl. generalize (map_to_list (runningTasks q)). intros l.
  revert q Hb. induction l as [|[k' rt] l IH]; intros q Hb Hl; simpl; [exact Hb|].
  apply IH.
  - destruct (expiration rt) as [e|] eqn:Ee; [|exact Hb].
    destruct (Z.leb_spec (e - now) 0) as [Hexp|]; [|exact Hb].
    destruct (String.eqb_spec k' k) as [->|Hne].
    + assert (rt = rt0) as -> by (apply (Hl k); [left|reflexivity]).
      specialize (Hnow e Ee). lia.
    + now apply removeRunningTask_busy.
  - intros k'' rt' Hin. apply Hl. now right.
Qed.

Lemma finishRun_busy (before : list Started) (q : Queue) (l : list QueueItem) :
  busy before q -> busy before (finishRun q l).
Proof.
  intros H. unfold finishRun.
  repeat match goal with
         | |- context [if ?b then _ else _] => destruct b
         end; exact H.
Qed.

Lemma busy_started_app (before : list Started) (q q' : Queue) (s : Started) :
  busy before q ->
  runningTasks q' !! k = runningTasks q !! k ->
  started q' = (started q ++ [s])%list ->
  key (st_item s) <> k ->
  busy before q'.
Proof.
  intros [Hl (later & E & Hall)] Hl' Hs Hne. split; [congruence|].
  exists (later ++ [s])%list. split.
  - now rewrite Hs, E, app_assoc.
  - apply Forall_app. split; [exact Hall|]. now constructor.
Qed.

Lemma runLoop_busy (before : list Started) (clock : nat -> Z)
    (items : list QueueItem) :
  (forall e, expiration rt0 = Some e -> forall n, clock n < e) ->
  forall (reads : nat) (q : Queue) (unrun ranSince : list QueueItem),
    busy before q -> busy before (runLoop clock reads q unrun ranSince items).
Proof.
  intros Hclock.
  induction items as [|taskToRun rest IH]; intros reads q unrun ranSince H.
  - now apply finishRun_busy.
  - cbn [runLoop].
    destruct ((runCount q <? maxConcurrency q) && negb (shutdownImmediately q));
      [|now apply finishRun_busy].
    destruct (String.eqb_spec (key taskToRun) k) as [Ek|Hne].
    + (* an item of the busy key is skipped *)
      destruct H as [Hl Hs]. rewrite Ek, Hl. unfold mayRun.
      destruct (expiration rt0) as [e|] eqn:Ee.
      * specialize (Hclock e eq_refl reads).
        destruct (Z.leb_spec (e - clock reads) 0); [lia|].
        apply IH. now split.
      * apply IH. now split.
    + destruct (mayRun clock reads (runningTasks q !! key taskToRun))
        as [runnable reads1].
      destruct runnable; [|now apply IH].
      destruct (newExpiration clock reads1 (runTimeout taskToRun)) as [exp reads2].
      set (k' := key taskToRun) in *. set (i := runId q).
      set (q1 := set_started (set_runningTasks (set_runId q (S i))
                    (<[k' := mkRunningTask exp i]> (runningTasks q)))
                   (started q ++ [mkStarted i taskToRun])).
      assert (H1 : busy before q1).
      { apply (busy_started_app before q q1 (mkStarted i taskToRun)); auto.
        simpl. now apply lookup_insert_ne. }
      set (q2 := if completesSync (task taskToRun) then removeRunningTask q1 k' i else q1).
      assert (H2 : busy before q2).
      { subst q2. destruct (completesSync (task taskToRun)); [|exact H1].
        now apply removeRunningTask_busy. }
      assert (Hafter : forall q3, busy before q3 ->
                busy before
                  (runLoop clock reads2
                     (match runningTasks q !! k' with
                      | None => set_runCount (set_size q3 (size q3 - 1))
                                  (runCount (set_size q3 (size q3 - 1)) + 1)
                      | Some _ => set_size q3 (size q3 - 1)
                      end) unrun (ranSince ++ [taskToRun]) rest)).
      { intros q3 H3. apply IH. destruct (runningTasks q !! k'); exact H3. }
      destruct (throwsSync (task taskToRun)).
      * destruct (catchErrors q); [|exact H2].
        apply Hafter. now apply removeRunningTask_busy.
      * now apply Hafter.
Qed.

Lemma step_busy (before : list Started) (q : Queue) (ev : Event) :
  (forall j s, before !! j = Some s -> st_id s = j) ->
  (forall s, before !! id rt0 = Some s ->
             key (st_item s) = k -> completesLater (task (st_item s)) = false) ->
  (forall e, expiration rt0 = Some e -> clockBefore e ev) ->
  busy before q -> busy before (step q ev).
Proof.
  intros Hids Hmine Hclock H.
  destruct ev as [k' t rt|k' pt rt|clock|now|i|imm t|]; simpl.
  - unfold submit. destruct (shutdown q); exact H.
  - unfold submitPromiseTask, submit. destruct (shutdown q); exact H.
  - unfold runCallback. destruct (runArmed q); [|exact H].
    apply runLoop_busy; [exact Hclock|exact H].
  - unfold reapCallback. destruct (reapArmed q); [|exact H].
    apply (reapSweep_busy before now) in H; [exact H|exact Hclock].
  - unfold continuation. destruct (started q !! i) as [s|] eqn:Es; [|exact H].
    destruct (completesLater (task (st_item s))) eqn:Ec; [|exact H].
    destruct (String.eqb_spec (key (st_item s)) k) as [Ek|Hne];
      [|now apply removeRunningTask_busy].
    (* a task of the busy key was started before; its id is its index *)
    destruct H as [Hl (later & E & Hall)].
    assert (Hbefore : before !! i = Some s).
    { rewrite E in Es. apply lookup_app_Some in Es as [Es|[_ Es]]; [exact Es|].
      rewrite Forall_forall in Hall. exfalso.
      apply (Hall s); [|exact Ek]. eapply list_elem_of_lookup_2. exact Es. }
    rewrite Ek. rewrite (Hids i s Hbefore).
    destruct (Nat.eq_dec (id rt0) i) as [Ei|Hi].
    + subst i. rewrite (Hmine s Hbefore Ek) in Ec. discriminate Ec.
    + rewrite (removeRunningTask_other_id q i Hl Hi). split; [exact Hl|eauto].
  - unfold stop. destruct (shutdown q); exact H.
  - unfold stopTimerCallback. destruct (stopTimerArmed q); exact H.
Qed.

Lemma steps_busy (before : list Started) (q : Queue) (es : list Event) :
  (forall j s, before !! j = Some s -> st_id s = j) ->
  (forall s, before !! id rt0 = Some s ->
             key (st_item s) = k -> completesLater (task (st_item s)) = false) ->
  (forall e, expiration rt0 = Some e -> Forall (clockBefore e) es) ->
  busy before q -> busy before (steps q es).
Proof.
  intros Hids Hmine. revert q. induction es as [|ev es IH]; intros q Hclock H; simpl;
    [exact H|].
  apply IH.
  - intros e He. specialize (Hclock e He). now inversion Hclock.
  - apply step_busy; auto. intros e He. specialize (Hclock e He). now inversion Hclock.
Qed.

End QueueBusyKey.

Section RejectedPromiseTask.
Import AsyncOpQueue.

(** C10.  Take a queue without [catchErrors] in which the task started with
    run id [i] for key [k] was submitted through [submitPromiseTask] and its
    promise rejects.  The wrapped task never calls its completion callback,
    and after any further transitions whose clock readings all lie before
    the entry's expiration (any transitions at all when the task has no
    timeout) the entry of [k] is still the one of run id [i] and no other
    task of key [k] has been started. *)
Theorem rejected_promise_keeps_key_busy
    (options : AsyncOpQueueOptions) (es0 es : list Event)
    (k : string) (i : nat) (item : QueueItem) (promiseTask : PromiseTask)
    (exp : option Z) :
  let q := steps (constructor options) es0 in
  catchErrors q = false ->
  p_outcome promiseTask = ReturnsPromise Rejects ->
  task item = promiseWrapper (catchErrors q) promiseTask ->
  key item = k ->
  started q !! i = Some (mkStarted i item) ->
  runningTasks q !! k = Some (mkRunningTask exp i) ->
  (forall e, exp = Some e -> Forall (clockBefore e) es) ->
  let q' := steps q es in
  (completesSync (task item) = false /\ completesLater (task item) = false) /\
  runningTasks q' !! k = Some (mkRunningTask exp i) /\
  exists later, started q' = (started q ++ later)%list /\
                Forall (fun s => key (st_item s) <> k) later.
Proof.
  intros q Hcatch Hrej Htask Hkey Hstarted Hentry Hclock q'.
  assert (Hnever : completesSync (task item) = false /\
                   completesLater (task item) = false).
  { rewrite Htask, Hcatch. unfold promiseWrapper. rewrite Hrej. split; reflexivity. }
  split; [exact Hnever|].
  destruct (steps_idsInvariant (constructor options) es0
              (constructor_idsInvariant options)) as [_ Hids].
  fold q in Hids.
  apply (steps_busy k (mkRunningTask exp i) (started q) q es); auto.
  - simpl. intros s Hs _. rewrite Hstarted in Hs. injection Hs as <-. apply Hnever.
  - split; [exact Hentry|]. exists []. split; [now rewrite app_nil_r|constructor].
Qed.

Definition rejectingWrite (keyName : string) : PromiseTask :=
  mkPromiseTask (WriteObject keyName ("/mir/" ++ keyName)) (ReturnsPromise Rejects).

Lemma rejected_promise_keeps_key_busy_witness :
  let options := mkOptions None None None None in
  let es0 := [ESubmitPromiseTask "/mir/a" (rejectingWrite "a") None; ERun (fun _ => 0)] in
  let es := [ESubmitPromiseTask "/mir/a" (rejectingWrite "a") None; EComplete 0%nat;
             EReap 100; ERun (fun _ => 200); EReap 300; ERun (fun _ => 400)] in
  let q' := steps (steps (constructor options) es0) es in
  runningTasks q' !! "/mir/a" = Some (mkRunningTask None 0) /\
  startOrder q' = [WriteObject "a" "/mir/a"] /\
  map key (queue q') = ["/mir/a"].
Proof.
  intros options es0 es q'.
  destruct (rejected_promise_keeps_key_busy options es0 es "/mir/a" 0
              (mkQueueItem "/mir/a" (promiseWrapper false (rejectingWrite "a")) None)
              (rejectingWrite "a") None
              eq_refl eq_refl eq_refl eq_refl eq_refl eq_refl)
    as (_ & Hentry & _).
  - intros e He. discriminate He.
  - split; [exact Hentry|]. split; reflexivity.
Defined.

End RejectedPromiseTask.

Section SameKeyOrder.
Import AsyncOpQueue.

(** The readings of [Date.now()] during the second dispatch pass below: the
    millisecond changes between the test of the second task and the test of
    the third. *)
Definition tickingClock (n : nat) : Z :=
  match n with
  | O => 59999
  | _ => 60000
  end.

(** C4 does not hold of the code.  Three tasks are submitted for one key to
    a queue configured as the application configures it (task timeout
    60000 ms).  The first is started at time 0 and never completes.  In a
    later dispatch pass the second task is tested at 59999 ms and skipped,
    the third is tested at 60000 ms, when the entry of the first has just
    expired, and is started: the third task begins before the second, which
    is still queued, and which starts only after the third has completed. *)
Theorem later_task_overtakes_same_key :
  let q0 := constructor (mkOptions (Some 300) (Some 60000) None None) in
  let q1 := steps q0 [ESubmit "k" (userTask 1) None;
                      ESubmit "k" (userTask 2) None;
                      ESubmit "k" (userTask 3) None;
                      ERun (fun _ => 0)] in
  let q2 := step q1 (ERun tickingClock) in
  let q3 := steps q2 [EComplete 1%nat; ERun (fun _ => 60001)] in
  (startOrder q1 = [UserTask 1] /\
   map (fun i => effect (task i)) (queue q1) = [UserTask 2; UserTask 3]) /\
  (startOrder q2 = [UserTask 1; UserTask 3] /\
   map (fun i => effect (task i)) (queue q2) = [UserTask 2]) /\
  startOrder q3 = [UserTask 1; UserTask 3; UserTask 2].
Proof. repeat split; reflexivity. Qed.

End SameKeyOrder.

(** ** The reconciliation loop ends *)

Section SyncTotal.
Import S3Utils FilesystemOps Sync.

Variable s3List : list S3ListObj.
Variable dirEntries : list DirEntry.
Variable remove : bool.

(** Entries not yet consumed by the two cursors. *)
Definition remaining (st : State) : nat :=
  (S (length dirEntries) - dirEntPos st) + (S (length s3List) - s3ListPos st).

Lemma loopBody_positions (st : State) :
  let st' := loopBody s3List dirEntries remove st in
  (dirEntPos st <= dirEntPos st')%nat /\ (s3ListPos st <= s3ListPos st')%nat /\
  (loopCondition st = true ->
   (dirEntry st <> None /\ dirEntPos st < dirEntPos st')%nat \/
   (s3ListObj st <> None /\ s3ListPos st < s3ListPos st')%nat).
Proof.
  assert (Hskip : forall p st0,
            (dirEntPos st0 < dirEntPos (getNextDirEntryAfterRemovedDir dirEntries p st0))%nat /\
            s3ListPos (getNextDirEntryAfterRemovedDir dirEntries p st0) = s3ListPos st0).
  { intros p st0.
    destruct (getNextDirEntryAfterRemovedDir_spec dirEntries p st0) as (n & -> & _).
    simpl. split; [lia|reflexivity]. }
  unfold loopBody, loopCondition.
  destruct (dirEntry st) as [d|], (s3ListObj st) as [o|];
    repeat match goal with
           | |- context [if ?b then _ else _] => destruct b
           end;
    try match goal with
        | |- context [getNextDirEntryAfterRemovedDir _ ?p ?st0] =>
            destruct (Hskip p st0) as [H1 H2]; simpl in H1; rewrite H2
        end;
    simpl; repeat split; try lia;
    try (intros _; left; split; [discriminate|lia]);
    try (intros _; right; split; [discriminate|lia]);
    try (intros H; discriminate H).
Qed.

Lemma loop_total (fuel : nat) (st : State) :
  aligned s3List dirEntries st ->
  (remaining st <= fuel)%nat ->
  exists st', loop s3List dirEntries remove fuel st = Some st'.
Proof.
  revert st. induction fuel as [|fuel IH]; intros st Hal Hfuel.
  - simpl. destruct (loopCondition st) eqn:Ec; [|eauto].
    exfalso. destruct Hal as (Hd1 & Hd2 & Hs1 & Hs2).
    unfold loopCondition in Ec. unfold remaining in Hfuel.
    destruct (dirEntry st) as [d|].
    + symmetry in Hd2. apply lookup_lt_Some in Hd2. lia.
    + destruct (s3ListObj st) as [o|]; [|discriminate].
      symmetry in Hs2. apply lookup_lt_Some in Hs2. lia.
  - simpl. destruct (loopCondition st) eqn:Ec; [|eauto].
    apply IH; [now apply loopBody_aligned|].
    destruct (loopBody_positions st) as (Hd & Hs & Hprog).
    destruct Hal as (Hd1 & Hd2 & Hs1 & Hs2).
    unfold remaining in *.
    destruct (Hprog Ec) as [[Hsome Hlt]|[Hsome Hlt]].
    + destruct (dirEntry st) as [d|]; [|contradiction].
      symmetry in Hd2. apply lookup_lt_Some in Hd2. lia.
    + destruct (s3ListObj st) as [o|]; [|contradiction].
      symmetry in Hs2. apply lookup_lt_Some in Hs2. lia.
Qed.

(** The loop of [sync()] ends on all inputs: the reconciliation returns its
    list of calls. *)
Lemma sync_total : exists cs, sync s3List dirEntries remove = Some cs.
Proof.
  unfold sync.
  destruct (loop_total (S (S (length dirEntries + length s3List)))
              (initialState s3List dirEntries)) as [st' E].
  - apply initialState_aligned.
  - unfold remaining, initialState. simpl. lia.
  - rewrite E. simpl. eauto.
Qed.

End SyncTotal.

Section SyncScenario.
Import S3Utils FilesystemOps Sync.

Definition file (p : string) (m s : Z) : DirEntry := mkDirEntry p (mkStats m s).

(** The name [n-tilde.txt], whose first character takes two bytes. *)
Definition ntilde_txt : string :=
  String (ascii_of_nat 195) (String (ascii_of_nat 177) ".txt").

(** The mixed scenario of the repository's sync tests: four remote objects
    against a local tree with two sub-directories, with [remove = true]. *)
Example sync_mixed_scenario :
  let listing := mkOutput (Some [mkS3Object (Some "0.txt") 0 0;
                                 mkS3Object (Some "whatever.txt") 0 0;
                                 mkS3Object (Some "dir1/dir1_1/aa.txt") 50 18;
                                 mkS3Object (Some "z.txt") 50 7]) None in
  let s3List := getS3List (mkS3ListOptions None defaultS3KeyTransformers) [listing] in
  let dirEntries := sortDirEntries
    [file "1.txt" 50 7; file "a.txt" 50 7;
     file "dir1/" 50 0; file "dir1/2.txt" 50 7; file "dir1/22.txt" 50 7;
     file "dir1/dir1_1/" 50 0; file "dir1/dir1_1/aa.txt" 50 7;
     file "dir2/" 50 0; file "dir2/b.txt" 50 7;
     file "z.txt" 50 7; file ntilde_txt 50 7] in
  sync s3List dirEntries true =
    Some [CallWriteS3Object "0.txt" "0.txt";
          CallUnlinkFile "1.txt"; CallUnlinkFile "a.txt";
          CallUnlinkFile "dir1/2.txt"; CallUnlinkFile "dir1/22.txt";
          CallWriteS3Object "dir1/dir1_1/aa.txt" "dir1/dir1_1/aa.txt";
          CallRmdirRecursive "dir2/";
          CallWriteS3Object "whatever.txt" "whatever.txt";
          CallUnlinkFile ntilde_txt].
Proof. reflexivity. Qed.

End SyncScenario.

(** ** Same-key order when the clock does not tick inside a dispatch pass *)

Section SameKeyOrderSteadyClock.
Import AsyncOpQueue.

Variable k : string.

Definition ofKey (l : list QueueItem) : list QueueItem :=
  List.filter (fun i => String.eqb (key i) k) l.

Definition startedItems (q : Queue) : list QueueItem := map st_item (started q).

(** The items a transition appends to the queue. *)
Definition enqueued (q : Queue) (ev : Event) : list QueueItem :=
  match ev with
  | ESubmit _ _ _ | ESubmitPromiseTask _ _ _ =>
      drop (length (queue q)) (queue (step q ev))
  | _ => []
  end.

(** The items accepted by the queue over a sequence of transitions, in
    submission order. *)
Fixpoint accepted (q : Queue) (es : list Event) : list QueueItem :=
  match es with
  | [] => []
  | ev :: es' => (enqueued q ev ++ accepted (step q ev) es')%list
  end.

(** All the readings of [Date.now()] within one dispatch pass are equal. *)
Definition steadyClock (ev : Event) : Prop :=
  match ev with
  | ERun clock => forall n, clock n = clock 0%nat
  | _ => True
  end.

(** [subs] is the submission sequence of key [k]: the started tasks of the
    key are a prefix of it, and while the dispatch loop is armed the queued
    items of the key are the rest of it. *)
Definition fifoInvariant (subs : list QueueItem) (q : Queue) : Prop :=
  (exists notStarted, subs = (ofKey (startedItems q) ++ notStarted)%list) /\
  (runArmed q = true -> subs = (ofKey (startedItems q) ++ ofKey (queue q))%list).

Lemma ofKey_app (l l' : list QueueItem) : ofKey (l ++ l') = (ofKey l ++ ofKey l')%list.
Proof. apply List.filter_app. Qed.

Lemma ofKey_cons (x : QueueItem) (l : list QueueItem) :
  ofKey (x :: l) = (ofKey [x] ++ ofKey l)%list.
Proof. unfold ofKey. simpl. now destruct (String.eqb (key x) k). Qed.

Lemma finishRun_fifo (subs : list QueueItem) (q : Queue) (l : list QueueItem) :
  subs = (ofKey (startedItems q) ++ ofKey l)%list ->
  fifoInvariant subs (finishRun q l).
Proof.
  intros E. unfold finishRun.
  repeat match goal with
         | |- context [if ?b then _ else _] => destruct b
         end; (split; [eexists; exact E|intros _; exact E]).
Qed.

Lemma mayRun_steady (clock : nat -> Z) (r r' : nat) (o : option RunningTask) :
  (forall n, clock n = clock 0%nat) ->
  fst (mayRun clock r o) = fst (mayRun clock r' o).
Proof.
  intros H. unfold mayRun. destruct o as [rt|]; [|reflexivity].
  destruct (expiration rt); [|reflexivity]. simpl. now rewrite (H r), (H r').
Qed.

Lemma runLoop_fifo (clock : nat -> Z) (items : list QueueItem) :
  (forall n, clock n = clock 0%nat) ->
  forall (reads : nat) (q : Queue) (unrun ranSince subs : list QueueItem),
    runArmed q = false ->
    subs = (ofKey (startedItems q) ++ ofKey unrun ++ ofKey items)%list ->
    (ofKey unrun <> [] -> forall r, fst (mayRun clock r (runningTasks q !! k)) = false) ->
    fifoInvariant subs (runLoop clock reads q unrun ranSince items).
Proof.
  intros Hsteady.
  induction items as [|x rest IH]; intros reads q unrun ranSince subs Ha E Hblocked.
  - apply finishRun_fifo. now rewrite app_nil_r in E.
  - cbn [runLoop].
    destruct ((runCount q <? maxConcurrency q) && negb (shutdownImmediately q));
      [|apply finishRun_fifo; now rewrite ofKey_app].
    destruct (mayRun clock reads (runningTasks q !! key x)) as [runnable reads1] eqn:Emay.
    destruct runnable.
    + (* the item is started *)
      destruct (newExpiration clock reads1 (runTimeout x)) as [exp reads2].
      set (i := runId q).
      set (q1 := set_started (set_runningTasks (set_runId q (S i))
                    (<[key x := mkRunningTask exp i]> (runningTasks q)))
                   (started q ++ [mkStarted i x])).
      assert (Hunrun : String.eqb (key x) k = true -> ofKey unrun = []).
      { intros Ek. apply String.eqb_eq in Ek.
        destruct (ofKey unrun) as [|y l] eqn:Eu; [reflexivity|]. exfalso.
        assert (Hne : y :: l <> []) by discriminate.
        specialize (Hblocked Hne reads). rewrite <- Ek, Emay in Hblocked.
        discriminate Hblocked. }
      assert (E1 : subs = (ofKey (startedItems q1) ++ ofKey unrun ++ ofKey rest)%list).
      { unfold startedItems in *. subst q1. simpl. rewrite map_app, ofKey_app. simpl.
        rewrite E, (ofKey_cons x rest), <- !app_assoc. f_equal.
        change (ofKey [x]) with (if String.eqb (key x) k then [x] else []).
        destruct (String.eqb (key x) k) eqn:Ek; [|reflexivity].
        now rewrite (Hunrun eq_refl). }
      assert (Hb1 : forall q3, runningTasks q3 !! k = runningTasks q1 !! k ->
                ofKey unrun <> [] ->
                forall r, fst (mayRun clock r (runningTasks q3 !! k)) = false).
      { intros q3 E3 Hne r. rewrite E3. subst q1. simpl.
        destruct (String.eqb (key x) k) eqn:Ek.
        - exfalso. apply Hne, Hunrun. reflexivity.
        - apply String.eqb_neq in Ek.
          rewrite lookup_insert_ne by exact Ek. now apply Hblocked. }
      assert (Hrm : forall q3, started q3 = started q1 -> runArmed q3 = false ->
                (runningTasks q3 !! k = runningTasks q1 !! k \/ ofKey unrun = []) ->
                let q4 := removeRunningTask q3 (key x) i in
                started q4 = started q1 /\ runArmed q4 = false /\
                (runningTasks q4 !! k = runningTasks q1 !! k \/ ofKey unrun = [])).
      { intros q3 Es Hr Hl q4. subst q4.
        destruct (removeRunningTask_fields q3 (key x) i)
          as (_ & Hr' & _ & _ & _ & _ & _ & Hs' & _).
        rewrite Hs', Hr'. repeat split; auto.
        destruct (String.eqb (key x) k) eqn:Ek.
        - right. apply Hunrun. reflexivity.
        - apply String.eqb_neq in Ek.
          destruct Hl as [Hl|Hl]; [left|now right].
          now rewrite (removeRunningTask_other_key k q3 (key x) i Ek). }
      set (q2 := if completesSync (task x) then removeRunningTask q1 (key x) i else q1).
      assert (H2 : started q2 = started q1 /\ runArmed q2 = false /\
                   (runningTasks q2 !! k = runningTasks q1 !! k \/ ofKey unrun = [])).
      { subst q2. destruct (completesSync (task x)); [apply Hrm|]; auto. }
      assert (Hafter : forall q3, started q3 = started q1 -> runArmed q3 = false ->
                (runningTasks q3 !! k = runningTasks q1 !! k \/ ofKey unrun = []) ->
                fifoInvariant subs
                  (runLoop clock reads2
                     (match runningTasks q !! key x with
                      | None => set_runCount (set_size q3 (size q3 - 1))
                                  (runCount (set_size q3 (size q3 - 1)) + 1)
                      | Some _ => set_size q3 (size q3 - 1)
                      end) unrun (ranSince ++ [x]) rest)).
      { intros q3 Es Hr Hl. apply IH.
        - destruct (runningTasks q !! key x); exact Hr.
        - unfold startedItems in *.
          destruct (runningTasks q !! key x); simpl; rewrite Es; exact E1.
        - intros Hne r. destruct Hl as [Hl|Hl]; [|contradiction].
          destruct (runningTasks q !! key x); simpl; now apply Hb1. }
      destruct H2 as (Hs2 & Hr2 & Hl2).
      destruct (throwsSync (task x)).
      * destruct (catchErrors q).
        -- destruct (Hrm q2 Hs2 Hr2 Hl2) as (Hs3 & Hr3 & Hl3). now apply Hafter.
        -- split; [|simpl; congruence].
           unfold startedItems in *. simpl. rewrite Hs2. eexists. exact E1.
      * now apply Hafter.
    + (* the item is skipped *)
      apply IH; [exact Ha| |].
      * rewrite E, ofKey_app, (ofKey_cons x rest), <- !app_assoc. reflexivity.
      * intros Hne r. rewrite ofKey_app in Hne.
        destruct (ofKey unrun) as [|y l] eqn:Eu.
        -- simpl in Hne. unfold ofKey in Hne. simpl in Hne.
           destruct (String.eqb_spec (key x) k) as [Ek|Hk]; [|contradiction].
           rewrite <- Ek, (mayRun_steady clock r reads _ Hsteady), Emay. reflexivity.
        -- apply Hblocked. discriminate.
Qed.

Lemma step_fifo (subs : list QueueItem) (q : Queue) (ev : Event) :
  steadyClock ev ->
  fifoInvariant subs q ->
  fifoInvariant (subs ++ ofKey (enqueued q ev)) (step q ev).
Proof.
  intros Hsteady [Hp He].
  assert (Hsame : forall q', started q' = started q -> queue q' = queue q ->
                    runArmed q' = runArmed q -> fifoInvariant (subs ++ []) q').
  { intros q' Es Eq Er. unfold fifoInvariant, startedItems. rewrite Es, Eq, Er, app_nil_r.
    split; assumption. }
  assert (Hsub : forall item,
            fifoInvariant (subs ++ ofKey (drop (length (queue q)) (queue q ++ [item])))
              (set_queue (set_size q (size q + 1)) (queue q ++ [item]))).
  { intros item. rewrite drop_app_length. destruct Hp as [rest Hp]. split.
    - exists (rest ++ ofKey [item])%list. now rewrite Hp, app_assoc.
    - simpl. intros Hr. rewrite ofKey_app, app_assoc. f_equal. now apply He. }
  destruct ev as [k' t rt|k' pt rt|clock|now|i|imm t|]; simpl.
  - unfold submit. destruct (shutdown q).
    + rewrite drop_all. now apply Hsame.
    + apply Hsub.
  - unfold submitPromiseTask, submit. destruct (shutdown q).
    + rewrite drop_all. now apply Hsame.
    + apply Hsub.
  - rewrite app_nil_r. unfold runCallback. destruct (runArmed q) eqn:Er.
    + apply runLoop_fifo; [exact Hsteady|reflexivity| |intros H; now elim H].
      simpl. now apply He.
    + split; [exact Hp|congruence].
  - apply Hsame; unfold reapCallback; destruct (reapArmed q); try reflexivity;
      unfold reapSweep; generalize (map_to_list (runningTasks q)); intros l;
      simpl; generalize q;
      (induction l as [|[k' rt'] l IH]; intros q0; simpl; [reflexivity|]);
      rewrite IH; destruct (expiration rt'); try reflexivity;
      destruct (_ <=? _); try reflexivity;
      destruct (removeRunningTask_fields q0 k' (id rt'))
        as (_ & Hr & _ & _ & _ & _ & _ & Hs & Hq & _); assumption.
  - apply Hsame; unfold continuation; destruct (started q !! i) as [s|]; try reflexivity;
      destruct (completesLater _); try reflexivity;
      destruct (removeRunningTask_fields q (key (st_item s)) (st_id s))
        as (_ & Hr & _ & _ & _ & _ & _ & Hs & Hq & _); assumption.
  - apply Hsame; unfold stop; destruct (shutdown q); reflexivity.
  - apply Hsame; unfold stopTimerCallback; destruct (stopTimerArmed q); reflexivity.
Qed.

Lemma steps_fifo (es : list Event) :
  forall (subs : list QueueItem) (q : Queue),
    Forall steadyClock es ->
    fifoInvariant subs q ->
    fifoInvariant (subs ++ ofKey (accepted q es)) (steps q es).
Proof.
  induction es as [|ev es IH]; intros subs q Hsteady H; simpl.
  - now rewrite app_nil_r.
  - inversion Hsteady as [|? ? Hev Hes]; subst.
    rewrite ofKey_app, app_assoc. apply IH; [exact Hes|]. now apply step_fifo.
Qed.

(** X1.  When no dispatch pass sees the clock tick, the tasks of a key are
    started in the order of their submission: the started tasks of the key,
    in start order, are a prefix of the accepted submissions of the key. *)
Lemma same_key_order_on_steady_clock (options : AsyncOpQueueOptions) (es : list Event) :
  Forall steadyClock es ->
  exists notStarted,
    ofKey (accepted (constructor options) es) =
    (ofKey (startedItems (steps (constructor options) es)) ++ notStarted)%list.
Proof.
  intros Hsteady.
  destruct (steps_fifo es [] (constructor options) Hsteady) as [Hp _].
  - split; [exists []; reflexivity|reflexivity].
  - exact Hp.
Qed.

End SameKeyOrderSteadyClock.

(** ** The result of [getS3List] does not depend on the enumeration order *)

Section EnumerationOrder.
Import StringUtils JsString JsArray Transformers S3ObjectOps S3Utils.

Variable options : S3ListOptions.

Definition byKey (a b : S3ListObj) : Z := compareStringsUtf8BinaryOrder (Key a) (Key b).

(** Every property of [allBucketKeys] is named by the transformed key of its
    value, which is the transform of the value's key; names are distinct. *)
Definition wellKeyed (m : BucketKeys) : Prop :=
  NoDup (map fst m) /\
  Forall (fun e => fst e = applyTransformersToKey (Key (snd e)) (s3KeyTransformers options)) m.

Lemma setProperty_fst (m : BucketKeys) (k : string) (v : S3ListObj) (x : string) :
  In x (map fst (setProperty m k v)) <-> x = k \/ In x (map fst m).
Proof.
  induction m as [|[k' v'] m IH]; simpl; [intuition congruence|].
  destruct (String.eqb_spec k k') as [->|Hne]; simpl; [intuition congruence|].
  rewrite IH. intuition congruence.
Qed.

Lemma setProperty_wellKeyed (m : BucketKeys) (k : string) (v : S3ListObj) :
  k = applyTransformersToKey (Key v) (s3KeyTransformers options) ->
  wellKeyed m -> wellKeyed (setProperty m k v).
Proof.
  intros Hk [Hnd Hall]. induction m as [|[k' v'] m IH]; simpl.
  - split; [repeat constructor; intros H; inversion H|]. repeat constructor. exact Hk.
  - simpl in Hnd. apply NoDup_cons in Hnd as [Hnotin Hnd].
    apply Forall_cons in Hall as [Hhd Hall].
    destruct (String.eqb_spec k k') as [->|Hne].
    + split; [simpl; now apply NoDup_cons|]. now constructor.
    + destruct (IH Hnd Hall) as [IH1 IH2]. split; [|now constructor].
      simpl. apply NoDup_cons. split; [|exact IH1].
      rewrite list_elem_of_In, setProperty_fst. rewrite list_elem_of_In in Hnotin.
      intros [E|Hin]; [now apply Hne|now apply Hnotin].
Qed.

Lemma addObject_wellKeyed (m : BucketKeys) (obj : S3Object) :
  wellKeyed m -> wellKeyed (addObject options m obj).
Proof.
  intros H. unfold addObject. destruct (filteredOut options obj); [exact H|].
  unfold setTransformedKey. destruct (objKey obj) as [key|]; [|exact H].
  destruct (truthy key); [|exact H]. simpl.
  destruct (_ || _); [exact H|]. now apply setProperty_wellKeyed.
Qed.

Lemma listPages_wellKeyed (responses : list ListObjectsV2Output) (m : BucketKeys) :
  wellKeyed m -> wellKeyed (listPages options responses m).
Proof.
  revert m. induction responses as [|resp rest IH]; intros m H; simpl; [exact H|].
  destruct (Contents resp) as [contents|]; [|exact H].
  assert (H' : wellKeyed (fold_left (addObject options) contents m)).
  { clear IH. revert m H. induction contents as [|o os IHc]; intros m H; simpl; [exact H|].
    apply IHc. now apply addObject_wellKeyed. }
  destruct (NextContinuationToken resp) as [tok|]; [|exact H'].
  destruct (truthy tok); [|exact H']. now apply IH.
Qed.

Lemma wellKeyed_distinct_keys (m : BucketKeys) :
  wellKeyed m -> NoDup (map Key (map snd m)).
Proof.
  intros [Hnd Hall]. induction m as [|[k v] m IH]; simpl; [constructor|].
  simpl in Hnd. apply NoDup_cons in Hnd as [Hnotin Hnd].
  apply Forall_cons in Hall as [Hhd Hall]. simpl in Hhd.
  apply NoDup_cons. split; [|now apply IH].
  intros Hin. apply Hnotin.
  rewrite list_elem_of_In, in_map_iff in Hin. destruct Hin as (v' & Ekey & Hin).
  apply in_map_iff in Hin as ([k' v''] & Esnd & Hin). simpl in Esnd. subst v''.
  rewrite Forall_forall in Hall.
  assert (Hk' : k' = applyTransformersToKey (Key v') (s3KeyTransformers options)).
  { apply (Hall (k', v')). now apply list_elem_of_In. }
  rewrite list_elem_of_In, in_map_iff. exists (k', v'). split; [|exact Hin].
  simpl. now rewrite Hk', Ekey, Hhd.
Qed.

Lemma insertSorted_Permutation (x : S3ListObj) (l : list S3ListObj) :
  Permutation (insertSorted byKey x l) (x :: l).
Proof.
  induction l as [|y l IH]; simpl; [reflexivity|].
  destruct (byKey x y <=? 0); [reflexivity|].
  rewrite IH. apply perm_swap.
Qed.

Lemma arraySort_Permutation (l : list S3ListObj) :
  Permutation (arraySort byKey l) l.
Proof.
  induction l as [|x l IH]; simpl; [reflexivity|].
  rewrite insertSorted_Permutation. now constructor.
Qed.

Lemma sorted_by_distinct_keys_unique (s1 s2 : list S3ListObj) :
  StronglySorted (fun a b => byKey a b <= 0) s1 ->
  StronglySorted (fun a b => byKey a b <= 0) s2 ->
  Permutation s1 s2 ->
  NoDup (map Key s1) ->
  s1 = s2.
Proof.
  intros H1. revert s2. induction H1 as [|h1 t1 Hs1 IH Hall1]; intros s2 H2 Hp Hnd.
  - now apply Permutation_nil in Hp.
  - destruct H2 as [|h2 t2 Hs2 Hall2]; [now apply Permutation_sym, Permutation_nil in Hp|].
    simpl in Hnd. apply NoDup_cons in Hnd as [Hnotin Hnd].
    assert (Hin2 : In h2 (h1 :: t1)).
    { apply (Permutation_in h2 (Permutation_sym Hp)). now left. }
    assert (E : h2 = h1).
    { destruct Hin2 as [E|Hin2]; [now symmetry|]. exfalso.
      assert (Hin1 : In h1 (h2 :: t2)) by (apply (Permutation_in h1 Hp); now left).
      destruct Hin1 as [E|Hin1].
      - subst h2. apply Hnotin. rewrite list_elem_of_In. now apply in_map.
      - rewrite Forall_forall in Hall1, Hall2.
        assert (L1 : byKey h1 h2 <= 0) by (apply Hall1; now apply list_elem_of_In).
        assert (L2 : byKey h2 h1 <= 0) by (apply Hall2; now apply list_elem_of_In).
        unfold byKey, compareStringsUtf8BinaryOrder in L1, L2.
        rewrite (Buffer_compare_antisym (Key h1) (Key h2)) in L2.
        assert (E0 : Buffer_compare (Key h1) (Key h2) = 0) by lia.
        apply Buffer_compare_eq in E0.
        apply Hnotin. rewrite E0, list_elem_of_In. now apply in_map. }
    subst h2. f_equal. apply IH; [exact Hs2| |exact Hnd].
    now apply Permutation_cons_inv in Hp.
Qed.

(** Whatever the order in which [for (k in allBucketKeys)] enumerates the
    entries, the sorted list is the one computed by [getS3List]. *)
Lemma getS3List_enumeration_order (responses : list ListObjectsV2Output)
    (enumerated : BucketKeys) :
  Permutation enumerated (listPages options responses []) ->
  arraySort byKey (map snd enumerated) = getS3List options responses.
Proof.
  intros Hp. unfold getS3List. fold byKey.
  assert (Hsort : forall l, StronglySorted (fun a b => byKey a b <= 0) (arraySort byKey l)).
  { intros l. apply arraySort_sorted.
    - intros x y. unfold byKey, compareStringsUtf8BinaryOrder.
      rewrite (Buffer_compare_antisym (Key x) (Key y)). lia.
    - intros x y z. apply Buffer_compare_trans. }
  symmetry. apply sorted_by_distinct_keys_unique; try apply Hsort.
  - rewrite !arraySort_Permutation. apply Permutation_map. now symmetry.
  - assert (Hk : NoDup (map Key (map snd (listPages options responses [])))).
    { apply wellKeyed_distinct_keys, listPages_wellKeyed.
      split; constructor. }
    revert Hk. apply NoDup_Permutation_proper.
    apply Permutation_map. apply arraySort_Permutation.
Qed.

End EnumerationOrder.

(** ** Further scenarios *)

Section Scenarios.
Import S3Utils FilesystemOps Sync AsyncOpQueue.

(** A listing that [getS3List] returns out of order in the transformed keys
    makes the reconciler remove and download again a file that is up to
    date: the local tree holds [a] and [b], unchanged since the upload. *)
Example unordered_listing_misleads_reconciler :
  let listing := mkOutput (Some [mkS3Object (Some "/b") 50 7;
                                 mkS3Object (Some "a") 50 7]) None in
  let s3List := getS3List (mkS3ListOptions None defaultS3KeyTransformers) [listing] in
  let dirEntries := sortDirEntries [file "a" 50 7; file "b" 50 7] in
  sync s3List dirEntries true = Some [CallUnlinkFile "a"; CallWriteS3Object "a" "a"].
Proof. reflexivity. Qed.

(** A rejected promise task with a timeout frees its key only through the
    timeout: the reaper removes the entry once the expiration has passed,
    and a dispatch pass that finds it expired hands the key to the next
    task. *)
Example rejected_promise_released_by_timeout :
  let q := steps (constructor (mkOptions None (Some 100) None None))
             [ESubmitPromiseTask "/mir/a" (rejectingWrite "a") None;
              ESubmitPromiseTask "/mir/a" (rejectingWrite "a") None;
              ERun (fun _ => 0); EComplete 0%nat; EReap 99; ERun (fun _ => 99)] in
  (runningTasks q !! "/mir/a" = Some (mkRunningTask (Some 100) 0) /\
   length (started q) = 1%nat) /\
  (runningTasks (step q (EReap 100)) !! "/mir/a" = None) /\
  (runningTasks (step q (ERun (fun _ => 100))) !! "/mir/a"
   = Some (mkRunningTask (Some 200) 1)).
Proof. repeat split; reflexivity. Qed.

End Scenarios.

(** * Further properties of the sources *)

(** ** The comparator is a total order (src/utils/stringUtils.ts) *)

Section ComparatorOrder.
Import StringUtils JsString.

Lemma proper_prefix_sorts_first (p : string) (c : ascii) (rest : string) :
  Buffer_compare p (p ++ String c rest) = -1.
Proof.
  induction p as [|x p IH]; simpl; [reflexivity|].
  now rewrite N.compare_refl.
Qed.

(** X2.  [compareStringsUtf8BinaryOrder] is a three-valued total order on
    strings: it answers -1, 0 or 1, answers 0 exactly on equal strings,
    swapping the arguments negates the answer, and "not after" is
    transitive.  A string sorts strictly before each of its proper
    extensions, so a directory path ["d/"] comes before every path below
    it. *)
Theorem compareStringsUtf8BinaryOrder_total_order :
  (forall a b, compareStringsUtf8BinaryOrder a b = -1 \/
               compareStringsUtf8BinaryOrder a b = 0 \/
               compareStringsUtf8BinaryOrder a b = 1) /\
  (forall a b, compareStringsUtf8BinaryOrder a b = 0 <-> a = b) /\
  (forall a b, compareStringsUtf8BinaryOrder b a = - compareStringsUtf8BinaryOrder a b) /\
  (forall a b c, compareStringsUtf8BinaryOrder a b <= 0 ->
                 compareStringsUtf8BinaryOrder b c <= 0 ->
                 compareStringsUtf8BinaryOrder a c <= 0) /\
  (forall p c rest, compareStringsUtf8BinaryOrder p (p ++ String c rest) = -1).
Proof.
  unfold compareStringsUtf8BinaryOrder. split; [|split; [|split; [|split]]].
  - apply Buffer_compare_range.
  - apply Buffer_compare_eq_iff.
  - apply Buffer_compare_antisym.
  - apply Buffer_compare_trans.
  - apply proper_prefix_sorts_first.
Qed.

End ComparatorOrder.

(** ** Paths relative to the mirror root (src/utils/keyAndPathUtils.ts) *)

Section RelativePaths.
Import JsString KeyAndPathUtils.

Lemma startsWith_app (p s : string) : startsWith p (p ++ s) = true.
Proof. induction p as [|x p IH]; simpl; [reflexivity|]. now rewrite Ascii.eqb_refl. Qed.

Lemma startsWith_inv (p s : string) :
  startsWith p s = true -> exists rest, s = p ++ rest.
Proof.
  revert s. induction p as [|x p IH]; intros s; simpl; [now exists s|].
  destruct s as [|y s]; [discriminate|].
  destruct (Ascii.eqb_spec x y) as [->|]; [|discriminate].
  intros H. destruct (IH _ H) as [rest ->]. now exists rest.
Qed.

Lemma indexOfFound_startsWith (needle s : string) :
  startsWith needle s = true -> indexOfFound needle s = true.
Proof. intros H. destruct s; simpl; rewrite H; reflexivity. Qed.

Lemma getRelativePathToRootDir_drops_prefix (rootDir rel : string) (separator : ascii) :
  getRelativePathToRootDir rootDir (rootDir ++ String separator rel) = Ok rel.
Proof.
  unfold getRelativePathToRootDir.
  rewrite (indexOfFound_startsWith _ _ (startsWith_app rootDir _)). simpl negb. cbv iota.
  f_equal. rewrite Nat.add_1_r.
  induction rootDir as [|x r IH]; simpl; [now destruct rel|exact IH].
Qed.

(** X3.  Round trip with the way [getDirectoryEntries] names what it finds:
    the path of an entry [rel] below the root directory, that is [rootDir],
    a separator, then [rel], is mapped back to [rel]. *)
Theorem getRelativePathToRootDir_round_trip (rootDir rel : string) :
  getRelativePathToRootDir rootDir (rootDir ++ Path.sep ++ rel) = Ok rel.
Proof. apply (getRelativePathToRootDir_drops_prefix rootDir rel "/"%char). Qed.

End RelativePaths.

(** ** The key transformers (src/utils/transformers.ts) *)

Section TransformerFacts.
Import JsString Transformers S3ObjectOps.

Lemma substr_is_suffix (key : string) (n : nat) :
  exists removed, key = removed ++ substr key n.
Proof.
  revert key. induction n as [|n IH]; intros key; simpl.
  - now exists "".
  - destruct key as [|c key]; [now exists ""|].
    destruct (IH key) as [removed E]. exists (String c removed).
    change (String c key = String c (removed ++ substr key n)).
    f_equal. exact E.
Qed.

Lemma removeRootDirCharsFromS3Key_clean (key : string) :
  startsWithRootChars (removeRootDirCharsFromS3Key key) = false.
Proof.
  unfold removeRootDirCharsFromS3Key, startsWithRootChars.
  destruct (skipRootChars_spec (S (String.length key)) key 0) as [_ Ht].
  destruct Ht as [Hsep Hdrive]; [lia|].
  set (n := skipRootChars (S (String.length key)) key 0) in *.
  unfold atSeparator, atWindowsDrive in *.
  rewrite !charAt_substr, length_substr.
  rewrite Nat.sub_0_r, Nat.add_0_r. simpl Nat.add.
  rewrite Hsep. exact Hdrive.
Qed.

Lemma removeRootDirCharsFromS3Key_fixed (key : string) :
  startsWithRootChars key = false -> removeRootDirCharsFromS3Key key = key.
Proof.
  unfold startsWithRootChars, removeRootDirCharsFromS3Key. intros H.
  apply orb_false_iff in H as [Hsep Hdrive].
  simpl skipRootChars. now rewrite Hsep, Hdrive.
Qed.

(** X4.  [removeRootDirCharsFromS3Key] only ever takes characters off the
    front of the key, and applying it to its own result changes nothing. *)
Theorem removeRootDirCharsFromS3Key_idempotent (key : string) :
  (exists removed, key = removed ++ removeRootDirCharsFromS3Key key) /\
  removeRootDirCharsFromS3Key (removeRootDirCharsFromS3Key key) =
    removeRootDirCharsFromS3Key key.
Proof.
  split.
  - apply substr_is_suffix.
  - apply removeRootDirCharsFromS3Key_fixed, removeRootDirCharsFromS3Key_clean.
Qed.

Lemma replaceKeyDirCharsWithSystemSep_length (str : string) :
  String.length (replaceKeyDirCharsWithSystemSep str) = String.length str.
Proof. induction str as [|c str IH]; simpl; [reflexivity|]. now rewrite IH. Qed.

Lemma indexOfFound_backslash_cons (c : ascii) (str : string) :
  indexOfFound "\" (String c str) = Ascii.eqb c "\" || indexOfFound "\" str.
Proof.
  change (indexOfFound "\" (String c str))
    with ((if Ascii.eqb "\" c then true else false) || indexOfFound "\" str).
  rewrite (Ascii.eqb_sym "\"%char c). now destruct (Ascii.eqb c "\").
Qed.

Lemma replaceKeyDirCharsWithSystemSep_no_backslash (str : string) :
  indexOfFound "\" (replaceKeyDirCharsWithSystemSep str) = false.
Proof.
  induction str as [|c str IH]; [reflexivity|].
  change (replaceKeyDirCharsWithSystemSep (String c str))
    with (String (if Ascii.eqb c "\" then "/"%char else c)
                 (replaceKeyDirCharsWithSystemSep str)).
  rewrite indexOfFound_backslash_cons, IH, orb_false_r.
  destruct (Ascii.eqb c "\") eqn:E; [reflexivity|exact E].
Qed.

Lemma replaceKeyDirCharsWithSystemSep_short_circuit (str : string) :
  indexOfFound "\" str = false <-> replaceKeyDirCharsWithSystemSep str = str.
Proof.
  split.
  - induction str as [|c str IH]; [reflexivity|].
    rewrite indexOfFound_backslash_cons. intros H.
    apply orb_false_iff in H as [Hc H].
    change (replaceKeyDirCharsWithSystemSep (String c str))
      with (String (if Ascii.eqb c "\" then "/"%char else c)
                   (replaceKeyDirCharsWithSystemSep str)).
    now rewrite Hc, (IH H).
  - intros E. rewrite <- E. apply replaceKeyDirCharsWithSystemSep_no_backslash.
Qed.

(** X5.  On a POSIX host [replaceKeyDirCharsWithSystemSep] keeps the length
    of the key, leaves no backslash in it, returns exactly the keys without
    a backslash unchanged (the [indexOf] short circuit of the source), and
    is idempotent. *)
Theorem replaceKeyDirCharsWithSystemSep_removes_backslashes (str : string) :
  String.length (replaceKeyDirCharsWithSystemSep str) = String.length str /\
  indexOfFound "\" (replaceKeyDirCharsWithSystemSep str) = false /\
  (indexOfFound "\" str = false <-> replaceKeyDirCharsWithSystemSep str = str) /\
  replaceKeyDirCharsWithSystemSep (replaceKeyDirCharsWithSystemSep str) =
    replaceKeyDirCharsWithSystemSep str.
Proof.
  split; [apply replaceKeyDirCharsWithSystemSep_length|].
  split; [apply replaceKeyDirCharsWithSystemSep_no_backslash|].
  split; [apply replaceKeyDirCharsWithSystemSep_short_circuit|].
  apply replaceKeyDirCharsWithSystemSep_short_circuit,
    replaceKeyDirCharsWithSystemSep_no_backslash.
Qed.

Lemma charAt_replaceKeyDirCharsWithSystemSep (str : string) (i : nat) :
  charAt (replaceKeyDirCharsWithSystemSep str) i =
  option_map (fun c => if Ascii.eqb c "\" then "/"%char else c) (charAt str i).
Proof.
  unfold charAt. revert i. induction str as [|c str IH]; intros [|i]; try reflexivity.
  apply IH.
Qed.

Lemma startsWithRootChars_replaceKeyDirCharsWithSystemSep (str : string) :
  startsWithRootChars (replaceKeyDirCharsWithSystemSep str) = startsWithRootChars str.
Proof.
  unfold startsWithRootChars, atSeparator, atWindowsDrive.
  rewrite !charAt_replaceKeyDirCharsWithSystemSep,
    replaceKeyDirCharsWithSystemSep_length.
  set (f := fun c : ascii => if Ascii.eqb c "\" then "/"%char else c).
  assert (Hf : forall c, c <> "\"%char -> f c = c).
  { intros c Hc. unfold f. now destruct (Ascii.eqb_spec c "\"%char). }
  assert (Hsep : forall o : option ascii,
    isChar (option_map f o) "/" || isChar (option_map f o) "\" =
    isChar o "/" || isChar o "\").
  { intros [c|]; [|reflexivity].
    destruct (Ascii.eqb_spec c "\"%char) as [->|Hc]; [reflexivity|].
    simpl option_map. now rewrite (Hf c Hc). }
  assert (Hsep' : forall o : option ascii,
    isChar (option_map f o) "\" || isChar (option_map f o) "/" =
    isChar o "\" || isChar o "/").
  { intros o. rewrite orb_comm, Hsep. apply orb_comm. }
  assert (Hletter : forall o : option ascii,
    betweenAandZ (option_map f o) = betweenAandZ o).
  { intros [c|]; [|reflexivity].
    destruct (Ascii.eqb_spec c "\"%char) as [->|Hc]; [reflexivity|].
    simpl option_map. now rewrite (Hf c Hc). }
  assert (Hcolon : forall o : option ascii,
    isChar (option_map f o) ":" = isChar o ":").
  { intros [c|]; [|reflexivity].
    destruct (Ascii.eqb_spec c "\"%char) as [->|Hc]; [reflexivity|].
    simpl option_map. now rewrite (Hf c Hc). }
  now rewrite Hsep, Hsep', Hletter, Hcolon.
Qed.

(** X6.  With the default options ([getDefaultS3KeyTransformers] without a
    normalization form) every transformed key is relative: it starts with
    neither a separator nor an upper-case drive prefix, holds no backslash,
    and transforming it again gives the same key. *)
Theorem default_transformers_yield_relative_keys
    (normalize : NormalizationType -> StringTransformer) (key : string) :
  let transformers :=
    getDefaultS3KeyTransformers normalize (mkTransformerOptions None false false) in
  let transformed := applyTransformersToKey key transformers in
  startsWithRootChars transformed = false /\
  indexOfFound "\" transformed = false /\
  applyTransformersToKey transformed transformers = transformed.
Proof.
  change (getDefaultS3KeyTransformers normalize (mkTransformerOptions None false false))
    with (Some [removeRootDirCharsFromS3Key; replaceKeyDirCharsWithSystemSep]).
  cbv zeta.
  change (applyTransformersToKey key
            (Some [removeRootDirCharsFromS3Key; replaceKeyDirCharsWithSystemSep]))
    with (replaceKeyDirCharsWithSystemSep (removeRootDirCharsFromS3Key key)).
  set (t := replaceKeyDirCharsWithSystemSep (removeRootDirCharsFromS3Key key)).
  assert (Hclean : startsWithRootChars t = false).
  { unfold t. rewrite startsWithRootChars_replaceKeyDirCharsWithSystemSep.
    apply removeRootDirCharsFromS3Key_clean. }
  split; [exact Hclean|].
  split; [apply replaceKeyDirCharsWithSystemSep_no_backslash|].
  change (replaceKeyDirCharsWithSystemSep (removeRootDirCharsFromS3Key t) = t).
  rewrite (removeRootDirCharsFromS3Key_fixed _ Hclean).
  apply replaceKeyDirCharsWithSystemSep_short_circuit,
    replaceKeyDirCharsWithSystemSep_no_backslash.
Qed.

End TransformerFacts.

(** ** What [getS3List] returns (src/utils/s3Utils.ts) *)

Section ArraySortPermutation.
Import JsArray.
Context {A : Type} (cmp : A -> A -> Z).

Lemma insertSorted_perm (x : A) (l : list A) :
  Permutation (insertSorted cmp x l) (x :: l).
Proof.
  induction l as [|y l IH]; simpl; [reflexivity|].
  destruct (cmp x y <=? 0); [reflexivity|].
  rewrite IH. apply perm_swap.
Qed.

Lemma arraySort_perm (l : list A) : Permutation (arraySort cmp l) l.
Proof.
  induction l as [|x l IH]; simpl; [reflexivity|].
  rewrite insertSorted_perm. now constructor.
Qed.

End ArraySortPermutation.

Section ListingFacts.
Import JsString JsArray StringUtils Transformers S3ObjectOps S3Utils.
Variable options : S3ListOptions.

(** What holds of an object that made it into the list: its key is not
    empty and ends with the configured suffix, and its transformed key is
    the transform of its key and is neither empty nor ["/"]. *)
Definition validEntry (o : S3ListObj) : Prop :=
  Key o <> "" /\
  transformedKey o = applyTransformersToKey (Key o) (s3KeyTransformers options) /\
  transformedKey o <> "" /\ transformedKey o <> "/" /\
  match suffix options with
  | Some sfx => sfx = "" \/ endsWith (Key o) sfx = true
  | None => True
  end.

(** The object is one of those on the pages answered by the store. *)
Definition listedObject (responses : list ListObjectsV2Output) (o : S3ListObj) : Prop :=
  exists page contents obj,
    In page responses /\ Contents page = Some contents /\ In obj contents /\
    objKey obj = Some (Key o) /\
    objLastModified obj = LastModified o /\ objSize obj = Size o.

Lemma setProperty_Forall (P : string * S3ListObj -> Prop) (m : BucketKeys)
    (k : string) (v : S3ListObj) :
  Forall P m -> P (k, v) -> Forall P (setProperty m k v).
Proof.
  intros Hm Hkv. induction Hm as [|[k' v'] m Hhd Htl IH]; simpl.
  - now constructor.
  - destruct (String.eqb k k'); constructor; auto.
Qed.

Definition entryInvariant (responses : list ListObjectsV2Output)
    (e : string * S3ListObj) : Prop :=
  fst e = transformedKey (snd e) /\ validEntry (snd e) /\ listedObject responses (snd e).

Lemma addObject_entryInvariant (responses : list ListObjectsV2Output)
    (page : ListObjectsV2Output) (contents : list S3Object)
    (m : BucketKeys) (obj : S3Object) :
  In page responses -> Contents page = Some contents -> In obj contents ->
  Forall (entryInvariant responses) m ->
  Forall (entryInvariant responses) (addObject options m obj).
Proof.
  intros Hpage Hcontents Hobj Hm. unfold addObject.
  destruct (filteredOut options obj) eqn:Efilter; [exact Hm|].
  unfold setTransformedKey. destruct (objKey obj) as [key|] eqn:Ekey; [|exact Hm].
  destruct (truthy key) eqn:Etruthy; [|exact Hm].
  cbv zeta. cbn [transformedKey].
  destruct (_ || _) eqn:Eignored; [exact Hm|].
  apply orb_false_iff in Eignored as [Hne Hns].
  apply String.eqb_neq in Hne, Hns.
  apply setProperty_Forall; [exact Hm|].
  split; [reflexivity|]. split.
  - cbn [snd Key transformedKey]. split; [now destruct key|].
    split; [reflexivity|]. split; [exact Hne|]. split; [exact Hns|].
    unfold filteredOut in Efilter. rewrite Ekey in Efilter.
    destruct (suffix options) as [sfx|]; [|exact I].
    destruct sfx as [|c sfx]; [now left|right].
    simpl truthy in Efilter. simpl andb in Efilter.
    now apply negb_false_iff in Efilter.
  - exists page, contents, obj. cbn [snd Key LastModified Size].
    repeat split; auto.
Qed.

Lemma listPages_entryInvariant (all responses : list ListObjectsV2Output)
    (m : BucketKeys) :
  (forall page, In page responses -> In page all) ->
  Forall (entryInvariant all) m ->
  Forall (entryInvariant all) (listPages options responses m).
Proof.
  revert m. induction responses as [|resp rest IH]; intros m Hsub Hm; simpl; [exact Hm|].
  destruct (Contents resp) as [contents|] eqn:Econtents; [|exact Hm].
  assert (H' : Forall (entryInvariant all) (fold_left (addObject options) contents m)).
  { assert (Hin : forall obj, In obj contents -> In obj contents) by auto.
    revert m Hm Hin. generalize contents at 1 3.
    induction contents0 as [|o os IHc]; intros m Hm Hin; simpl; [exact Hm|].
    apply IHc; [|intros obj Ho; apply Hin; now right].
    eapply addObject_entryInvariant; eauto.
    - apply Hsub. now left.
    - apply Hin. now left. }
  destruct (NextContinuationToken resp) as [tok|]; [|exact H'].
  destruct (truthy tok); [|exact H'].
  apply IH; [|exact H']. intros page Hp. apply Hsub. now right.
Qed.

End ListingFacts.

Section ListingResults.
Import JsString JsArray StringUtils Transformers S3ObjectOps S3Utils.

Lemma listPages_invariants (options : S3ListOptions)
    (responses : list ListObjectsV2Output) :
  wellKeyed options (listPages options responses []) /\
  Forall (entryInvariant options responses) (listPages options responses []).
Proof.
  split.
  - apply listPages_wellKeyed. split; constructor.
  - apply listPages_entryInvariant; [auto|constructor].
Qed.

Lemma getS3List_Permutation (options : S3ListOptions)
    (responses : list ListObjectsV2Output) :
  Permutation (getS3List options responses)
              (map snd (listPages options responses [])).
Proof. unfold getS3List. apply arraySort_perm. Qed.

(** X7.  Every object returned by [getS3List] is one of the objects on the
    listed pages, with a non-empty key that ends with the configured suffix;
    its transformed key is the transform of its key and is neither empty nor
    ["/"]. *)
Theorem getS3List_entries_valid (options : S3ListOptions)
    (responses : list ListObjectsV2Output) :
  Forall (fun o => validEntry options o /\ listedObject responses o)
         (getS3List options responses).
Proof.
  eapply Permutation_Forall; [symmetry; apply getS3List_Permutation|].
  destruct (listPages_invariants options responses) as [_ Hinv].
  induction Hinv as [|e m He Hm IH]; simpl; constructor; [|exact IH].
  destruct He as (_ & Hvalid & Hlisted). now split.
Qed.

Lemma entryInvariant_fst (options : S3ListOptions)
    (responses : list ListObjectsV2Output) (m : BucketKeys) :
  Forall (entryInvariant options responses) m ->
  map transformedKey (map snd m) = map fst m.
Proof.
  induction 1 as [|e m He Hm IH]; simpl; [reflexivity|].
  destruct He as (-> & _). now rewrite IH.
Qed.

(** X8.  No two objects returned by [getS3List] share a transformed key:
    the listing never makes two tasks write the same local path. *)
Theorem getS3List_transformed_keys_distinct (options : S3ListOptions)
    (responses : list ListObjectsV2Output) :
  NoDup (map transformedKey (getS3List options responses)).
Proof.
  destruct (listPages_invariants options responses) as [[Hnd _] Hinv].
  rewrite <- (entryInvariant_fst _ _ _ Hinv) in Hnd.
  revert Hnd. apply NoDup_Permutation_proper.
  apply Permutation_map, getS3List_Permutation.
Qed.

Lemma sorted_distinct_is_strict (l : list S3ListObj) :
  StronglySorted (fun a b => compareStringsUtf8BinaryOrder (Key a) (Key b) <= 0) l ->
  NoDup (map Key l) ->
  StronglySorted (fun a b => compareStringsUtf8BinaryOrder (Key a) (Key b) = -1) l.
Proof.
  induction 1 as [|x l Hs IH Hall]; intros Hnd; [constructor|].
  simpl in Hnd. apply NoDup_cons in Hnd as [Hnotin Hnd].
  constructor; [now apply IH|].
  rewrite Forall_forall in Hall. apply Forall_forall. intros y Hy.
  specialize (Hall y Hy). unfold compareStringsUtf8BinaryOrder in *.
  destruct (Buffer_compare_range (Key x) (Key y)) as [E|[E|E]]; [exact E| |lia].
  apply Buffer_compare_eq in E. exfalso. apply Hnotin. rewrite E.
  apply list_elem_of_fmap_2. exact Hy.
Qed.

Lemma getS3List_keys_distinct (options : S3ListOptions)
    (responses : list ListObjectsV2Output) :
  NoDup (map Key (getS3List options responses)).
Proof.
  destruct (listPages_invariants options responses) as [Hwell _].
  apply wellKeyed_distinct_keys in Hwell.
  revert Hwell. apply NoDup_Permutation_proper.
  apply Permutation_map, getS3List_Permutation.
Qed.

(** X9.  The list returned by [getS3List] is strictly increasing in the
    original keys under the UTF-8 byte comparator: each element sorts
    strictly before every later one. *)
Theorem getS3List_strictly_sorted_by_Key (options : S3ListOptions)
    (responses : list ListObjectsV2Output) :
  StronglySorted (fun a b => compareStringsUtf8BinaryOrder (Key a) (Key b) = -1)
    (getS3List options responses).
Proof.
  apply sorted_distinct_is_strict.
  - apply getS3List_sorted_by_Key.
  - apply getS3List_keys_distinct.
Qed.

Lemma strictly_sorted_strictlyIncreasing (l : list S3ListObj) :
  StronglySorted (fun a b => compareStringsUtf8BinaryOrder (Key a) (Key b) = -1) l ->
  strictlyIncreasing (map Key l) = true.
Proof.
  induction 1 as [|x l Hs IH Hall]; [reflexivity|].
  destruct l as [|y l]; [reflexivity|].
  change (strictlyIncreasing (map Key (x :: y :: l)))
    with ((compareStringsUtf8BinaryOrder (Key x) (Key y) =? -1) &&
          strictlyIncreasing (map Key (y :: l))).
  rewrite IH, andb_true_r. apply Z.eqb_eq.
  apply Forall_cons in Hall as [Hxy _]. exact Hxy.
Qed.

(** X10.  When no key transformer is configured the list returned by
    [getS3List] is strictly increasing in the transformed keys, the order
    the reconciler relies on. *)
Theorem getS3List_without_transformers_is_increasing (sfx : option string)
    (responses : list ListObjectsV2Output) :
  strictlyIncreasing
    (map transformedKey (getS3List (mkS3ListOptions sfx None) responses)) = true.
Proof.
  set (options := mkS3ListOptions sfx None).
  assert (E : map transformedKey (getS3List options responses) =
              map Key (getS3List options responses)).
  { assert (Hvalid : Forall (fun o => transformedKey o = Key o)
                            (getS3List options responses)).
    { eapply Permutation_Forall; [symmetry; apply getS3List_Permutation|].
      destruct (listPages_invariants options responses) as [_ Hinv].
      induction Hinv as [|e m He Hm IH]; simpl; constructor; [|exact IH].
      destruct He as (_ & (_ & Ho & _) & _). exact Ho. }
    induction Hvalid as [|o l Ho Hl IH]; simpl; [reflexivity|].
    now rewrite IH, Ho. }
  rewrite E. apply strictly_sorted_strictlyIncreasing, sorted_distinct_is_strict.
  - apply getS3List_sorted_by_Key.
  - apply getS3List_keys_distinct.
Qed.

End ListingResults.

(** ** More on the operation queue (src/AsyncOpQueue.ts) *)

Section QueueCounters.
Import AsyncOpQueue.

(** While the dispatch callback is pending, [size] is the length of the
    list of waiting tasks. *)
Definition sizeInvariant (q : Queue) : Prop :=
  runArmed q = true -> size q = Z.of_nat (length (queue q)).

Lemma finishRun_sizeInvariant (q : Queue) (l : list QueueItem) :
  size q = Z.of_nat (length l) -> sizeInvariant (finishRun q l).
Proof.
  intros H. unfold finishRun, sizeInvariant.
  repeat match goal with
         | |- context [if ?b then _ else _] => destruct b
         end; simpl; intros _; exact H.
Qed.

Lemma runLoop_sizeInvariant (clock : nat -> Z) (items : list QueueItem) :
  forall (reads : nat) (q : Queue) (unrun ranSince : list QueueItem),
    runArmed q = false ->
    size q = Z.of_nat (length unrun + length items) ->
    sizeInvariant (runLoop clock reads q unrun ranSince items).
Proof.
  induction items as [|taskToRun rest IH]; intros reads q unrun ranSince Ha Hs.
  - apply finishRun_sizeInvariant. rewrite Hs. simpl. f_equal. lia.
  - cbn [runLoop].
    destruct ((runCount q <? maxConcurrency q) && negb (shutdownImmediately q));
      [|apply finishRun_sizeInvariant; now rewrite length_app].
    destruct (mayRun clock reads (runningTasks q !! key taskToRun))
      as [runnable reads1].
    destruct runnable.
    2:{ apply IH; [exact Ha|]. rewrite Hs, length_app. simpl. f_equal. lia. }
    destruct (newExpiration clock reads1 (runTimeout taskToRun)) as [exp reads2].
    set (k := key taskToRun). set (i := runId q).
    set (q1 := set_started (set_runningTasks (set_runId q (S i))
                  (<[k := mkRunningTask exp i]> (runningTasks q)))
                 (started q ++ [mkStarted i taskToRun])).
    set (q2 := if completesSync (task taskToRun) then removeRunningTask q1 k i else q1).
    assert (H2 : size q2 = size q /\ runArmed q2 = false).
    { subst q2. destruct (completesSync (task taskToRun)); [|now split].
      destruct (removeRunningTask_fields q1 k i) as (_ & Hr & _ & _ & _ & Hz & _).
      now rewrite Hr, Hz. }
    assert (Hafter : forall q3, size q3 = size q -> runArmed q3 = false ->
              sizeInvariant
                (runLoop clock reads2
                   (match runningTasks q !! k with
                    | None => set_runCount (set_size q3 (size q3 - 1))
                                (runCount (set_size q3 (size q3 - 1)) + 1)
                    | Some _ => set_size q3 (size q3 - 1)
                    end) unrun (ranSince ++ [taskToRun]) rest)).
    { intros q3 Hz Hr. apply IH.
      - destruct (runningTasks q !! k); exact Hr.
      - simpl in Hs. destruct (runningTasks q !! k); simpl; lia. }
    destruct H2 as [Hz2 Hr2].
    destruct (throwsSync (task taskToRun)).
    + destruct (catchErrors q).
      * destruct (removeRunningTask_fields q2 k i) as (_ & Hr & _ & _ & _ & Hz & _).
        apply Hafter; congruence.
      * intros Harmed. simpl in Harmed. congruence.
    + now apply Hafter.
Qed.

Lemma step_sizeInvariant (q : Queue) (e : Event) :
  sizeInvariant q -> sizeInvariant (step q e).
Proof.
  intros H. destruct e as [k t rt|k pt rt|clock|now|i|imm t|]; simpl.
  - unfold submit. destruct (shutdown q); [exact H|].
    intros Ha. simpl in *. rewrite length_app, (H Ha). simpl. lia.
  - unfold submitPromiseTask, submit. destruct (shutdown q); [exact H|].
    intros Ha. simpl in *. rewrite length_app, (H Ha). simpl. lia.
  - unfold runCallback. destruct (runArmed q) eqn:Ea; [|exact H].
    apply runLoop_sizeInvariant; [reflexivity|]. simpl. rewrite (H Ea). f_equal.
  - unfold reapCallback. destruct (reapArmed q); [|exact H].
    unfold sizeInvariant, reap, reapSweep. simpl.
    generalize (map_to_list (runningTasks q)). intros l.
    revert q H. induction l as [|[k rt] l IH]; intros q H; simpl; [exact H|].
    apply IH. destruct (expiration rt) as [e|]; [|exact H].
    destruct (e - now <=? 0); [|exact H].
    destruct (removeRunningTask_fields q k (id rt))
      as (_ & Hr & _ & _ & _ & Hz & _ & _ & Hq & _).
    unfold sizeInvariant. now rewrite Hr, Hz, Hq.
  - unfold continuation. destruct (started q !! i) as [s|]; [|exact H].
    destruct (completesLater (task (st_item s))); [|exact H].
    destruct (removeRunningTask_fields q (key (st_item s)) (st_id s))
      as (_ & Hr & _ & _ & _ & Hz & _ & _ & Hq & _).
    unfold sizeInvariant. now rewrite Hr, Hz, Hq.
  - unfold stop. destruct (shutdown q); exact H.
  - unfold stopTimerCallback. destruct (stopTimerArmed q); exact H.
Qed.

Lemma steps_sizeInvariant (q : Queue) (es : list Event) :
  sizeInvariant q -> sizeInvariant (steps q es).
Proof.
  revert q. induction es as [|e es IH]; intros q H; simpl; [exact H|].
  apply IH. now apply step_sizeInvariant.
Qed.

(** X11.  As long as the dispatch callback is pending (no task has thrown
    out of the dispatch loop, and the queue has not stopped for good),
    [queueSize()] is the number of tasks waiting in the queue and
    [runningCount()] is the number of keys in the running-task table. *)
Theorem counters_are_exact (options : AsyncOpQueueOptions) (es : list Event) :
  let q := steps (constructor options) es in
  runArmed q = true ->
  queueSize q = Z.of_nat (length (queue q)) /\
  runningCount q = Z.of_nat (runningEntries q).
Proof.
  intros q Ha. split.
  - apply (steps_sizeInvariant (constructor options) es); [|exact Ha].
    intros _. reflexivity.
  - destruct (steps_capInvariant (constructor options) es
                (constructor_capInvariant options)) as [Hc _].
    specialize (Hc Ha). unfold countedWith in Hc. unfold runningCount. fold q in Hc. lia.
Qed.

Lemma counters_are_exact_witness :
  let q := steps (constructor (mkOptions (Some 2) (Some 100) None None))
             [ESubmit "key1" (userTask 1) None; ESubmit "key1" (userTask 2) None;
              ESubmit "key2" (userTask 3) None; ESubmit "key3" (userTask 4) None;
              ERun (fun _ => 0)] in
  runArmed q = true /\
  (queueSize q = 2 /\ runningCount q = 2) /\
  (queueSize q = Z.of_nat (length (queue q)) /\
   runningCount q = Z.of_nat (runningEntries q)).
Proof.
  split; [reflexivity|]. split; [split; reflexivity|].
  apply (counters_are_exact (mkOptions (Some 2) (Some 100) None None)
           [ESubmit "key1" (userTask 1) None; ESubmit "key1" (userTask 2) None;
            ESubmit "key2" (userTask 3) None; ESubmit "key3" (userTask 4) None;
            ERun (fun _ => 0)]).
  reflexivity.
Defined.

End QueueCounters.

Section QueueStop.
Import AsyncOpQueue.

(** [q0] is the queue at the time it was stopped: since then the queue has
    stayed shut down, the tasks started were waiting in [q0], and so are the
    tasks still waiting. *)
Definition stoppedSince (q0 q : Queue) : Prop :=
  shutdown q = true /\
  (exists later, started q = (started q0 ++ later)%list /\
                 Forall (fun s => In (st_item s) (queue q0)) later) /\
  (forall x, In x (queue q) -> In x (queue q0)).

Lemma stoppedSince_fields (q0 q q' : Queue) :
  shutdown q' = shutdown q -> started q' = started q -> queue q' = queue q ->
  stoppedSince q0 q -> stoppedSince q0 q'.
Proof. unfold stoppedSince. intros -> -> ->. auto. Qed.

Lemma finishRun_stoppedSince (q0 q : Queue) (l : list QueueItem) :
  shutdown q = true ->
  (exists later, started q = (started q0 ++ later)%list /\
                 Forall (fun s => In (st_item s) (queue q0)) later) ->
  (forall x, In x l -> In x (queue q0)) ->
  stoppedSince q0 (finishRun q l).
Proof.
  intros Hs Hl Hq. unfold finishRun.
  repeat match goal with
         | |- context [if ?b then _ else _] => destruct b
         end; repeat split; auto.
Qed.

Lemma runLoop_stoppedSince (q0 : Queue) (clock : nat -> Z) (items : list QueueItem) :
  forall (reads : nat) (q : Queue) (unrun ranSince : list QueueItem),
    shutdown q = true ->
    (exists later, started q = (started q0 ++ later)%list /\
                   Forall (fun s => In (st_item s) (queue q0)) later) ->
    (forall x, In x (unrun ++ ranSince ++ items) -> In x (queue q0)) ->
    stoppedSince q0 (runLoop clock reads q unrun ranSince items).
Proof.
  induction items as [|taskToRun rest IH]; intros reads q unrun ranSince Hs Hl Hq.
  - apply finishRun_stoppedSince; auto.
    intros x Hx. apply Hq. apply in_or_app. now left.
  - cbn [runLoop].
    destruct ((runCount q <? maxConcurrency q) && negb (shutdownImmediately q)).
    2:{ apply finishRun_stoppedSince; auto. intros x Hx. apply Hq.
        apply in_app_or in Hx as [Hx|Hx]; apply in_or_app; [now left|right].
        apply in_or_app. now right. }
    destruct (mayRun clock reads (runningTasks q !! key taskToRun))
      as [runnable reads1].
    destruct runnable.
    2:{ apply IH; auto. intros x Hx. apply Hq.
        rewrite <- app_assoc in Hx. simpl in Hx.
        apply in_app_or in Hx as [Hx|Hx]; apply in_or_app; [now left|right].
        apply in_or_app. now right. }
    destruct (newExpiration clock reads1 (runTimeout taskToRun)) as [exp reads2].
    set (k := key taskToRun). set (i := runId q).
    set (q1 := set_started (set_runningTasks (set_runId q (S i))
                  (<[k := mkRunningTask exp i]> (runningTasks q)))
                 (started q ++ [mkStarted i taskToRun])).
    assert (Hin : In taskToRun (queue q0)).
    { apply Hq. apply in_or_app. right. apply in_or_app. right. now left. }
    assert (Hl1 : exists later, started q1 = (started q0 ++ later)%list /\
                    Forall (fun s => In (st_item s) (queue q0)) later).
    { destruct Hl as (later & E & Hall). exists (later ++ [mkStarted i taskToRun])%list.
      split; [simpl; now rewrite E, app_assoc|].
      apply Forall_app. split; [exact Hall|]. now repeat constructor. }
    set (q2 := if completesSync (task taskToRun) then removeRunningTask q1 k i else q1).
    assert (H2 : shutdown q2 = true /\ started q2 = started q1).
    { subst q2. destruct (completesSync (task taskToRun)); [|now split].
      destruct (removeRunningTask_fields q1 k i) as (_ & _ & _ & _ & Hsd & _ & _ & Hst & _).
      now rewrite Hsd, Hst. }
    destruct H2 as [Hs2 Hst2].
    assert (Hafter : forall q3, shutdown q3 = true -> started q3 = started q1 ->
              stoppedSince q0
                (runLoop clock reads2
                   (match runningTasks q !! k with
                    | None => set_runCount (set_size q3 (size q3 - 1))
                                (runCount (set_size q3 (size q3 - 1)) + 1)
                    | Some _ => set_size q3 (size q3 - 1)
                    end) unrun (ranSince ++ [taskToRun]) rest)).
    { intros q3 Hs3 Hst3. apply IH.
      - destruct (runningTasks q !! k); exact Hs3.
      - destruct (runningTasks q !! k); simpl; rewrite Hst3; exact Hl1.
      - intros x Hx. apply Hq. rewrite <- app_assoc in Hx. exact Hx. }
    destruct (throwsSync (task taskToRun)).
    + destruct (catchErrors q).
      * destruct (removeRunningTask_fields q2 k i)
          as (_ & _ & _ & _ & Hsd & _ & _ & Hst & _).
        apply Hafter; congruence.
      * split; [exact Hs2|]. split; [simpl; rewrite Hst2; exact Hl1|].
        simpl. intros x Hx. destruct unrun as [|u unrun]; apply Hq.
        -- simpl. apply in_or_app. now right.
        -- exact Hx.
    + now apply Hafter.
Qed.

Lemma step_stoppedSince (q0 q : Queue) (e : Event) :
  stoppedSince q0 q -> stoppedSince q0 (step q e).
Proof.
  intros H. pose proof H as (Hs & Hl & Hq).
  destruct e as [k t rt|k pt rt|clock|now|i|imm t|]; simpl.
  - unfold submit. now rewrite Hs.
  - unfold submitPromiseTask, submit. now rewrite Hs.
  - unfold runCallback. destruct (runArmed q); [|exact H].
    apply runLoop_stoppedSince; auto.
  - unfold reapCallback. destruct (reapArmed q); [|exact H].
    unfold reap, reapSweep.
    generalize (map_to_list (runningTasks q)). intros l.
    revert q H Hs Hl Hq. induction l as [|[k rt] l IH]; intros q H Hs Hl Hq; simpl;
      [exact H|].
    assert (H' : stoppedSince q0
                   (match expiration rt with
                    | Some e0 => if e0 - now <=? 0
                                 then removeRunningTask q k (id rt) else q
                    | None => q
                    end)).
    { destruct (expiration rt) as [e|]; [|exact H].
      destruct (e - now <=? 0); [|exact H].
      destruct (removeRunningTask_fields q k (id rt))
        as (_ & _ & _ & _ & Hsd & _ & _ & Hst & Hqu & _).
      now apply (stoppedSince_fields q0 q). }
    pose proof H' as (Hs' & Hl' & Hq'). now apply IH.
  - unfold continuation. destruct (started q !! i) as [s|]; [|exact H].
    destruct (completesLater (task (st_item s))); [|exact H].
    destruct (removeRunningTask_fields q (key (st_item s)) (st_id s))
      as (_ & _ & _ & _ & Hsd & _ & _ & Hst & Hqu & _).
    now apply (stoppedSince_fields q0 q).
  - unfold stop. now rewrite Hs.
  - unfold stopTimerCallback. destruct (stopTimerArmed q); [|exact H].
    now apply (stoppedSince_fields q0 q).
Qed.

Lemma steps_stoppedSince (q0 q : Queue) (es : list Event) :
  stoppedSince q0 q -> stoppedSince q0 (steps q es).
Proof.
  revert q. induction es as [|e es IH]; intros q H; simpl; [exact H|].
  apply IH. now apply step_stoppedSince.
Qed.

End QueueStop.

Section QueueStopResults.
Import AsyncOpQueue.

(** X12.  After [stop] the queue stays shut down whatever happens next:
    submissions are dropped, so every task started later, and every task
    still waiting, was already waiting when [stop] was called. *)
Theorem stop_refuses_new_tasks (q : Queue) (immediately : bool)
    (timeout : option Z) (es : list Event) :
  let q' := steps (stop q immediately timeout) es in
  shutdown q' = true /\
  (exists later, started q' = (started q ++ later)%list /\
                 Forall (fun s => In (st_item s) (queue q)) later) /\
  (forall x, In x (queue q') -> In x (queue q)).
Proof.
  apply (steps_stoppedSince q (stop q immediately timeout) es).
  unfold stop. destruct (shutdown q) eqn:Hs.
  - split; [exact Hs|]. split; [|auto]. exists []. split; [now rewrite app_nil_r|constructor].
  - split; [reflexivity|]. split; [|auto].
    exists []. split; [simpl; now rewrite app_nil_r|constructor].
Qed.

(** A queue that was told to stop at once. *)
Definition halted (l : list Started) (q : Queue) : Prop :=
  shutdown q = true /\ shutdownImmediately q = true /\ started q = l.

Lemma halted_fields (l : list Started) (q q' : Queue) :
  shutdown q' = shutdown q -> shutdownImmediately q' = shutdownImmediately q ->
  started q' = started q -> halted l q -> halted l q'.
Proof. unfold halted. intros -> -> ->. auto. Qed.

Lemma finishRun_halted (l : list Started) (q : Queue) (items : list QueueItem) :
  halted l q -> halted l (finishRun q items).
Proof.
  intros H. unfold finishRun.
  repeat match goal with
         | |- context [if ?b then _ else _] => destruct b
         end; exact H.
Qed.

Lemma step_halted (l : list Started) (q : Queue) (e : Event) :
  halted l q -> halted l (step q e).
Proof.
  intros H. pose proof H as (Hs & Hi & Hl).
  destruct e as [k t rt|k pt rt|clock|now|i|imm t|]; simpl.
  - unfold submit. now rewrite Hs.
  - unfold submitPromiseTask, submit. now rewrite Hs.
  - unfold runCallback. destruct (runArmed q); [|exact H].
    destruct (queue q) as [|x rest]; cbn [runLoop].
    + now apply finishRun_halted.
    + change (shutdownImmediately (set_runArmed q false)) with (shutdownImmediately q).
      rewrite Hi, andb_false_r. now apply finishRun_halted.
  - unfold reapCallback. destruct (reapArmed q); [|exact H].
    unfold reap, reapSweep.
    generalize (map_to_list (runningTasks q)). intros m.
    revert q H Hs Hi Hl. induction m as [|[k rt] m IH]; intros q H Hs Hi Hl; simpl;
      [exact H|].
    assert (H' : halted l
                   (match expiration rt with
                    | Some e0 => if e0 - now <=? 0
                                 then removeRunningTask q k (id rt) else q
                    | None => q
                    end)).
    { destruct (expiration rt) as [e|]; [|exact H].
      destruct (e - now <=? 0); [|exact H].
      destruct (removeRunningTask_fields q k (id rt))
        as (_ & _ & _ & Him & Hsd & _ & _ & Hst & _).
      now apply (halted_fields l q). }
    pose proof H' as (Hs' & Hi' & Hl'). now apply IH.
  - unfold continuation. destruct (started q !! i) as [s|]; [|exact H].
    destruct (completesLater (task (st_item s))); [|exact H].
    destruct (removeRunningTask_fields q (key (st_item s)) (st_id s))
      as (_ & _ & _ & Him & Hsd & _ & _ & Hst & _).
    now apply (halted_fields l q).
  - unfold stop. now rewrite Hs.
  - unfold stopTimerCallback. destruct (stopTimerArmed q); [|exact H].
    split; [exact Hs|]. split; [reflexivity|exact Hl].
Qed.

(** X13.  Once the queue is shut down with [shutdownImmediately] set (by
    [stop(true)], or by the timer of [stop(false, timeout)]), no task is
    started any more, whatever is submitted and however often the dispatch
    callback, the reaper and the completions run. *)
Theorem immediate_stop_starts_nothing (q : Queue) (es : list Event) :
  shutdown q = true -> shutdownImmediately q = true ->
  started (steps q es) = started q.
Proof.
  intros Hs Hi.
  assert (H : halted (started q) q) by (now split).
  revert H. generalize (started q). intros l. revert q Hs Hi.
  induction es as [|e es IH]; intros q _ _ H; simpl; [apply H|].
  pose proof (step_halted l q e H) as H'.
  apply IH; [apply H'|apply H'|exact H'].
Qed.

Lemma immediate_stop_starts_nothing_witness :
  let q := stop (steps (constructor (mkOptions None None None None))
                   [ESubmit "key1" (userTask 1) None; ESubmit "key2" (userTask 2) None])
             true None in
  let es := [ESubmit "key3" (userTask 3) None; ERun (fun _ => 0); EReap 10;
             ERun (fun _ => 20)] in
  (shutdown q = true /\ shutdownImmediately q = true) /\
  length (queue q) = 2%nat /\
  started (steps q es) = started q.
Proof.
  split; [split; reflexivity|]. split; [reflexivity|].
  apply (immediate_stop_starts_nothing
           (stop (steps (constructor (mkOptions None None None None))
                    [ESubmit "key1" (userTask 1) None; ESubmit "key2" (userTask 2) None])
              true None)
           [ESubmit "key3" (userTask 3) None; ERun (fun _ => 0); EReap 10;
            ERun (fun _ => 20)]); reflexivity.
Defined.

End QueueStopResults.

Section QueueRunIdGuard.
Import AsyncOpQueue.

(** X14.  The run id guards the running-task table: when the completion
    callback of the task started with run id [i] fires although the entry of
    its key is gone or belongs to a task started later (the task had timed
    out), nothing changes.  The newer task keeps the key. *)
Theorem stale_completion_is_ignored (options : AsyncOpQueueOptions)
    (es0 : list Event) (i : nat) (s : Started) :
  let q := steps (constructor options) es0 in
  started q !! i = Some s ->
  (forall rt, runningTasks q !! key (st_item s) = Some rt -> id rt <> i) ->
  step q (EComplete i) = q.
Proof.
  intros q Hs Hentry. simpl. unfold continuation. rewrite Hs.
  destruct (completesLater (task (st_item s))); [|reflexivity].
  destruct (steps_idsInvariant (constructor options) es0
              (constructor_idsInvariant options)) as [_ Hids].
  rewrite (Hids i s Hs). unfold removeRunningTask.
  destruct (runningTasks q !! key (st_item s)) as [rt|] eqn:E; [|reflexivity].
  destruct (Nat.eqb_spec (id rt) i) as [Ei|_]; [|reflexivity].
  now elim (Hentry rt eq_refl).
Qed.

Lemma stale_completion_is_ignored_witness :
  let q := steps (constructor (mkOptions None (Some 100) None None))
             [ESubmit "k" (userTask 1) None; ESubmit "k" (userTask 2) None;
              ERun (fun _ => 0); ERun (fun _ => 100)] in
  runningTasks q !! "k" = Some (mkRunningTask (Some 200) 1) /\
  step q (EComplete 0%nat) = q.
Proof.
  split; [reflexivity|].
  apply (stale_completion_is_ignored (mkOptions None (Some 100) None None)
           [ESubmit "k" (userTask 1) None; ESubmit "k" (userTask 2) None;
            ERun (fun _ => 0); ERun (fun _ => 100)] 0%nat
           (mkStarted 0 (mkQueueItem "k" (userTask 1) (Some 100)))).
  - reflexivity.
  - intros rt E. vm_compute in E. injection E as <-. simpl. lia.
Defined.

End QueueRunIdGuard.

Section QueueReaper.
Import AsyncOpQueue.

(** [runningTask.expiration !== undefined &&
     runningTask.expiration - currentTime <= 0]. *)
Definition expiredAt (currentTime : Z) (rt : RunningTask) : bool :=
  match expiration rt with
  | Some e => e - currentTime <=? 0
  | None => false
  end.

Lemma sweep_lookup (currentTime : Z) (l : list (string * RunningTask)) :
  forall q : Queue,
    NoDup (map fst l) ->
    (forall k rt, In (k, rt) l -> runningTasks q !! k = Some rt) ->
    let q' := fold_left
      (fun q' (entry : string * RunningTask) =>
         let (key, runningTask) := entry in
         match expiration runningTask with
         | Some e => if e - currentTime <=? 0
                     then removeRunningTask q' key (id runningTask) else q'
         | None => q'
         end) l q in
    forall k,
      (~ In k (map fst l) -> runningTasks q' !! k = runningTasks q !! k) /\
      (forall rt, In (k, rt) l ->
         runningTasks q' !! k = if expiredAt currentTime rt then None else Some rt).
Proof.
  induction l as [|[k0 rt0] l IH]; intros q Hnd Hl; simpl.
  - intros k. split; [reflexivity|]. intros rt [].
  - simpl in Hnd. apply NoDup_cons in Hnd as [Hnotin Hnd].
    rewrite list_elem_of_In in Hnotin.
    set (q1 := match expiration rt0 with
               | Some e => if e - currentTime <=? 0
                           then removeRunningTask q k0 (id rt0) else q
               | None => q
               end).
    assert (E1 : runningTasks q1 =
                 if expiredAt currentTime rt0 then delete k0 (runningTasks q)
                 else runningTasks q).
    { subst q1. unfold expiredAt. destruct (expiration rt0) as [e|]; [|reflexivity].
      destruct (e - currentTime <=? 0); [|reflexivity].
      unfold removeRunningTask. rewrite (Hl k0 rt0 (or_introl eq_refl)).
      now rewrite Nat.eqb_refl. }
    assert (Hother : forall k, k <> k0 -> runningTasks q1 !! k = runningTasks q !! k).
    { intros k Hk. rewrite E1. destruct (expiredAt currentTime rt0); [|reflexivity].
      now apply lookup_delete_ne. }
    assert (Hl1 : forall k rt, In (k, rt) l -> runningTasks q1 !! k = Some rt).
    { intros k rt Hin. rewrite Hother; [apply Hl; now right|].
      intros ->. apply Hnotin. apply in_map_iff. now exists (k0, rt). }
    intros k. destruct (IH q1 Hnd Hl1 k) as [IH1 IH2]. split.
    + intros Hk. simpl in Hk. rewrite IH1 by tauto. apply Hother.
      intros ->. apply Hk. now left.
    + intros rt [E|Hin]; [|now apply IH2].
      injection E as <- <-. rewrite IH1 by exact Hnotin. rewrite E1.
      destruct (expiredAt currentTime rt0).
      * apply lookup_delete_eq.
      * apply Hl. now left.
Qed.

Lemma reapSweep_counted (d : Z) (currentTime : Z) (q : Queue) :
  countedWith d q -> countedWith d (reapSweep currentTime q).
Proof.
  unfold reapSweep. generalize (map_to_list (runningTasks q)). intros l.
  revert q. induction l as [|[k rt] l IH]; intros q H; simpl; [exact H|].
  apply IH. destruct (expiration rt) as [e|]; [|exact H].
  destruct (e - currentTime <=? 0); [|exact H].
  now apply removeRunningTask_counted.
Qed.

(** X15.  A sweep of the reaper evicts exactly the entries whose expiration
    is at or before the time read at its start; entries without an
    expiration and entries that expire later stay, and [runCount] drops by
    the number of entries evicted. *)
Theorem reaper_evicts_exactly_the_expired (currentTime : Z) (q : Queue) :
  (forall k,
     runningTasks (reapSweep currentTime q) !! k =
     match runningTasks q !! k with
     | Some rt => if expiredAt currentTime rt then None else Some rt
     | None => None
     end) /\
  runCount q - runCount (reapSweep currentTime q) =
  Z.of_nat (runningEntries q) - Z.of_nat (runningEntries (reapSweep currentTime q)).
Proof.
  split.
  - intros k. unfold reapSweep.
    destruct (sweep_lookup currentTime (map_to_list (runningTasks q)) q) with (k := k)
      as [H1 H2].
    + apply NoDup_fst_map_to_list.
    + intros k' rt Hin. apply elem_of_map_to_list. now apply list_elem_of_In.
    + destruct (runningTasks q !! k) as [rt|] eqn:E.
      * apply H2. apply list_elem_of_In. now apply elem_of_map_to_list.
      * apply H1. intros Hin. apply in_map_iff in Hin as ([k' rt] & Ek & Hin).
        simpl in Ek. subst k'. apply list_elem_of_In, elem_of_map_to_list in Hin.
        congruence.
  - assert (H : countedWith (Z.of_nat (runningEntries q) - runCount q) q).
    { unfold countedWith. lia. }
    apply (reapSweep_counted _ currentTime) in H. unfold countedWith in H. lia.
Qed.

End QueueReaper.

Section QueueExclusion.
Import AsyncOpQueue.

Lemma step_busy_uncompleted (k : string) (rt0 : RunningTask)
    (before : list Started) (q : Queue) (ev : Event) :
  (forall j s, before !! j = Some s -> st_id s = j) ->
  ev <> EComplete (id rt0) ->
  (forall e, expiration rt0 = Some e -> clockBefore e ev) ->
  busy k rt0 before q -> busy k rt0 before (step q ev).
Proof.
  intros Hids Hev Hclock H.
  destruct ev as [k' t rt|k' pt rt|clock|now|i|imm t|]; simpl.
  - unfold submit. destruct (shutdown q); exact H.
  - unfold submitPromiseTask, submit. destruct (shutdown q); exact H.
  - unfold runCallback. destruct (runArmed q); [|exact H].
    apply runLoop_busy; [exact Hclock|exact H].
  - unfold reapCallback. destruct (reapArmed q); [|exact H].
    apply (reapSweep_busy k rt0 before now) in H; [exact H|exact Hclock].
  - unfold continuation. destruct (started q !! i) as [s|] eqn:Es; [|exact H].
    destruct (completesLater (task (st_item s))); [|exact H].
    destruct (String.eqb_spec (key (st_item s)) k) as [Ek|Hne];
      [|now apply removeRunningTask_busy].
    destruct H as [Hl (later & E & Hall)].
    assert (Hbefore : before !! i = Some s).
    { rewrite E in Es. apply lookup_app_Some in Es as [Es|[_ Es]]; [exact Es|].
      rewrite Forall_forall in Hall. exfalso.
      apply (Hall s); [|exact Ek]. eapply list_elem_of_lookup_2. exact Es. }
    rewrite Ek, (Hids i s Hbefore).
    assert (Hi : id rt0 <> i) by (intros Ei; apply Hev; now rewrite Ei).
    rewrite (removeRunningTask_other_id k rt0 q i Hl Hi). split; [exact Hl|eauto].
  - unfold stop. destruct (shutdown q); exact H.
  - unfold stopTimerCallback. destruct (stopTimerArmed q); exact H.
Qed.

Lemma steps_busy_uncompleted (k : string) (rt0 : RunningTask)
    (before : list Started) (q : Queue) (es : list Event) :
  (forall j s, before !! j = Some s -> st_id s = j) ->
  ~ In (EComplete (id rt0)) es ->
  (forall e, expiration rt0 = Some e -> Forall (clockBefore e) es) ->
  busy k rt0 before q -> busy k rt0 before (steps q es).
Proof.
  intros Hids. revert q.
  induction es as [|ev es IH]; intros q Hnot Hclock H; simpl; [exact H|].
  apply IH.
  - intros Hin. apply Hnot. now right.
  - intros e He. specialize (Hclock e He). now inversion Hclock.
  - apply step_busy_uncompleted; auto.
    + intros ->. apply Hnot. now left.
    + intros e He. specialize (Hclock e He). now inversion Hclock.
Qed.

(** X16.  Exclusion per key: while the task that holds key [k] has neither
    called its completion callback nor reached its expiration, its entry
    stays in the running-task table and no other task of key [k] is started,
    whatever else is submitted, dispatched, completed or reaped. *)
Theorem running_task_excludes_same_key (options : AsyncOpQueueOptions)
    (es0 es : list Event) (k : string) (rt : RunningTask) :
  let q := steps (constructor options) es0 in
  runningTasks q !! k = Some rt ->
  ~ In (EComplete (id rt)) es ->
  (forall e, expiration rt = Some e -> Forall (clockBefore e) es) ->
  let q' := steps q es in
  runningTasks q' !! k = Some rt /\
  exists later, started q' = (started q ++ later)%list /\
                Forall (fun s => key (st_item s) <> k) later.
Proof.
  intros q Hentry Hnot Hclock q'.
  destruct (steps_idsInvariant (constructor options) es0
              (constructor_idsInvariant options)) as [_ Hids].
  fold q in Hids.
  apply (steps_busy_uncompleted k rt (started q) q es); auto.
  split; [exact Hentry|]. exists []. split; [now rewrite app_nil_r|constructor].
Qed.

Lemma running_task_excludes_same_key_witness :
  let options := mkOptions None (Some 100) None None in
  let es0 := [ESubmit "k" (userTask 1) None; ERun (fun _ => 0)] in
  let es := [ESubmit "k" (userTask 2) None; ESubmit "j" (userTask 3) None;
             ERun (fun _ => 50); EReap 99; EComplete 1%nat; ERun (fun _ => 99)] in
  let q := steps (constructor options) es0 in
  let q' := steps q es in
  runningTasks q' !! "k" = Some (mkRunningTask (Some 100) 0) /\
  exists later, started q' = (started q ++ later)%list /\
                Forall (fun s => key (st_item s) <> "k") later.
Proof.
  apply (running_task_excludes_same_key (mkOptions None (Some 100) None None)
           [ESubmit "k" (userTask 1) None; ERun (fun _ => 0)]
           [ESubmit "k" (userTask 2) None; ESubmit "j" (userTask 3) None;
            ERun (fun _ => 50); EReap 99; EComplete 1%nat; ERun (fun _ => 99)]
           "k" (mkRunningTask (Some 100) 0)).
  - reflexivity.
  - simpl. intros [H|[H|[H|[H|[H|[H|[]]]]]]]; discriminate H.
  - intros e [= <-]. repeat constructor; simpl; intros; lia.
Defined.

End QueueExclusion.

Section QueueOrderWitness.
Import AsyncOpQueue.

Lemma same_key_order_on_steady_clock_witness :
  let es := [ESubmit "k" (userTask 1) None; ESubmit "j" (userTask 2) None;
             ESubmit "k" (userTask 3) None; ERun (fun _ => 0);
             EComplete 0%nat; ESubmit "k" (userTask 4) None; ERun (fun _ => 5)] in
  let q0 := constructor (mkOptions None (Some 100) None None) in
  startOrder (steps q0 es) = [UserTask 1; UserTask 2; UserTask 3] /\
  exists notStarted,
    ofKey "k" (accepted q0 es) =
    (ofKey "k" (startedItems (steps q0 es)) ++ notStarted)%list.
Proof.
  split; [reflexivity|].
  apply (same_key_order_on_steady_clock "k" (mkOptions None (Some 100) None None)
           [ESubmit "k" (userTask 1) None; ESubmit "j" (userTask 2) None;
            ESubmit "k" (userTask 3) None; ERun (fun _ => 0);
            EComplete 0%nat; ESubmit "k" (userTask 4) None; ERun (fun _ => 5)]).
  repeat constructor.
Defined.

End QueueOrderWitness.

Section QueueDispatchLoop.
Import AsyncOpQueue.

Lemma runLoop_rearms (clock : nat -> Z) (items : list QueueItem) :
  forall (reads : nat) (q : Queue) (unrun ranSince : list QueueItem),
    shutdown q = false ->
    catchErrors q = true \/ Forall (fun x => throwsSync (task x) = false) items ->
    runArmed (runLoop clock reads q unrun ranSince items) = true.
Proof.
  assert (Hfinish : forall q l, shutdown q = false -> runArmed (finishRun q l) = true).
  { intros q l Hs. unfold finishRun. simpl. now rewrite Hs. }
  induction items as [|taskToRun rest IH]; intros reads q unrun ranSince Hs Hsafe.
  - now apply Hfinish.
  - cbn [runLoop].
    assert (Hrest : catchErrors q = true \/
                    Forall (fun x => throwsSync (task x) = false) rest).
    { destruct Hsafe as [Hc|Hall]; [now left|right]. now inversion Hall. }
    destruct ((runCount q <? maxConcurrency q) && negb (shutdownImmediately q));
      [|now apply Hfinish].
    destruct (mayRun clock reads (runningTasks q !! key taskToRun))
      as [runnable reads1].
    destruct runnable; [|now apply IH].
    destruct (newExpiration clock reads1 (runTimeout taskToRun)) as [exp reads2].
    set (k := key taskToRun). set (i := runId q).
    set (q1 := set_started (set_runningTasks (set_runId q (S i))
                  (<[k := mkRunningTask exp i]> (runningTasks q)))
                 (started q ++ [mkStarted i taskToRun])).
    set (q2 := if completesSync (task taskToRun) then removeRunningTask q1 k i else q1).
    assert (H2 : shutdown q2 = shutdown q /\ catchErrors q2 = catchErrors q).
    { subst q2. destruct (completesSync (task taskToRun)); [|now split].
      destruct (removeRunningTask_fields q1 k i) as (_ & _ & Hc & _ & Hsd & _).
      now rewrite Hc, Hsd. }
    destruct H2 as [Hs2 Hc2].
    assert (Hafter : forall q3, shutdown q3 = shutdown q -> catchErrors q3 = catchErrors q ->
              runArmed
                (runLoop clock reads2
                   (match runningTasks q !! k with
                    | None => set_runCount (set_size q3 (size q3 - 1))
                                (runCount (set_size q3 (size q3 - 1)) + 1)
                    | Some _ => set_size q3 (size q3 - 1)
                    end) unrun (ranSince ++ [taskToRun]) rest) = true).
    { intros q3 Hs3 Hc3. apply IH.
      - destruct (runningTasks q !! k); simpl; congruence.
      - destruct (runningTasks q !! k); simpl; rewrite Hc3; exact Hrest. }
    destruct (throwsSync (task taskToRun)) eqn:Ethrows.
    + destruct (catchErrors q) eqn:Ecatch.
      * destruct (removeRunningTask_fields q2 k i) as (_ & _ & Hc & _ & Hsd & _).
        apply Hafter; congruence.
      * destruct Hsafe as [Hc|Hall]; [discriminate Hc|].
        inversion Hall as [|? ? Hx _]; subst. congruence.
    + now apply Hafter.
Qed.

(** X17.  A dispatch pass of a queue that is not shut down ends with the
    next pass scheduled, provided [catchErrors] is set or none of the
    waiting tasks throws synchronously. *)
Theorem dispatch_pass_rearms (clock : nat -> Z) (q : Queue) :
  runArmed q = true -> shutdown q = false ->
  catchErrors q = true \/ Forall (fun x => throwsSync (task x) = false) (queue q) ->
  runArmed (step q (ERun clock)) = true.
Proof.
  intros Ha Hs Hsafe. simpl. unfold runCallback. rewrite Ha.
  now apply runLoop_rearms.
Qed.

Definition throwingTask (n : nat) : Task := mkTask (UserTask n) false true false.

Lemma dispatch_pass_rearms_witness :
  let q := steps (constructor (mkOptions None None None (Some true)))
             [ESubmit "a" (throwingTask 1) None; ESubmit "a" (userTask 2) None] in
  startOrder (step q (ERun (fun _ => 0))) = [UserTask 1; UserTask 2] /\
  runArmed (step q (ERun (fun _ => 0))) = true.
Proof.
  split; [reflexivity|].
  apply (dispatch_pass_rearms (fun _ => 0)
           (steps (constructor (mkOptions None None None (Some true)))
              [ESubmit "a" (throwingTask 1) None; ESubmit "a" (userTask 2) None])).
  - reflexivity.
  - reflexivity.
  - left. reflexivity.
Defined.

End QueueDispatchLoop.

Section QueueUncaughtThrow.
Import AsyncOpQueue.

(** No dispatch callback is pending. *)
Definition disarmed (l : list Started) (q : Queue) : Prop :=
  runArmed q = false /\ started q = l.

Lemma step_disarmed (l : list Started) (q : Queue) (e : Event) :
  disarmed l q -> disarmed l (step q e).
Proof.
  intros H. pose proof H as (Ha & Hl).
  destruct e as [k t rt|k pt rt|clock|now|i|imm t|]; simpl.
  - unfold submit. destruct (shutdown q); [exact H|]. now split.
  - unfold submitPromiseTask, submit. destruct (shutdown q); [exact H|]. now split.
  - unfold runCallback. now rewrite Ha.
  - unfold reapCallback. destruct (reapArmed q); [|exact H].
    unfold reap, reapSweep.
    generalize (map_to_list (runningTasks q)). intros m.
    revert q H Ha Hl. induction m as [|[k rt] m IH]; intros q H Ha Hl; simpl;
      [exact H|].
    assert (H' : disarmed l
                   (match expiration rt with
                    | Some e0 => if e0 - now <=? 0
                                 then removeRunningTask q k (id rt) else q
                    | None => q
                    end)).
    { destruct (expiration rt) as [e|]; [|exact H].
      destruct (e - now <=? 0); [|exact H].
      destruct (removeRunningTask_fields q k (id rt))
        as (_ & Hr & _ & _ & _ & _ & _ & Hst & _).
      unfold disarmed. now rewrite Hr, Hst. }
    pose proof H' as (Ha' & Hl'). now apply IH.
  - unfold continuation. destruct (started q !! i) as [s|]; [|exact H].
    destruct (completesLater (task (st_item s))); [|exact H].
    destruct (removeRunningTask_fields q (key (st_item s)) (st_id s))
      as (_ & Hr & _ & _ & _ & _ & _ & Hst & _).
    unfold disarmed. now rewrite Hr, Hst.
  - unfold stop. destruct (shutdown q); [exact H|]. now split.
  - unfold stopTimerCallback. destruct (stopTimerArmed q); [|exact H]. now split.
Qed.

Lemma steps_disarmed (l : list Started) (q : Queue) (es : list Event) :
  disarmed l q -> disarmed l (steps q es).
Proof.
  revert q. induction es as [|e es IH]; intros q H; simpl; [exact H|].
  apply IH. now apply step_disarmed.
Qed.

(** X18.  Without [catchErrors], a task that throws synchronously takes the
    dispatcher down with it: the task at the head of the queue is started,
    its exception leaves the dispatch callback before the next pass is
    scheduled, and from then on no task is ever started again. *)
Theorem uncaught_throw_halts_dispatch (clock : nat -> Z) (q : Queue)
    (x : QueueItem) (rest : list QueueItem) (es : list Event) :
  runArmed q = true -> catchErrors q = false ->
  queue q = x :: rest -> throwsSync (task x) = true ->
  runCount q < maxConcurrency q -> shutdownImmediately q = false ->
  runningTasks q !! key x = None ->
  let q' := step q (ERun clock) in
  started q' = (started q ++ [mkStarted (runId q) x])%list /\
  runArmed q' = false /\
  started (steps q' es) = started q'.
Proof.
  intros Ha Hcatch Hq Hthrows Hcount Him Hfree q'.
  assert (H : disarmed (started q ++ [mkStarted (runId q) x])%list q').
  { subst q'. simpl. unfold runCallback. rewrite Ha, Hq. cbn [runLoop].
    change (runCount (set_runArmed q false)) with (runCount q).
    change (maxConcurrency (set_runArmed q false)) with (maxConcurrency q).
    change (shutdownImmediately (set_runArmed q false)) with (shutdownImmediately q).
    change (runningTasks (set_runArmed q false)) with (runningTasks q).
    change (catchErrors (set_runArmed q false)) with (catchErrors q).
    apply Z.ltb_lt in Hcount. rewrite Hcount, Him, Hfree, Hthrows, Hcatch.
    cbn [andb negb mayRun].
    destruct (newExpiration clock 0 (runTimeout x)) as [exp reads2].
    destruct (completesSync (task x)); [|now split].
    match goal with
    | |- disarmed _ (set_queue (removeRunningTask ?q1 ?k ?i) _) =>
        destruct (removeRunningTask_fields q1 k i)
          as (_ & Hr & _ & _ & _ & _ & _ & Hst & _)
    end.
    split; [etransitivity; [exact Hr|reflexivity]
           |etransitivity; [exact Hst|reflexivity]]. }
  destruct H as [Ha' Hst']. split; [exact Hst'|]. split; [exact Ha'|].
  destruct (steps_disarmed (started q') q' es) as [_ E]; [now split|exact E].
Qed.

Lemma uncaught_throw_halts_dispatch_witness :
  let q := steps (constructor (mkOptions None None None None))
             [ESubmit "a" (throwingTask 1) None; ESubmit "b" (userTask 2) None] in
  let q' := step q (ERun (fun _ => 0)) in
  let es := [ERun (fun _ => 1); ESubmit "c" (userTask 3) None; EReap 10;
             ERun (fun _ => 20)] in
  started q' = (started q ++ [mkStarted (runId q)
                                 (mkQueueItem "a" (throwingTask 1) None)])%list /\
  runArmed q' = false /\
  started (steps q' es) = started q'.
Proof.
  apply (uncaught_throw_halts_dispatch (fun _ => 0)
           (steps (constructor (mkOptions None None None None))
              [ESubmit "a" (throwingTask 1) None; ESubmit "b" (userTask 2) None])
           (mkQueueItem "a" (throwingTask 1) None)
           [mkQueueItem "b" (userTask 2) None]
           [ERun (fun _ => 1); ESubmit "c" (userTask 3) None; EReap 10;
            ERun (fun _ => 20)]); reflexivity.
Defined.

End QueueUncaughtThrow.

(** ** More on the file-system operations (src/filesystemOps.ts) *)

Section DirectoryEntries.
Import StringUtils JsArray FilesystemOps.

(** X19.  The list returned by [getDirectoryEntries] holds exactly the
    entries found by the walk, each as often as it was found, in the order
    of the UTF-8 byte comparator on their relative paths. *)
Theorem sortDirEntries_sorted_permutation (retList : list DirEntry) :
  Permutation (sortDirEntries retList) retList /\
  StronglySorted
    (fun a b => compareStringsUtf8BinaryOrder (relativePath a) (relativePath b) <= 0)
    (sortDirEntries retList).
Proof.
  split.
  - apply arraySort_perm.
  - unfold sortDirEntries. apply arraySort_sorted.
    + intros x y. unfold compareStringsUtf8BinaryOrder.
      rewrite (Buffer_compare_antisym (relativePath x) (relativePath y)). lia.
    + intros x y z. apply Buffer_compare_trans.
Qed.

End DirectoryEntries.

Section RmdirRecursiveSafety.
Import AsyncOpQueue FilesystemOps.

(** X20.  [rmdirRecursive] never queues the removal of a file-system root:
    when it returns, each task it added to the queue is a recursive removal
    of its own key, which is neither ["/"] nor a Windows drive root; and
    called with the mirror root, spelled as in [rootDir], it adds nothing. *)
Theorem rmdirRecursive_spares_roots (o : CommonFsOptions)
    (relativeDirPath : string) (q' : Queue) :
  rmdirRecursive o relativeDirPath = Ok q' ->
  (relativeDirPath = rootDir o -> q' = fsQueue o) /\
  Forall (fun x => In x (queue (fsQueue o)) \/
                   (key x <> "/" /\ matchesWindowsRootRegex (key x) = false /\
                    effect (task x) = RmdirRecursive (key x)))
         (queue q').
Proof.
  unfold rmdirRecursive. rewrite !ensurePathEndsWithOsSeparator_appends.
  assert (Hold : Forall (fun x => In x (queue (fsQueue o)) \/
                   (key x <> "/" /\ matchesWindowsRootRegex (key x) = false /\
                    effect (task x) = RmdirRecursive (key x)))
                  (queue (fsQueue o))).
  { apply Forall_forall. intros x Hx. left. now apply list_elem_of_In. }
  destruct (String.eqb_spec (relativeDirPath ++ "/") (rootDir o ++ "/")) as [E|Hne];
    simpl negb; cbv iota.
  - intros [= <-]. split; [reflexivity|exact Hold].
  - set (rmDirPath := Path.resolve (cwd o) [rootDir o; relativeDirPath]).
    destruct (String.eqb_spec rmDirPath "/") as [Eroot|Hroot]; [discriminate|].
    destruct (matchesWindowsRootRegex rmDirPath) eqn:Edrive; [discriminate|].
    simpl orb. cbv iota. intros [= <-]. split.
    + intros ->. now elim Hne.
    + unfold submitPromiseTask, submit. destruct (shutdown (fsQueue o)); [exact Hold|].
      simpl. apply Forall_app. split; [exact Hold|].
      constructor; [|constructor]. right. simpl.
      split; [exact Hroot|]. split; [exact Edrive|].
      unfold promiseWrapper. simpl. now destruct (fsOutcome o).
Qed.

Lemma rmdirRecursive_spares_roots_witness :
  let o := mkFsOptions sampleQueue "/mir" "/" (ReturnsPromise Resolves) in
  exists q',
    rmdirRecursive o "dir2/" = Ok q' /\
    map key (queue q') = ["/mir/dir2"] /\
    Forall (fun x => In x (queue (fsQueue o)) \/
                     (key x <> "/" /\ matchesWindowsRootRegex (key x) = false /\
                      effect (task x) = RmdirRecursive (key x)))
           (queue q').
Proof.
  intros o.
  exists (submitPromiseTask sampleQueue "/mir/dir2"
            (mkPromiseTask (RmdirRecursive "/mir/dir2") (ReturnsPromise Resolves)) None).
  split; [reflexivity|]. split; [reflexivity|].
  apply (rmdirRecursive_spares_roots o "dir2/"). reflexivity.
Defined.

End RmdirRecursiveSafety.

(** ** More on the reconciliation loop (src/sync.ts) *)

Section SyncCalls.
Import StringUtils JsString KeyAndPathUtils S3Utils FilesystemOps Sync.

Variable s3List : list S3ListObj.
Variable dirEntries : list DirEntry.
Variable remove : bool.

(** Where a call of the reconciler comes from: a write is the download of a
    listed object; a file of the local tree is unlinked and a directory is
    removed recursively, and only when [remove] is set. *)
Definition callFrom (c : Call) : Prop :=
  match c with
  | CallWriteS3Object k tk =>
      exists o, In o s3List /\ k = Key o /\ tk = transformedKey o
  | CallUnlinkFile p =>
      remove = true /\ checkKeyOrPathIsDirectory p = false /\
      exists d, In d dirEntries /\ p = relativePath d
  | CallRmdirRecursive p =>
      remove = true /\ checkKeyOrPathIsDirectory p = true /\
      exists d, In d dirEntries /\ p = relativePath d
  end.

Lemma calls_getNextDirEntryAfterRemovedDir (p : string) (st : State) :
  calls (getNextDirEntryAfterRemovedDir dirEntries p st) = calls st.
Proof.
  unfold getNextDirEntryAfterRemovedDir.
  now destruct (skipRemovedDir p (drop (dirEntPos st) dirEntries) (dirEntPos st)).
Qed.

Lemma loopBody_calls (st : State) :
  aligned s3List dirEntries st ->
  Forall callFrom (calls st) ->
  Forall callFrom (calls (loopBody s3List dirEntries remove st)).
Proof.
  intros (_ & Hd & _ & Ho) Hcalls.
  assert (Hwrite : forall o, s3ListObj st = Some o ->
            Forall callFrom (calls st ++ [CallWriteS3Object (Key o) (transformedKey o)])).
  { intros o Eo. apply Forall_app. split; [exact Hcalls|].
    constructor; [|constructor]. exists o. split; [|auto].
    rewrite Eo in Ho. symmetry in Ho. apply list_elem_of_In.
    eapply list_elem_of_lookup_2. exact Ho. }
  assert (Hin : forall d, dirEntry st = Some d -> In d dirEntries).
  { intros d Ed. rewrite Ed in Hd. symmetry in Hd. apply list_elem_of_In.
    eapply list_elem_of_lookup_2. exact Hd. }
  assert (Hunlink : forall d, dirEntry st = Some d -> remove = true ->
            checkKeyOrPathIsDirectory (relativePath d) = false ->
            Forall callFrom (calls st ++ [CallUnlinkFile (relativePath d)])).
  { intros d Ed Hr Hf. apply Forall_app. split; [exact Hcalls|].
    constructor; [|constructor]. simpl.
    split; [exact Hr|]. split; [exact Hf|]. exists d. split; [now apply Hin|reflexivity]. }
  assert (Hrmdir : forall d, dirEntry st = Some d -> remove = true ->
            checkKeyOrPathIsDirectory (relativePath d) = true ->
            Forall callFrom (calls st ++ [CallRmdirRecursive (relativePath d)])).
  { intros d Ed Hr Hf. apply Forall_app. split; [exact Hcalls|].
    constructor; [|constructor]. simpl.
    split; [exact Hr|]. split; [exact Hf|]. exists d. split; [now apply Hin|reflexivity]. }
  unfold loopBody. cbv zeta.
  destruct (dirEntry st) as [d|] eqn:Ed, (s3ListObj st) as [o|] eqn:Eo;
    [| | |exact Hcalls];
    destruct remove eqn:Er;
    try destruct (checkKeyOrPathIsDirectory (relativePath d)) eqn:Edir;
    cbn [negb andb];
    repeat match goal with
           | |- context [if ?b then _ else _] => destruct b
           end;
    rewrite ?calls_getNextDirEntryAfterRemovedDir; simpl;
    first [exact Hcalls | now apply Hwrite | now apply Hunlink | now apply Hrmdir].
Qed.

Lemma loop_calls (fuel : nat) (st st' : State) :
  aligned s3List dirEntries st ->
  Forall callFrom (calls st) ->
  loop s3List dirEntries remove fuel st = Some st' ->
  Forall callFrom (calls st').
Proof.
  revert st. induction fuel as [|fuel IH]; intros st Hal Hcalls; simpl;
    destruct (loopCondition st); try discriminate;
    try (intros [= <-]; exact Hcalls).
  apply IH; [now apply loopBody_aligned|now apply loopBody_calls].
Qed.

End SyncCalls.

Section SyncResults.
Import StringUtils JsString KeyAndPathUtils S3Utils FilesystemOps Sync.

(** X21.  Every reconciliation ends, and each call it makes is a download
    of an object of the remote list, the unlinking of a file of the local
    tree or the recursive removal of a directory of the local tree; the
    last two are made only when [remove] is set. *)
Theorem sync_calls_come_from_the_lists (s3List : list S3ListObj)
    (dirEntries : list DirEntry) (remove : bool) :
  exists cs, sync s3List dirEntries remove = Some cs /\
             Forall (callFrom s3List dirEntries remove) cs.
Proof.
  destruct (sync_total s3List dirEntries remove) as [cs E].
  exists cs. split; [exact E|].
  unfold sync in E.
  destruct (loop s3List dirEntries remove _ _) as [st'|] eqn:El; [|discriminate].
  injection E as <-.
  eapply loop_calls; [| |exact El].
  - apply initialState_aligned.
  - constructor.
Qed.

End SyncResults.

Section SyncSpecialCases.
Import StringUtils JsString KeyAndPathUtils S3Utils FilesystemOps Sync.

Definition download (o : S3ListObj) : Call :=
  CallWriteS3Object (Key o) (transformedKey o).

Lemma loop_empty_tree (s3List : list S3ListObj) (remove : bool)
    (rest : list S3ListObj) :
  forall (n fuel dp : nat) (cs : list Call),
    drop n s3List = rest -> (length rest <= fuel)%nat ->
    option_map calls
      (loop s3List [] remove fuel (mkState dp (S n) None (s3List !! n) cs)) =
    Some (cs ++ map download rest)%list.
Proof.
  induction rest as [|o rest IH]; intros n fuel dp cs Hdrop Hfuel.
  - assert (E : s3List !! n = None).
    { apply lookup_ge_None. apply (f_equal length) in Hdrop.
      rewrite length_drop in Hdrop. simpl in Hdrop. lia. }
    rewrite E. destruct fuel; simpl; now rewrite app_nil_r.
  - assert (E : s3List !! n = Some o).
    { rewrite <- (Nat.add_0_r n), <- lookup_drop, Hdrop. reflexivity. }
    assert (Hdrop' : drop (S n) s3List = rest).
    { replace (S n) with (n + 1)%nat by lia.
      rewrite <- drop_drop, Hdrop. reflexivity. }
    rewrite E. destruct fuel as [|fuel]; [simpl in Hfuel; lia|].
    cbn [loop loopCondition dirEntry s3ListObj].
    change (loopBody s3List [] remove (mkState dp (S n) None (Some o) cs))
      with (mkState dp (S (S n)) None (s3List !! S n) (cs ++ [download o])).
    rewrite (IH (S n) fuel dp (cs ++ [download o])%list Hdrop'); [|simpl in Hfuel; lia].
    now rewrite <- app_assoc.
Qed.

(** X22.  Against an empty local tree the reconciliation downloads every
    object of the remote list, once each and in list order, and does nothing
    else. *)
Theorem sync_into_empty_tree (s3List : list S3ListObj) (remove : bool) :
  sync s3List [] remove = Some (map download s3List).
Proof.
  unfold sync.
  change (initialState s3List []) with (mkState 1 1 None (s3List !! 0%nat) []).
  apply (loop_empty_tree s3List remove s3List 0 _ 1 []); [reflexivity|simpl; lia].
Qed.

(** The local entry mirrors the remote object: same path, and for a file
    the same size and a modification time that is not older. *)
Definition upToDate (d : DirEntry) (o : S3ListObj) : Prop :=
  relativePath d = transformedKey o /\
  (checkKeyOrPathIsDirectory (relativePath d) = true \/
   (LastModified o <= mtime (stats d) /\ Size o = size (stats d))).

Lemma loop_up_to_date (s3List : list S3ListObj) (dirEntries : list DirEntry)
    (remove : bool) :
  Forall2 upToDate dirEntries s3List ->
  forall (k n fuel : nat),
    (length dirEntries - n <= k)%nat -> (k <= fuel)%nat ->
    option_map calls
      (loop s3List dirEntries remove fuel
         (mkState (S n) (S n) (dirEntries !! n) (s3List !! n) [])) = Some [].
Proof.
  intros Hall. induction k as [|k IH]; intros n fuel Hk Hfuel.
  - assert (Ed : dirEntries !! n = None) by (apply lookup_ge_None; lia).
    assert (Eo : s3List !! n = None).
    { apply lookup_ge_None. rewrite <- (Forall2_length _ _ _ Hall). lia. }
    rewrite Ed, Eo. now destruct fuel.
  - destruct (dirEntries !! n) as [d|] eqn:Ed.
    + destruct (Forall2_lookup_l _ _ _ _ _ Hall Ed) as (o & Eo & Hpath & Hfresh).
      rewrite Eo. destruct fuel as [|fuel]; [lia|].
      cbn [loop loopCondition dirEntry s3ListObj].
      assert (Ebody : loopBody s3List dirEntries remove
                        (mkState (S n) (S n) (Some d) (Some o) []) =
                      mkState (S (S n)) (S (S n))
                        (dirEntries !! S n) (s3List !! S n) []).
      { unfold loopBody. cbn [dirEntry s3ListObj]. cbv zeta.
        unfold compareStringsUtf8BinaryOrder. rewrite Hpath, Buffer_compare_refl.
        change (0 =? -1) with false. change (0 =? 0) with true. cbv iota.
        rewrite <- Hpath.
        assert (Eskip : negb (checkKeyOrPathIsDirectory (relativePath d)) &&
                        ((mtime (stats d) <? LastModified o) ||
                         negb (Size o =? size (stats d))) = false).
        { destruct Hfresh as [->|[Hm Hs]]; [reflexivity|].
          apply andb_false_iff. right. apply orb_false_iff. split.
          - apply Z.ltb_ge. exact Hm.
          - apply negb_false_iff, Z.eqb_eq. exact Hs. }
        rewrite Eskip. reflexivity. }
      rewrite Ebody. apply (IH (S n) fuel); lia.
    + assert (Eo : s3List !! n = None).
      { apply lookup_ge_None. rewrite <- (Forall2_length _ _ _ Hall).
        apply lookup_ge_None. exact Ed. }
      rewrite Eo. now destruct fuel.
Qed.

(** X23.  When every local entry mirrors the remote object at the same
    position of the list (same path, and for files the same size and a
    modification time that is not older), the reconciliation makes no call
    at all. *)
Theorem sync_of_up_to_date_tree (s3List : list S3ListObj)
    (dirEntries : list DirEntry) (remove : bool) :
  Forall2 upToDate dirEntries s3List ->
  sync s3List dirEntries remove = Some [].
Proof.
  intros Hall. unfold sync.
  change (initialState s3List dirEntries)
    with (mkState 1 1 (dirEntries !! 0%nat) (s3List !! 0%nat) []).
  apply (loop_up_to_date s3List dirEntries remove Hall (length dirEntries) 0); lia.
Qed.

Lemma sync_of_up_to_date_tree_witness :
  let s3List := [mkS3ListObj "a.txt" "a.txt" 50 7; mkS3ListObj "/dir/" "dir/" 60 0;
                 mkS3ListObj "dir/b.txt" "dir/b.txt" 70 9] in
  let dirEntries := [file "a.txt" 50 7; file "dir/" 10 4096; file "dir/b.txt" 80 9] in
  sync s3List dirEntries true = Some [].
Proof.
  apply (sync_of_up_to_date_tree
           [mkS3ListObj "a.txt" "a.txt" 50 7; mkS3ListObj "/dir/" "dir/" 60 0;
            mkS3ListObj "dir/b.txt" "dir/b.txt" 70 9]
           [file "a.txt" 50 7; file "dir/" 10 4096; file "dir/b.txt" 80 9] true).
  repeat constructor; simpl; lia.
Defined.

End SyncSpecialCases.

(** ** More on the SNS endpoint (src/snsServer.ts) *)

Section NotificationCalls.
Import JsString S3ObjectOps FilesystemOps SnsServer.

Variable options : ListenerOptions.






End NotificationCalls.

Section RequestOutcomes.
Import FilesystemOps SnsServer.

Variable parseBody : string -> Result Body.
Variable parseMessage : string -> Result (option (list S3Record)).
Variable validate : Body -> Result Body.
Variable snsNotificationListener : option (list S3Record) -> list Call * Result unit.
Variable ignoreMessageValidation : bool.

Let handle (chunks : string) : Handled :=
  requestListener parseBody parseMessage validate snsNotificationListener
    ignoreMessageValidation chunks.



(** X26.  The listener touches the mirror or the SNS service only for a
    body that parsed and, unless validation is switched off, passed the
    signature validation: file-system calls come from a [Notification]
    whose message mentions ["Records"] and parsed, and are those of the
    notification listener; a subscription is confirmed only for a
    [SubscriptionConfirmation], with its own token and topic. *)
Theorem side_effects_only_after_validation (chunks : string) :
  fsCalls (handle chunks) <> [] \/ snsCalls (handle chunks) <> [] ->
  exists body validated,
    parseBody chunks = Ok body /\
    (if ignoreMessageValidation then validated = body
     else validate body = Ok validated) /\
    ((Type_ validated = "Notification" /\ snsCalls (handle chunks) = [] /\
      exists m records,
        Message validated = Some m /\ contains "Records" m = true /\
        parseMessage m = Ok records /\
        fsCalls (handle chunks) = fst (snsNotificationListener records)) \/
     (Type_ validated = "SubscriptionConfirmation" /\ fsCalls (handle chunks) = [] /\
      snsCalls (handle chunks) =
        [ConfirmSubscriptionCommand (Token validated) (TopicArn validated)])).
Proof.
  unfold handle, requestListener, validateMessage.
  destruct (parseBody chunks) as [body|msg] eqn:Ep;
    [|simpl; intros [H|H]; now elim H].
  assert (Hon : forall validated,
            fsCalls (onValidated parseMessage snsNotificationListener validated) <> [] \/
            snsCalls (onValidated parseMessage snsNotificationListener validated) <> [] ->
            (Type_ validated = "Notification" /\
             snsCalls (onValidated parseMessage snsNotificationListener validated) = [] /\
             exists m records,
               Message validated = Some m /\ contains "Records" m = true /\
               parseMessage m = Ok records /\
               fsCalls (onValidated parseMessage snsNotificationListener validated) =
                 fst (snsNotificationListener records)) \/
            (Type_ validated = "SubscriptionConfirmation" /\
             fsCalls (onValidated parseMessage snsNotificationListener validated) = [] /\
             snsCalls (onValidated parseMessage snsNotificationListener validated) =
               [ConfirmSubscriptionCommand (Token validated) (TopicArn validated)])).
  { intros validated. unfold onValidated, respond, reject.
    destruct (String.eqb_spec (Type_ validated) "SubscriptionConfirmation") as [Es|_].
    - intros _. right. simpl. auto.
    - destruct (String.eqb_spec (Type_ validated) "Notification") as [En|_];
        [|simpl; intros [H|H]; now elim H].
      destruct (Message validated) as [m|] eqn:Em; [|simpl; intros [H|H]; now elim H].
      destruct (contains "Records" m) eqn:Ec; [|simpl; intros [H|H]; now elim H].
      destruct (parseMessage m) as [records|err] eqn:Epm;
        [|simpl; intros [H|H]; now elim H].
      intros _. left. split; [exact En|].
      destruct (snsNotificationListener records) as [fs [u|err]] eqn:El; simpl;
        (split; [reflexivity|]); exists m, records; rewrite El; auto. }
  destruct ignoreMessageValidation.
  - intros H. exists body, body. split; [reflexivity|]. split; [reflexivity|].
    now apply Hon.
  - destruct (validate body) as [validated|err] eqn:Ev;
      [|simpl; intros [H|H]; now elim H].
    intros H. exists body, validated. split; [reflexivity|]. split; [exact Ev|].
    now apply Hon.
Qed.

End RequestOutcomes.

Section RequestOutcomesWitness.
Import FilesystemOps SnsServer.

Lemma side_effects_only_after_validation_witness :
  let body := mkBody "Notification" "" "arn:aws:sns:topic" (Some "{Records: [...]}") in
  let records := Some [sampleRecord "2.1" "ObjectCreated:Put" "a.txt"] in
  let handled :=
    requestListener (fun _ => Ok body) (fun _ => Ok records) (fun b => Ok b)
      (defaultSnsNotificationListener sampleOptions) false "{...}" in
  fsCalls handled = [CallWriteS3Object "a.txt" "a.txt"] /\
  exists validated, Type_ validated = "Notification" /\ snsCalls handled = [].
Proof.
  intros body records handled. split; [reflexivity|].
  destruct (side_effects_only_after_validation
              (fun _ => Ok body) (fun _ => Ok records) (fun b => Ok b)
              (defaultSnsNotificationListener sampleOptions) false "{...}")
    as (parsed & validated & _ & _ & [(Htype & Hsns & _)|(_ & Hfs & _)]).
  - left. vm_compute. discriminate.
  - exists validated. split; [exact Htype|exact Hsns].
  - vm_compute in Hfs. discriminate Hfs.
Defined.

End RequestOutcomesWitness.

(** ** Shutdown hooks (src/shutdown.ts) *)

Section ShutdownHooks.
Import Shutdown.

(** The list without the first occurrence of [hook]. *)
Fixpoint withoutFirst (hook : ShutdownHook) (handlers : list ShutdownHook)
    : list ShutdownHook :=
  match handlers with
  | [] => []
  | h :: rest => if Nat.eqb hook h then rest else h :: withoutFirst hook rest
  end.

Lemma splice1_middle (pre : list ShutdownHook) (h : ShutdownHook)
    (rest : list ShutdownHook) :
  splice1 (Z.of_nat (length pre)) (pre ++ h :: rest) = (pre ++ rest)%list.
Proof.
  unfold splice1. rewrite length_app. simpl length.
  destruct (Z.ltb_spec (Z.of_nat (length pre)) 0) as [Hneg|_]; [lia|].
  rewrite Z.min_l by lia. rewrite Nat2Z.id.
  induction pre as [|x pre IH]; simpl; [reflexivity|]. now rewrite IH.
Qed.

Lemma spliceIndexes_all (hook : ShutdownHook) (rest : list ShutdownHook) :
  forall (pre : list ShutdownHook) (k : Z),
    spliceIndexes (matchingIndexes hook true rest (Z.of_nat (length pre) + k)) k
      (pre ++ rest) =
    (pre ++ List.filter (fun h => negb (Nat.eqb hook h)) rest)%list.
Proof.
  induction rest as [|h rest IH]; intros pre k; [reflexivity|].
  cbn [matchingIndexes List.filter]. destruct (Nat.eqb hook h); cbn [negb].
  - cbn [spliceIndexes].
    replace (Z.of_nat (length pre) + k - k) with (Z.of_nat (length pre)) by lia.
    rewrite splice1_middle.
    replace (Z.of_nat (length pre) + k + 1) with (Z.of_nat (length pre) + (k + 1)) by lia.
    apply IH.
  - replace (Z.of_nat (length pre) + k + 1)
      with (Z.of_nat (length (pre ++ [h])) + k) by (rewrite length_app; simpl; lia).
    replace (pre ++ h :: rest)%list with ((pre ++ [h]) ++ rest)%list
      by (now rewrite <- app_assoc).
    rewrite IH. now rewrite <- app_assoc.
Qed.

Lemma spliceIndexes_first (hook : ShutdownHook) (rest : list ShutdownHook) :
  forall pre : list ShutdownHook,
    spliceIndexes (matchingIndexes hook false rest (Z.of_nat (length pre))) 0
      (pre ++ rest) =
    (pre ++ withoutFirst hook rest)%list.
Proof.
  induction rest as [|h rest IH]; intros pre; [reflexivity|].
  cbn [matchingIndexes withoutFirst]. destruct (Nat.eqb hook h).
  - cbn [spliceIndexes]. rewrite Z.sub_0_r. apply splice1_middle.
  - replace (Z.of_nat (length pre) + 1)
      with (Z.of_nat (length (pre ++ [h]))) by (rewrite length_app; simpl; lia).
    replace (pre ++ h :: rest)%list with ((pre ++ [h]) ++ rest)%list
      by (now rewrite <- app_assoc).
    rewrite IH. now rewrite <- app_assoc.
Qed.

(** X27.  [removeShutdownHook] leaves the other hooks in place and in
    order: with [removeAllMatches] it takes out every registration of the
    hook, without it only the first one. *)
Theorem removeShutdownHook_removes_matches (shutdownHandlers : list ShutdownHook)
    (hook : ShutdownHook) :
  removeShutdownHook shutdownHandlers hook true =
    List.filter (fun h => negb (Nat.eqb hook h)) shutdownHandlers /\
  removeShutdownHook shutdownHandlers hook false =
    withoutFirst hook shutdownHandlers.
Proof.
  unfold removeShutdownHook. split.
  - apply (spliceIndexes_all hook shutdownHandlers [] 0).
  - apply (spliceIndexes_first hook shutdownHandlers []).
Qed.

End ShutdownHooks.

(** ** Directory tests on keys and paths (src/utils/keyAndPathUtils.ts) *)

Section DirectoryTests.
Import JsString KeyAndPathUtils.

Lemma checkKeyOrPathIsDirectory_last (key : string) (n : nat) (c : ascii) :
  String.length key = S n -> charAt key n = Some c ->
  exists dir, key = dir ++ String c "".
Proof.
  revert n. induction key as [|a key IH]; intros n Hlen Hc; [discriminate|].
  simpl in Hlen. injection Hlen as Hlen. destruct n as [|n].
  - destruct key; [|discriminate]. simpl in Hc. injection Hc as <-. now exists "".
  - destruct (IH n Hlen Hc) as [dir ->]. now exists (String a dir).
Qed.

Lemma charAt_last (dir : string) (c : ascii) :
  String.length (dir ++ String c "") = S (String.length dir) /\
  charAt (dir ++ String c "") (String.length dir) = Some c.
Proof.
  induction dir as [|a dir [IH1 IH2]]; [split; reflexivity|].
  split; [simpl; now rewrite IH1|exact IH2].
Qed.

(** X28.  On a POSIX host [checkKeyOrPathIsDirectory] holds exactly of the
    strings that end with ['/'] (so never of the empty string), and
    [keyBelongsInCurrentDirectory] holds exactly when the key is the
    directory path followed by anything, the directory path itself
    included. *)
Theorem directory_tests_characterised (curDir key : string) :
  (checkKeyOrPathIsDirectory key = true <-> exists dir, key = dir ++ "/") /\
  (keyBelongsInCurrentDirectory curDir key = true <-> exists rest, key = curDir ++ rest).
Proof.
  split; split.
  - unfold checkKeyOrPathIsDirectory.
    destruct (String.length key) as [|n] eqn:Hlen; [discriminate|].
    destruct (charAt key n) as [c|] eqn:Hc; [|discriminate].
    destruct (Ascii.eqb_spec c "/"%char) as [->|_]; [|discriminate].
    intros _. exact (checkKeyOrPathIsDirectory_last key n "/"%char Hlen Hc).
  - intros [dir ->]. unfold checkKeyOrPathIsDirectory.
    destruct (charAt_last dir "/"%char) as [-> ->]. reflexivity.
  - apply startsWith_inv.
  - intros [rest ->]. apply startsWith_app.
Qed.

End DirectoryTests.

(** ** What a reconciliation achieves (src/sync.ts) *)

Section SyncCompleteness.
Import StringUtils JsString KeyAndPathUtils S3Utils FilesystemOps Sync.

Variable s3List : list S3ListObj.
Variable dirEntries : list DirEntry.
Variable remove : bool.

(** The remote object is taken care of: it is downloaded, or a local entry
    mirrors it already. *)
Definition settled (cs : list Call) (o : S3ListObj) : Prop :=
  In (download o) cs \/ exists d, In d dirEntries /\ upToDate d o.

(** The remote objects before the cursor are settled. *)
Definition settledBefore (st : State) : Prop :=
  forall j o, (j < s3ListPos st - 1)%nat -> s3List !! j = Some o ->
              settled (calls st) o.

Lemma s3ListPos_getNextDirEntryAfterRemovedDir (p : string) (st : State) :
  s3ListPos (getNextDirEntryAfterRemovedDir dirEntries p st) = s3ListPos st.
Proof.
  unfold getNextDirEntryAfterRemovedDir.
  now destruct (skipRemovedDir p (drop (dirEntPos st) dirEntries) (dirEntPos st)).
Qed.

Lemma settledBefore_local (st st' : State) :
  s3ListPos st' = s3ListPos st ->
  (forall c, In c (calls st) -> In c (calls st')) ->
  settledBefore st -> settledBefore st'.
Proof.
  intros Hpos Hcalls H j o Hj Ho. rewrite Hpos in Hj.
  destruct (H j o Hj Ho) as [Hin|Hup]; [left; now apply Hcalls|now right].
Qed.

Lemma settledBefore_remote (st st' : State) (o : S3ListObj) :
  aligned s3List dirEntries st ->
  s3ListObj st = Some o ->
  s3ListPos st' = S (s3ListPos st) ->
  (forall c, In c (calls st) -> In c (calls st')) ->
  settled (calls st') o ->
  settledBefore st -> settledBefore st'.
Proof.
  intros (_ & _ & Hpos1 & Ho) Eo Hpos Hcalls Hsettled H j o' Hj Ho'.
  rewrite Hpos in Hj.
  destruct (Nat.eq_dec j (s3ListPos st - 1)%nat) as [->|Hne].
  - rewrite <- Ho, Eo in Ho'. injection Ho' as <-. exact Hsettled.
  - destruct (H j o') as [Hin|Hup]; [lia|exact Ho'| |now right].
    left. now apply Hcalls.
Qed.

Lemma loopBody_settledBefore (st : State) :
  aligned s3List dirEntries st ->
  settledBefore st -> settledBefore (loopBody s3List dirEntries remove st).
Proof.
  intros Hal H.
  assert (Hd : forall d, dirEntry st = Some d -> In d dirEntries).
  { intros d Ed. destruct Hal as (_ & Hd & _). rewrite Ed in Hd. symmetry in Hd.
    apply list_elem_of_In. eapply list_elem_of_lookup_2. exact Hd. }
  unfold loopBody. cbv zeta.
  destruct (dirEntry st) as [d|] eqn:Ed, (s3ListObj st) as [o|] eqn:Eo; [| | |exact H].
  - destruct (compareStringsUtf8BinaryOrder (relativePath d) (transformedKey o) =? -1).
    + (* the local entry comes first *)
      repeat match goal with
             | |- context [if ?b then _ else _] => destruct b
             end;
        (apply (settledBefore_local st); [| |exact H]);
        rewrite ?s3ListPos_getNextDirEntryAfterRemovedDir,
          ?calls_getNextDirEntryAfterRemovedDir; simpl; auto;
        intros c Hc; apply in_or_app; now left.
    + destruct (Z.eqb_spec (compareStringsUtf8BinaryOrder (relativePath d)
                              (transformedKey o)) 0) as [Eq|_].
      * (* equal paths *)
        apply Buffer_compare_eq in Eq.
        destruct (checkKeyOrPathIsDirectory (relativePath d)) eqn:Edir; cbn [negb andb].
        -- apply (settledBefore_remote st _ o Hal Eo); simpl; auto.
           right. exists d. split; [now apply Hd|]. split; [exact Eq|now left].
        -- destruct (Z.ltb_spec (mtime (stats d)) (LastModified o)) as [Hold|Hnew];
             cbn [orb].
           ++ apply (settledBefore_remote st _ o Hal Eo); simpl; auto.
              ** intros c Hc. apply in_or_app. now left.
              ** left. apply in_or_app. right. now left.
           ++ destruct (Z.eqb_spec (Size o) (size (stats d))) as [Hsize|Hsize];
                cbn [negb].
              ** apply (settledBefore_remote st _ o Hal Eo); simpl; auto.
                 right. exists d. split; [now apply Hd|]. split; [exact Eq|].
                 right. split; [lia|exact Hsize].
              ** apply (settledBefore_remote st _ o Hal Eo); simpl; auto.
                 --- intros c Hc. apply in_or_app. now left.
                 --- left. apply in_or_app. right. now left.
      * (* the remote object comes first *)
        apply (settledBefore_remote st _ o Hal Eo); simpl; auto.
        -- intros c Hc. apply in_or_app. now left.
        -- left. apply in_or_app. right. now left.
  - repeat match goal with
           | |- context [if ?b then _ else _] => destruct b
           end;
      (apply (settledBefore_local st); [| |exact H]);
      rewrite ?s3ListPos_getNextDirEntryAfterRemovedDir,
        ?calls_getNextDirEntryAfterRemovedDir; simpl; auto;
      intros c Hc; apply in_or_app; now left.
  - apply (settledBefore_remote st _ o Hal Eo); simpl; auto.
    + intros c Hc. apply in_or_app. now left.
    + left. apply in_or_app. right. now left.
Qed.

Lemma loop_settledBefore (fuel : nat) (st st' : State) :
  aligned s3List dirEntries st -> settledBefore st ->
  loop s3List dirEntries remove fuel st = Some st' ->
  aligned s3List dirEntries st' /\ settledBefore st' /\ loopCondition st' = false.
Proof.
  revert st. induction fuel as [|fuel IH]; intros st Hal H; simpl;
    destruct (loopCondition st) eqn:Ec; try discriminate;
    try (intros [= <-]; auto).
  apply IH; [now apply loopBody_aligned|now apply loopBody_settledBefore].
Qed.

End SyncCompleteness.

Section SyncCompletenessResult.
Import StringUtils JsString KeyAndPathUtils S3Utils FilesystemOps Sync.

(** X29.  A reconciliation settles every object of the remote list,
    whatever the order of the two lists: the object is downloaded, or some
    local entry has its transformed key as path and is a directory or a file
    of the same size that is not older. *)
Theorem sync_settles_every_remote_object (s3List : list S3ListObj)
    (dirEntries : list DirEntry) (remove : bool) :
  exists cs, sync s3List dirEntries remove = Some cs /\
             Forall (settled dirEntries cs) s3List.
Proof.
  destruct (sync_total s3List dirEntries remove) as [cs E].
  exists cs. split; [exact E|].
  unfold sync in E.
  destruct (loop s3List dirEntries remove _ _) as [st'|] eqn:El; [|discriminate].
  injection E as <-.
  destruct (loop_settledBefore s3List dirEntries remove _ _ _
              (initialState_aligned s3List dirEntries)
              (fun j o Hj _ => match Nat.nlt_0_r j Hj with end) El)
    as ((_ & _ & Hpos & Ho) & Hsettled & Hend).
  assert (Hnone : s3ListObj st' = None).
  { unfold loopCondition in Hend.
    destruct (dirEntry st'), (s3ListObj st'); try discriminate. reflexivity. }
  rewrite Hnone in Ho. symmetry in Ho. apply lookup_ge_None in Ho.
  apply Forall_forall. intros o Hin.
  apply list_elem_of_lookup_1 in Hin as [j Hj].
  apply (Hsettled j o); [|exact Hj].
  apply lookup_lt_Some in Hj. lia.
Qed.

End SyncCompletenessResult.

Section StrictOrderFacts.
Import StringUtils JsString.

Lemma Buffer_compare_lt_le_trans (a b c : string) :
  Buffer_compare a b = -1 -> Buffer_compare b c <= 0 -> Buffer_compare a c = -1.
Proof.
  intros Hab Hbc.
  assert (Hac : Buffer_compare a c <= 0) by (apply (Buffer_compare_trans a b c); lia).
  destruct (Buffer_compare_range a c) as [E|[E|E]]; [exact E| |lia].
  apply Buffer_compare_eq in E. subst c.
  rewrite (Buffer_compare_antisym a b) in Hbc. lia.
Qed.

Lemma Buffer_compare_le_lt_trans (a b c : string) :
  Buffer_compare a b <= 0 -> Buffer_compare b c = -1 -> Buffer_compare a c = -1.
Proof.
  intros Hab Hbc.
  assert (Hac : Buffer_compare a c <= 0) by (apply (Buffer_compare_trans a b c); lia).
  destruct (Buffer_compare_range a c) as [E|[E|E]]; [exact E| |lia].
  apply Buffer_compare_eq in E. subst c.
  rewrite (Buffer_compare_antisym b a) in Hab. lia.
Qed.

Lemma Buffer_compare_lt_neq (a b : string) : Buffer_compare a b = -1 -> a <> b.
Proof. intros H ->. rewrite Buffer_compare_refl in H. discriminate H. Qed.

Lemma Buffer_compare_gt (a b : string) :
  Buffer_compare a b <> -1 -> Buffer_compare a b <> 0 -> Buffer_compare b a = -1.
Proof.
  intros H1 H0. rewrite (Buffer_compare_antisym a b).
  destruct (Buffer_compare_range a b) as [E|[E|E]]; [contradiction|contradiction|].
  now rewrite E.
Qed.

Lemma startsWith_le (p s : string) :
  startsWith p s = true -> Buffer_compare p s <= 0.
Proof.
  revert s. induction p as [|x p IH]; intros [|y s]; simpl; try lia; try discriminate.
  destruct (Ascii.eqb_spec x y) as [->|]; [|discriminate].
  rewrite N.compare_refl. apply IH.
Qed.

Lemma StronglySorted_lookup {A : Type} (R : A -> A -> Prop) (l : list A)
    (i j : nat) (a b : A) :
  StronglySorted R l ->
  l !! i = Some a -> l !! j = Some b -> (i < j)%nat -> R a b.
Proof.
  intros Hs. revert i j. induction Hs as [|x l Hs IH Hall]; intros i j Hi Hj Hlt.
  - discriminate.
  - destruct j as [|j]; [lia|]. simpl in Hj.
    destruct i as [|i]; simpl in Hi.
    + injection Hi as <-. rewrite Forall_forall in Hall.
      apply Hall. eapply list_elem_of_lookup_2. exact Hj.
    + apply (IH i j); auto. lia.
Qed.

End StrictOrderFacts.

Section SyncSafety.
Import StringUtils JsString KeyAndPathUtils S3Utils FilesystemOps Sync.

Variable s3List : list S3ListObj.
Variable dirEntries : list DirEntry.
Variable remove : bool.

(** Strictly before, under the UTF-8 byte comparator. *)
Definition precedes (a b : string) : Prop := compareStringsUtf8BinaryOrder a b = -1.

Hypothesis remoteSorted :
  StronglySorted (fun a b => precedes (transformedKey a) (transformedKey b)) s3List.
Hypothesis localSorted :
  StronglySorted (fun a b => precedes (relativePath a) (relativePath b)) dirEntries.

(** What makes a call of the reconciler right: a download is of a listed
    object that no local entry mirrors; an unlinked path is the transformed
    key of no listed object; no listed object lies below a directory that is
    removed. *)
Definition safeCall (c : Call) : Prop :=
  match c with
  | CallWriteS3Object k tk =>
      exists o, In o s3List /\ k = Key o /\ tk = transformedKey o /\
                forall d, In d dirEntries -> ~ upToDate d o
  | CallUnlinkFile p => forall o, In o s3List -> transformedKey o <> p
  | CallRmdirRecursive p =>
      forall o, In o s3List -> startsWith p (transformedKey o) = false
  end.

(** The merge invariant at local index [i] and remote index [j]: the local
    entries passed come before the remote objects still to come, and the
    remote objects passed come before the local entries still to come. *)
Definition localsBelow (i j : nat) : Prop :=
  forall i' j' d o, (i' < i)%nat -> (j <= j')%nat ->
    dirEntries !! i' = Some d -> s3List !! j' = Some o ->
    precedes (relativePath d) (transformedKey o).

Definition remotesBelow (i j : nat) : Prop :=
  forall i' j' d o, (j' < j)%nat -> (i <= i')%nat ->
    dirEntries !! i' = Some d -> s3List !! j' = Some o ->
    precedes (transformedKey o) (relativePath d).

Definition mergedAt (i j : nat) (cs : list Call) : Prop :=
  localsBelow i j /\ remotesBelow i j /\ Forall safeCall cs.

Definition merged (st : State) : Prop :=
  mergedAt (dirEntPos st - 1) (s3ListPos st - 1) (calls st).

(** Every remote object from index [j] on satisfies [P]. *)
Definition remoteFrom (j : nat) (P : S3ListObj -> Prop) : Prop :=
  forall j' o, (j <= j')%nat -> s3List !! j' = Some o -> P o.

Definition localFrom (i : nat) (P : DirEntry -> Prop) : Prop :=
  forall i' d, (i <= i')%nat -> dirEntries !! i' = Some d -> P d.

Lemma remote_after (j : nat) (o : S3ListObj) :
  s3List !! j = Some o ->
  remoteFrom j (fun o' => Buffer_compare (transformedKey o) (transformedKey o') <= 0).
Proof.
  intros Ho j' o' Hj Ho'. destruct (Nat.eq_dec j j') as [<-|Hne].
  - rewrite Ho in Ho'. injection Ho' as <-. rewrite Buffer_compare_refl. lia.
  - assert (H : precedes (transformedKey o) (transformedKey o')).
    { apply (StronglySorted_lookup _ s3List j j' o o' remoteSorted Ho Ho'). lia. }
    unfold precedes, compareStringsUtf8BinaryOrder in H. lia.
Qed.

Lemma local_after (i : nat) (d : DirEntry) :
  dirEntries !! i = Some d ->
  localFrom i (fun d' => Buffer_compare (relativePath d) (relativePath d') <= 0).
Proof.
  intros Hd i' d' Hi Hd'. destruct (Nat.eq_dec i i') as [<-|Hne].
  - rewrite Hd in Hd'. injection Hd' as <-. rewrite Buffer_compare_refl. lia.
  - assert (H : precedes (relativePath d) (relativePath d')).
    { apply (StronglySorted_lookup _ dirEntries i i' d d' localSorted Hd Hd'). lia. }
    unfold precedes, compareStringsUtf8BinaryOrder in H. lia.
Qed.

Lemma remote_exhausted (j : nat) (P : S3ListObj -> Prop) :
  s3List !! j = None -> remoteFrom j P.
Proof.
  intros Hnone j' o Hj Ho. apply lookup_ge_None in Hnone.
  apply lookup_lt_Some in Ho. lia.
Qed.

Lemma local_exhausted (i : nat) (P : DirEntry -> Prop) :
  dirEntries !! i = None -> localFrom i P.
Proof.
  intros Hnone i' d Hi Hd. apply lookup_ge_None in Hnone.
  apply lookup_lt_Some in Hd. lia.
Qed.

Lemma remote_after_precedes (j : nat) (o : S3ListObj) (p : string) :
  s3List !! j = Some o -> precedes p (transformedKey o) ->
  remoteFrom j (fun o' => precedes p (transformedKey o')).
Proof.
  intros Ho Hp j' o' Hj Ho'. unfold precedes, compareStringsUtf8BinaryOrder in *.
  apply (Buffer_compare_lt_le_trans p (transformedKey o)); [exact Hp|].
  exact (remote_after j o Ho j' o' Hj Ho').
Qed.

Lemma remote_after_outside (j : nat) (o : S3ListObj) (p : string) :
  s3List !! j = Some o -> precedes p (transformedKey o) ->
  startsWith p (transformedKey o) = false ->
  remoteFrom j (fun o' => startsWith p (transformedKey o') = false).
Proof.
  intros Ho Hp Hout j' o' Hj Ho'.
  destruct (startsWith p (transformedKey o')) eqn:E; [|reflexivity].
  rewrite <- Hout. symmetry.
  apply (startsWith_between p (transformedKey o) (transformedKey o')); [|
    exact (remote_after j o Ho j' o' Hj Ho')|exact E].
  unfold precedes, compareStringsUtf8BinaryOrder in Hp. lia.
Qed.

Lemma local_after_precedes (i : nat) (d : DirEntry) (p : string) :
  dirEntries !! i = Some d -> precedes p (relativePath d) ->
  localFrom i (fun d' => precedes p (relativePath d')).
Proof.
  intros Hd Hp i' d' Hi Hd'. unfold precedes, compareStringsUtf8BinaryOrder in *.
  apply (Buffer_compare_lt_le_trans p (relativePath d)); [exact Hp|].
  exact (local_after i d Hd i' d' Hi Hd').
Qed.

Lemma safe_unlink (i j : nat) (cs : list Call) (d : DirEntry) :
  mergedAt i j cs -> dirEntries !! i = Some d ->
  remoteFrom j (fun o' => precedes (relativePath d) (transformedKey o')) ->
  safeCall (CallUnlinkFile (relativePath d)).
Proof.
  intros (_ & HB & _) Hd Hafter o Hin.
  apply list_elem_of_In, list_elem_of_lookup_1 in Hin as [j' Ho].
  unfold precedes, compareStringsUtf8BinaryOrder in *.
  destruct (Nat.lt_ge_cases j' j) as [Hlt|Hge].
  - apply Buffer_compare_lt_neq. apply (HB i j' d o); auto.
  - intros E. apply (Buffer_compare_lt_neq _ _ (Hafter j' o Hge Ho)). now symmetry.
Qed.

Lemma safe_rmdir (i j : nat) (cs : list Call) (d : DirEntry) :
  mergedAt i j cs -> dirEntries !! i = Some d ->
  remoteFrom j (fun o' => startsWith (relativePath d) (transformedKey o') = false) ->
  safeCall (CallRmdirRecursive (relativePath d)).
Proof.
  intros (_ & HB & _) Hd Hafter o Hin.
  apply list_elem_of_In, list_elem_of_lookup_1 in Hin as [j' Ho].
  destruct (Nat.lt_ge_cases j' j) as [Hlt|Hge]; [|now apply (Hafter j' o)].
  destruct (startsWith (relativePath d) (transformedKey o)) eqn:E; [|reflexivity].
  exfalso. apply startsWith_le in E.
  assert (H : precedes (transformedKey o) (relativePath d)) by (apply (HB i j' d o); auto).
  unfold precedes, compareStringsUtf8BinaryOrder in H.
  rewrite (Buffer_compare_antisym (transformedKey o) (relativePath d)) in E. lia.
Qed.

Lemma safe_write (i j : nat) (cs : list Call) (o : S3ListObj) :
  mergedAt i j cs -> s3List !! j = Some o ->
  localFrom i (fun d' => ~ upToDate d' o) ->
  safeCall (CallWriteS3Object (Key o) (transformedKey o)).
Proof.
  intros (HA & _ & _) Ho Hafter. exists o.
  split; [apply list_elem_of_In; eapply list_elem_of_lookup_2; exact Ho|].
  split; [reflexivity|]. split; [reflexivity|].
  intros d Hin. apply list_elem_of_In, list_elem_of_lookup_1 in Hin as [i' Hd].
  destruct (Nat.lt_ge_cases i' i) as [Hlt|Hge]; [|now apply (Hafter i' d)].
  intros [Hpath _].
  assert (H : precedes (relativePath d) (transformedKey o)) by (apply (HA i' j d o); auto).
  unfold precedes, compareStringsUtf8BinaryOrder in H.
  now apply Buffer_compare_lt_neq in H.
Qed.

Lemma mergedAt_local (i j : nat) (cs cs2 : list Call) (d : DirEntry) :
  dirEntries !! i = Some d ->
  remoteFrom j (fun o' => precedes (relativePath d) (transformedKey o')) ->
  Forall safeCall cs2 ->
  mergedAt i j cs -> mergedAt (S i) j cs2.
Proof.
  intros Hd Hafter Hcs (HA & HB & _). split; [|split; [|exact Hcs]].
  - intros i' j' d' o' Hi Hj Hd' Ho'.
    destruct (Nat.eq_dec i' i) as [->|Hne].
    + rewrite Hd in Hd'. injection Hd' as <-. now apply (Hafter j' o').
    + apply (HA i' j' d' o'); auto. lia.
  - intros i' j' d' o' Hj Hi Hd' Ho'. apply (HB i' j' d' o'); auto. lia.
Qed.

Lemma mergedAt_skip (i j n : nat) (cs cs2 : list Call) (d : DirEntry) :
  dirEntries !! i = Some d ->
  remoteFrom j (fun o' => precedes (relativePath d) (transformedKey o')) ->
  remoteFrom j (fun o' => startsWith (relativePath d) (transformedKey o') = false) ->
  (forall i' e, (S i <= i' < S i + n)%nat -> dirEntries !! i' = Some e ->
                startsWith (relativePath d) (relativePath e) = true) ->
  Forall safeCall cs2 ->
  mergedAt i j cs -> mergedAt (S i + n) j cs2.
Proof.
  intros Hd Hafter Hout Hskipped Hcs (HA & HB & _). split; [|split; [|exact Hcs]].
  - intros i' j' e o' Hi Hj He Ho'.
    destruct (Nat.lt_ge_cases i' i) as [Hlt|Hge]; [now apply (HA i' j' e o')|].
    destruct (Nat.eq_dec i' i) as [->|Hne].
    + rewrite Hd in He. injection He as <-. now apply (Hafter j' o').
    + assert (Hpre : startsWith (relativePath d) (relativePath e) = true).
      { apply (Hskipped i' e); [lia|exact He]. }
      pose proof (Hafter j' o' Hj Ho') as Hdo.
      pose proof (Hout j' o' Hj Ho') as Hno.
      unfold precedes, compareStringsUtf8BinaryOrder in *.
      destruct (Buffer_compare_range (relativePath e) (transformedKey o'))
        as [E|[E|E]]; [exact E| |].
      * apply Buffer_compare_eq in E. rewrite <- E in Hno. congruence.
      * exfalso.
        assert (Hbetween : startsWith (relativePath d) (transformedKey o') = true).
        { apply (startsWith_between _ (transformedKey o') (relativePath e));
            [lia| |exact Hpre].
          rewrite (Buffer_compare_antisym (relativePath e) (transformedKey o')). lia. }
        congruence.
  - intros i' j' d' o' Hj Hi Hd' Ho'. apply (HB i' j' d' o'); auto. lia.
Qed.

Lemma mergedAt_remote (i j : nat) (cs cs2 : list Call) (o : S3ListObj) :
  s3List !! j = Some o ->
  localFrom i (fun d' => precedes (transformedKey o) (relativePath d')) ->
  Forall safeCall cs2 ->
  mergedAt i j cs -> mergedAt i (S j) cs2.
Proof.
  intros Ho Hafter Hcs (HA & HB & _). split; [|split; [|exact Hcs]].
  - intros i' j' d' o' Hi Hj Hd' Ho'. apply (HA i' j' d' o'); auto. lia.
  - intros i' j' d' o' Hj Hi Hd' Ho'.
    destruct (Nat.eq_dec j' j) as [->|Hne].
    + rewrite Ho in Ho'. injection Ho' as <-. now apply (Hafter i' d').
    + apply (HB i' j' d' o'); auto. lia.
Qed.

Lemma mergedAt_both (i j : nat) (cs cs2 : list Call) (d : DirEntry) (o : S3ListObj) :
  dirEntries !! i = Some d -> s3List !! j = Some o ->
  relativePath d = transformedKey o ->
  Forall safeCall cs2 ->
  mergedAt i j cs -> mergedAt (S i) (S j) cs2.
Proof.
  intros Hd Ho Hpath Hcs (HA & HB & _). split; [|split; [|exact Hcs]].
  - intros i' j' d' o' Hi Hj Hd' Ho'.
    destruct (Nat.eq_dec i' i) as [->|Hne].
    + rewrite Hd in Hd'. injection Hd' as <-. rewrite Hpath.
      apply (StronglySorted_lookup _ s3List j j' o o' remoteSorted Ho Ho'). lia.
    + apply (HA i' j' d' o'); auto; lia.
  - intros i' j' d' o' Hj Hi Hd' Ho'.
    destruct (Nat.eq_dec j' j) as [->|Hne].
    + rewrite Ho in Ho'. injection Ho' as <-. rewrite <- Hpath.
      apply (StronglySorted_lookup _ dirEntries i i' d d' localSorted Hd Hd'). lia.
    + apply (HB i' j' d' o'); auto; lia.
Qed.

Lemma safe_snoc (cs : list Call) (c : Call) :
  Forall safeCall cs -> safeCall c -> Forall safeCall (cs ++ [c]).
Proof. intros Hcs Hc. apply Forall_app. split; [exact Hcs|]. now repeat constructor. Qed.

Lemma precedes_not_upToDate (d : DirEntry) (o : S3ListObj) :
  relativePath d <> transformedKey o -> ~ upToDate d o.
Proof. intros Hne [Hpath _]. contradiction. Qed.

Lemma loopBody_merged (st : State) :
  aligned s3List dirEntries st -> merged st ->
  merged (loopBody s3List dirEntries remove st).
Proof.
  unfold merged. intros (Hd1 & Hd & Ho1 & Ho) Hm.
  assert (Hskip : forall (c : Call) (d : DirEntry) (i : nat),
            dirEntPos st = S i -> dirEntries !! i = Some d ->
            remoteFrom (s3ListPos st - 1)
              (fun o' => precedes (relativePath d) (transformedKey o')) ->
            remoteFrom (s3ListPos st - 1)
              (fun o' => startsWith (relativePath d) (transformedKey o') = false) ->
            safeCall c ->
            mergedAt i (s3ListPos st - 1) (calls st) ->
            let st' := getNextDirEntryAfterRemovedDir dirEntries (relativePath d)
                         (call c st) in
            mergedAt (dirEntPos st' - 1) (s3ListPos st' - 1) (calls st')).
  { intros c d i Ei Hdi P1 P2 Hc Hmi st'. subst st'.
    destruct (getNextDirEntryAfterRemovedDir_spec dirEntries (relativePath d) (call c st))
      as (n & -> & Hskipped & _).
    cbn [dirEntPos s3ListPos calls call] in *. rewrite Ei in *.
    replace (S (S i + n) - 1)%nat with (S i + n)%nat by lia.
    apply (mergedAt_skip i _ n (calls st) _ d); auto.
    apply safe_snoc; [apply Hmi|exact Hc]. }
  unfold loopBody. cbv zeta.
  destruct (dirEntPos st) as [|i] eqn:Ei; [lia|].
  destruct (s3ListPos st) as [|j] eqn:Ej; [lia|].
  replace (S i - 1)%nat with i in * by lia.
  replace (S j - 1)%nat with j in * by lia.
  pose proof Hm as (HA & HB & Hcs).
  destruct (dirEntry st) as [d|] eqn:Ed, (s3ListObj st) as [o|] eqn:Eo;
    symmetry in Hd, Ho.
  - (* both cursors hold an element *)
    destruct (Z.eqb_spec (compareStringsUtf8BinaryOrder (relativePath d)
                            (transformedKey o)) (-1)) as [Hlt|Hnlt].
    + (* the local entry comes first *)
      pose proof (remote_after_precedes j o (relativePath d) Ho Hlt) as P1.
      assert (Hnext : mergedAt (dirEntPos (getNextDirEntry dirEntries st) - 1)
                        (s3ListPos (getNextDirEntry dirEntries st) - 1)
                        (calls (getNextDirEntry dirEntries st))).
      { cbn [getNextDirEntry dirEntPos s3ListPos calls]. rewrite Ei, Ej.
        replace (S (S i) - 1)%nat with (S i) by lia.
        replace (S j - 1)%nat with j by lia.
        now apply (mergedAt_local i j (calls st) _ d). }
      destruct remove; [|exact Hnext].
      destruct (checkKeyOrPathIsDirectory (relativePath d)) eqn:Edir; cbn [andb negb].
      * unfold keyBelongsInCurrentDirectory.
        destruct (startsWith (relativePath d) (transformedKey o)) eqn:Ebel; cbn [negb];
          [exact Hnext|].
        apply (Hskip _ d i); auto.
        -- now apply (remote_after_outside j o).
        -- apply (safe_rmdir i j (calls st) d Hm Hd).
           now apply (remote_after_outside j o).
      * cbn [getNextDirEntry call dirEntPos s3ListPos calls]. rewrite Ei, Ej.
        replace (S (S i) - 1)%nat with (S i) by lia.
        replace (S j - 1)%nat with j by lia.
        apply (mergedAt_local i j (calls st) _ d); auto.
        apply safe_snoc; [exact Hcs|]. now apply (safe_unlink i j (calls st) d).
    + destruct (Z.eqb_spec (compareStringsUtf8BinaryOrder (relativePath d)
                              (transformedKey o)) 0) as [Heq|Hneq].
      * (* equal paths *)
        apply Buffer_compare_eq in Heq.
        match goal with
        | |- context [getNextDirEntry _ ?x] => set (st0 := x)
        end.
        assert (H0 : dirEntPos st0 = S i /\ s3ListPos st0 = S j /\
                     Forall safeCall (calls st0)).
        { subst st0.
          destruct (checkKeyOrPathIsDirectory (relativePath d)) eqn:Edir;
            cbn [negb andb]; [auto|].
          destruct (Z.ltb_spec (mtime (stats d)) (LastModified o)) as [Hold|Hnew];
            cbn [orb].
          - cbn [call dirEntPos s3ListPos calls]. split; [exact Ei|]. split; [exact Ej|].
            apply safe_snoc; [exact Hcs|].
            apply (safe_write i j (calls st) o Hm Ho).
            intros i' d' Hi Hd'. destruct (Nat.eq_dec i' i) as [->|Hne].
            + rewrite Hd in Hd'. injection Hd' as <-.
              intros [_ [Hdir|[Hm' _]]]; [congruence|lia].
            + apply precedes_not_upToDate. rewrite <- Heq. intros E.
              assert (Hp : precedes (relativePath d) (relativePath d')).
              { apply (StronglySorted_lookup _ dirEntries i i' d d' localSorted Hd Hd').
                lia. }
              unfold precedes, compareStringsUtf8BinaryOrder in Hp.
              apply Buffer_compare_lt_neq in Hp. congruence.
          - destruct (Z.eqb_spec (Size o) (size (stats d))) as [Hsize|Hsize];
              cbn [negb]; [auto|].
            cbn [call dirEntPos s3ListPos calls]. split; [exact Ei|]. split; [exact Ej|].
            apply safe_snoc; [exact Hcs|].
            apply (safe_write i j (calls st) o Hm Ho).
            intros i' d' Hi Hd'. destruct (Nat.eq_dec i' i) as [->|Hne].
            + rewrite Hd in Hd'. injection Hd' as <-.
              intros [_ [Hdir|[_ Hs']]]; [congruence|contradiction].
            + apply precedes_not_upToDate. rewrite <- Heq. intros E.
              assert (Hp : precedes (relativePath d) (relativePath d')).
              { apply (StronglySorted_lookup _ dirEntries i i' d d' localSorted Hd Hd').
                lia. }
              unfold precedes, compareStringsUtf8BinaryOrder in Hp.
              apply Buffer_compare_lt_neq in Hp. congruence. }
        destruct H0 as (E0i & E0j & Hcs0).
        cbn [getNextS3ListObj getNextDirEntry dirEntPos s3ListPos calls].
        rewrite E0i, E0j.
        replace (S (S i) - 1)%nat with (S i) by lia.
        replace (S (S j) - 1)%nat with (S j) by lia.
        now apply (mergedAt_both i j (calls st) _ d o).
      * (* the remote object comes first *)
        assert (Hgt : precedes (transformedKey o) (relativePath d)).
        { unfold precedes, compareStringsUtf8BinaryOrder in *.
          now apply Buffer_compare_gt. }
        pose proof (local_after_precedes i d (transformedKey o) Hd Hgt) as Q1.
        cbn [getNextS3ListObj call dirEntPos s3ListPos calls]. rewrite Ei, Ej.
        replace (S i - 1)%nat with i by lia.
        replace (S (S j) - 1)%nat with (S j) by lia.
        apply (mergedAt_remote i j (calls st) _ o); auto.
        apply safe_snoc; [exact Hcs|].
        apply (safe_write i j (calls st) o Hm Ho).
        intros i' d' Hi Hd'. apply precedes_not_upToDate.
        specialize (Q1 i' d' Hi Hd'). unfold precedes, compareStringsUtf8BinaryOrder in Q1.
        apply Buffer_compare_lt_neq in Q1. congruence.
  - (* the remote list is exhausted *)
    assert (Hnext : mergedAt (dirEntPos (getNextDirEntry dirEntries st) - 1)
                      (s3ListPos (getNextDirEntry dirEntries st) - 1)
                      (calls (getNextDirEntry dirEntries st))).
    { cbn [getNextDirEntry dirEntPos s3ListPos calls]. rewrite Ei, Ej.
      replace (S (S i) - 1)%nat with (S i) by lia.
      replace (S j - 1)%nat with j by lia.
      apply (mergedAt_local i j (calls st) _ d); auto. now apply remote_exhausted. }
    destruct remove; [|exact Hnext].
    destruct (checkKeyOrPathIsDirectory (relativePath d)) eqn:Edir.
    + apply (Hskip _ d i); auto; try (now apply remote_exhausted).
      apply (safe_rmdir i j (calls st) d Hm Hd). now apply remote_exhausted.
    + cbn [getNextDirEntry call dirEntPos s3ListPos calls]. rewrite Ei, Ej.
      replace (S (S i) - 1)%nat with (S i) by lia.
      replace (S j - 1)%nat with j by lia.
      apply (mergedAt_local i j (calls st) _ d); auto; [now apply remote_exhausted|].
      apply safe_snoc; [exact Hcs|].
      apply (safe_unlink i j (calls st) d Hm Hd). now apply remote_exhausted.
  - (* the local list is exhausted *)
    cbn [getNextS3ListObj call dirEntPos s3ListPos calls]. rewrite Ei, Ej.
    replace (S i - 1)%nat with i by lia.
    replace (S (S j) - 1)%nat with (S j) by lia.
    apply (mergedAt_remote i j (calls st) _ o); auto; [now apply local_exhausted|].
    apply safe_snoc; [exact Hcs|].
    apply (safe_write i j (calls st) o Hm Ho). now apply local_exhausted.
  - rewrite Ei, Ej.
    replace (S i - 1)%nat with i by lia. replace (S j - 1)%nat with j by lia.
    exact Hm.
Qed.

End SyncSafety.

Section SyncSafetyResult.
Import StringUtils JsString KeyAndPathUtils S3Utils FilesystemOps Sync.

Lemma loop_merged (s3List : list S3ListObj) (dirEntries : list DirEntry)
    (remove : bool) :
  StronglySorted (fun a b => precedes (transformedKey a) (transformedKey b)) s3List ->
  StronglySorted (fun a b => precedes (relativePath a) (relativePath b)) dirEntries ->
  forall (fuel : nat) (st st' : State),
    aligned s3List dirEntries st -> merged s3List dirEntries st ->
    loop s3List dirEntries remove fuel st = Some st' ->
    merged s3List dirEntries st'.
Proof.
  intros Hremote Hlocal.
  induction fuel as [|fuel IH]; intros st st' Hal Hm; simpl;
    destruct (loopCondition st); try discriminate;
    try (intros [= <-]; exact Hm).
  apply IH; [now apply loopBody_aligned|now apply loopBody_merged].
Qed.

(** X30.  When the remote list is strictly increasing in the transformed
    keys and the local list strictly increasing in the relative paths, every
    call of the reconciliation is right: an object is downloaded only if no
    local entry mirrors it (same path, and a directory or a file of the same
    size that is not older); a file is unlinked only if no listed object has
    its path as transformed key; a directory is removed only if no listed
    object has a transformed key below it. *)
Theorem sync_is_right_on_sorted_lists (s3List : list S3ListObj)
    (dirEntries : list DirEntry) (remove : bool) :
  StronglySorted (fun a b => precedes (transformedKey a) (transformedKey b)) s3List ->
  StronglySorted (fun a b => precedes (relativePath a) (relativePath b)) dirEntries ->
  exists cs, sync s3List dirEntries remove = Some cs /\
             Forall (safeCall s3List dirEntries) cs.
Proof.
  intros Hremote Hlocal.
  destruct (sync_total s3List dirEntries remove) as [cs E].
  exists cs. split; [exact E|].
  unfold sync in E.
  destruct (loop s3List dirEntries remove _ _) as [st'|] eqn:El; [|discriminate].
  injection E as <-.
  apply (loop_merged s3List dirEntries remove Hremote Hlocal _ _ _
           (initialState_aligned s3List dirEntries)) in El; [apply El|].
  split; [|split; [|constructor]].
  - intros i' j' d o Hi. simpl in Hi. lia.
  - intros i' j' d o Hj. simpl in Hj. lia.
Qed.

Lemma sync_is_right_on_sorted_lists_witness :
  let s3List := [mkS3ListObj "0.txt" "0.txt" 0 0;
                 mkS3ListObj "dir1/dir1_1/aa.txt" "dir1/dir1_1/aa.txt" 50 18;
                 mkS3ListObj "whatever.txt" "whatever.txt" 0 0;
                 mkS3ListObj "z.txt" "z.txt" 50 7] in
  let dirEntries :=
    [file "1.txt" 50 7; file "a.txt" 50 7;
     file "dir1/" 50 0; file "dir1/2.txt" 50 7; file "dir1/22.txt" 50 7;
     file "dir1/dir1_1/" 50 0; file "dir1/dir1_1/aa.txt" 50 7;
     file "dir2/" 50 0; file "dir2/b.txt" 50 7;
     file "z.txt" 50 7; file ntilde_txt 50 7] in
  exists cs, sync s3List dirEntries true = Some cs /\
             Forall (safeCall s3List dirEntries) cs.
Proof.
  apply (sync_is_right_on_sorted_lists
           [mkS3ListObj "0.txt" "0.txt" 0 0;
            mkS3ListObj "dir1/dir1_1/aa.txt" "dir1/dir1_1/aa.txt" 50 18;
            mkS3ListObj "whatever.txt" "whatever.txt" 0 0;
            mkS3ListObj "z.txt" "z.txt" 50 7]
           [file "1.txt" 50 7; file "a.txt" 50 7;
            file "dir1/" 50 0; file "dir1/2.txt" 50 7; file "dir1/22.txt" 50 7;
            file "dir1/dir1_1/" 50 0; file "dir1/dir1_1/aa.txt" 50 7;
            file "dir2/" 50 0; file "dir2/b.txt" 50 7;
            file "z.txt" 50 7; file ntilde_txt 50 7] true);
    repeat constructor.
Defined.

End SyncSafetyResult.
